(** * FASTER bad-channel / bad-epoch detection (mne_sandbox.preprocessing.bads)

    A shallow embedding of [faster_.py] and [bads.py].

    Numbers: numpy's float64 values are idealised as exact rationals ([Q]);
    a division by zero, which numpy answers with nan or inf, gives 0 as in
    [Q].  Rounding is modelled in the one place where a float is truncated
    to an integer and the rounding therefore decides the result: the segment
    length of the spectral estimator.  Library routines that leave the
    rationals ([scipy.signal.welch], [np.log2], [np.arccos], [np.sqrt],
    [np.polyfit]), the rounding to the nearest float64 and the routines of
    MNE are fields of the record [Externals], over which the two modules are
    parameterised.

    Exceptions: a Python call either returns a value or raises; this is the
    [result] type below, threaded with a bind. *)

From Stdlib Require Import String Ascii QArith Qround Qabs ZArith Bool Lia Arith List.
From Stdlib Require Import Lqa Qpower Permutation DecimalString.
Import ListNotations.

Open Scope string_scope.
Open Scope list_scope.
Open Scope Q_scope.

(* ===================================================================== *)
(** ** Exceptions and fallible computations                               *)
(* ===================================================================== *)

(** The Python exceptions the two modules can raise or let through. *)
Inductive exn : Type :=
| ValueError (msg : string)
| NotImplementedError (msg : string)
| KeyError (key : string)
| IndexError
| AxisError
| TypeError (msg : string)
| OverflowError (msg : string)
| LinAlgError (msg : string).

Inductive result (A : Type) : Type :=
| Ok (a : A)
| Err (e : exn).
Arguments Ok {A} a.
Arguments Err {A} e.

Definition bind {A B} (r : result A) (k : A -> result B) : result B :=
  match r with
  | Ok a => k a
  | Err e => Err e
  end.

Notation "x <- r ;; k" := (bind r (fun x => k))
  (at level 61, r at next level, right associativity).

(** [try: ... except IndexError: raise e'] *)
Definition except_IndexError {A} (r : result A) (e' : exn) : result A :=
  match r with
  | Err IndexError => Err e'
  | _ => r
  end.

(** A list comprehension whose body may raise: elements are evaluated left
    to right and the first exception escapes. *)
Fixpoint mapM {A B} (f : A -> result B) (l : list A) : result (list B) :=
  match l with
  | [] => Ok []
  | a :: l' => b <- f a ;; bs <- mapM f l' ;; Ok (b :: bs)
  end.

Definition is_ok {A} (r : result A) : bool :=
  match r with Ok _ => true | Err _ => false end.

(* ===================================================================== *)
(** ** numpy on rationals                                                 *)
(* ===================================================================== *)

Definition Qsum (l : list Q) : Q := fold_right Qplus 0 l.

(** [np.mean]: the sum over the number of entries. *)
Definition mean (l : list Q) : Q := Qsum l / inject_Z (Z.of_nat (length l)).

Definition sq (q : Q) : Q := q * q.

(** [np.var] (population variance, ddof = 0). *)
Definition var (l : list Q) : Q :=
  let m := mean l in mean (map (fun v => sq (v - m)) l).

(** [np.diff] along the last axis. *)
Fixpoint diff (l : list Q) : list Q :=
  match l with
  | a :: ((b :: _) as l') => (b - a) :: diff l'
  | _ => []
  end.

Fixpoint cumsum_from (acc : Q) (l : list Q) : list Q :=
  match l with
  | [] => []
  | a :: l' => (acc + a) :: cumsum_from (acc + a) l'
  end.

(** [np.cumsum] along the last axis. *)
Definition cumsum (l : list Q) : list Q := cumsum_from 0 l.

Definition Qmax (a b : Q) : Q := if Qlt_le_dec a b then b else a.
Definition Qmin (a b : Q) : Q := if Qlt_le_dec b a then b else a.

(** [np.ptp]: maximum minus minimum. *)
Definition ptp (l : list Q) : Q :=
  match l with
  | [] => 0
  | a :: l' => fold_left Qmax l' a - fold_left Qmin l' a
  end.

Fixpoint insert_sorted (a : Q) (l : list Q) : list Q :=
  match l with
  | [] => [a]
  | b :: l' => if Qlt_le_dec b a then b :: insert_sorted a l' else a :: l
  end.

Definition sort (l : list Q) : list Q := fold_right insert_sorted [] l.

(** [np.median]: the middle of the sorted values, or the mean of the two
    middle ones. *)
Definition median (l : list Q) : Q :=
  let s := sort l in
  let n := length s in
  if Nat.even n
  then (nth (n / 2 - 1) s 0 + nth (n / 2) s 0) / 2
  else nth (n / 2) s 0.

(** [scipy.stats.kurtosis] (Fisher, biased): fourth central moment over the
    squared variance, minus three. *)
Definition kurtosis (l : list Q) : Q :=
  let m := mean l in
  mean (map (fun v => sq (sq (v - m))) l) / sq (var l) - 3.

(** [a[idx]] with an index array: every index must be in range. *)
Definition take_idx {A} (l : list A) (idx : list nat) : result (list A) :=
  mapM (fun i => match nth_error l i with
                 | Some a => Ok a
                 | None => Err IndexError
                 end) idx.

(** [a[i]] with one index. *)
Definition getidx {A} (l : list A) (i : nat) : result A :=
  match nth_error l i with
  | Some a => Ok a
  | None => Err IndexError
  end.

(** Elementwise operation on two arrays of one shape. *)
Definition map2 {A B C} (f : A -> B -> C) (a : list A) (b : list B) : list C :=
  map (fun ab => f (fst ab) (snd ab)) (combine a b).

(** Columns of a rectangular array with [ncols] columns. *)
Definition column (j : nat) (m : list (list Q)) : list Q :=
  map (fun row => nth j row 0) m.

(** [np.mean(m, axis=0)] *)
Definition mean_axis0 (ncols : nat) (m : list (list Q)) : list Q :=
  map (fun j => mean (column j m)) (seq 0 ncols).

(** [np.searchsorted(a, v)] (side ['left']) on a sorted array: the first
    index whose entry is not below [v], or [len(a)]. *)
Fixpoint searchsorted (a : list Q) (v : Q) : nat :=
  match a with
  | [] => O
  | x :: a' => if Qlt_le_dec x v then S (searchsorted a' v) else O
  end.

(** [scipy.signal.lfilter(b, 1, y)]: the causal FIR filter
    [out[n] = b[0] y[n] + b[1] y[n-1] + ...], zero before the start.
    [hist] holds the inputs seen so far, latest first. *)
Fixpoint lfilter_from (b : list Q) (hist : list Q) (y : list Q) : list Q :=
  match y with
  | [] => []
  | v :: y' =>
      let hist' := v :: hist in
      Qsum (map2 Qmult b hist') :: lfilter_from b hist' y'
  end.

Definition lfilter (b : list Q) (y : list Q) : list Q := lfilter_from b [] y.

(** The slice [a[start:-1]]. *)
Definition slice_to_last {A} (start : nat) (a : list A) : list A :=
  removelast (skipn start a).

(** [np.polyval(p, x)], Horner's scheme, highest coefficient first. *)
Definition polyval1 (p : list Q) (x : Q) : Q :=
  fold_left (fun y c => y * x + c) p 0.

Definition polyval (p : list Q) (xs : list Q) : list Q := map (polyval1 p) xs.

Definition dot (a b : list Q) : Q := Qsum (map2 Qmult a b).

(** [repr] of a Python int and of a list of ints, as [str.format] prints
    them. *)
Definition repr_int (z : Z) : string := NilZero.string_of_int (Z.to_int z).

Fixpoint repr_ints (l : list Z) : string :=
  match l with
  | [] => ""
  | [z] => repr_int z
  | z :: l' => (repr_int z ++ ", " ++ repr_ints l')%string
  end.

Definition repr_list (l : list Z) : string := ("[" ++ repr_ints l ++ "]")%string.

(* ===================================================================== *)
(** ** Python dictionaries                                                *)
(* ===================================================================== *)

(** A [dict] with string keys keeps insertion order, which is the order
    [keys()], [values()] and [items()] iterate in. *)
Definition dict (V : Type) : Type := list (string * V).

Definition keys {V} (d : dict V) : list string := map fst d.
Definition values {V} (d : dict V) : list V := map snd d.

Fixpoint dict_get {V} (d : dict V) (k : string) : option V :=
  match d with
  | [] => None
  | (k', v) :: d' => if String.eqb k k' then Some v else dict_get d' k
  end.

(** [d[k]] *)
Definition getitem {V} (d : dict V) (k : string) : result V :=
  match dict_get d k with
  | Some v => Ok v
  | None => Err (KeyError k)
  end.

(** [d[k] = v] *)
Fixpoint setitem {V} (d : dict V) (k : string) (v : V) : dict V :=
  match d with
  | [] => [(k, v)]
  | (k', v') :: d' =>
      if String.eqb k k' then (k', v) :: d' else (k', v') :: setitem d' k v
  end.

(** [d[k].append(v)] on a [defaultdict(list)]. *)
Definition dd_append {V} (d : dict (list V)) (k : string) (v : V) : dict (list V) :=
  match dict_get d k with
  | Some l => setitem d k (l ++ [v])
  | None => setitem d k [v]
  end.

(* ===================================================================== *)
(** ** The Epochs collaborator                                            *)
(* ===================================================================== *)

(** One entry of [info['chs']]: the channel name, its kind, and the [loc]
    vector whose entries 0..2 are the sensor position and 3..5 the
    reference position. *)
Record ch_info : Type := mkCh {
  ch_name : string;
  kind : string;
  loc : list Q
}.

Record Info : Type := mkInfo {
  chs : list ch_info;
  sfreq : Q
}.

(** [info['ch_names']] *)
Definition ch_names (info : Info) : list string := map ch_name (chs info).

(** [get_data()] has shape (n_epochs, n_channels, n_samples). *)
Record Epochs : Type := mkEpochs {
  info : Info;
  get_data : list (list (list Q))
}.

(* ===================================================================== *)
(** ** Arrays of timeseries                                               *)
(* ===================================================================== *)

(** The spectral routines accept a block of any leading shape with time on
    the last axis.  [B] is the block, [S] an array of the leading shape
    alone (one number per timeseries). *)
Class NdBlock (B S : Type) : Type := {
  shape_last : B -> nat;                        (* data.shape[-1] *)
  along_last : (list Q -> list Q) -> B -> B;    (* a routine applied with axis=-1 *)
  index_last : nat -> B -> S;                   (* a[..., k] *)
  nd_add : S -> S -> S;                         (* elementwise sum *)
  nd_zero : S                                   (* the sum of no arrays *)
}.

(** [data.shape[-1]] of a block of timeseries (rows are channels). *)
Definition n_samples_of (data : list (list Q)) : nat :=
  match data with
  | [] => O
  | row :: _ => length row
  end.

(** Shape (n_channels, n_samples). *)
#[export] Instance block2 : NdBlock (list (list Q)) (list Q) := {|
  shape_last := n_samples_of;
  along_last := fun f => map f;
  index_last := fun k => map (fun r => nth k r 0);
  nd_add := map2 Qplus;
  nd_zero := []
|}.

(** Shape (n_epochs, n_channels, n_samples). *)
#[export] Instance block3 : NdBlock (list (list (list Q))) (list (list Q)) := {|
  shape_last := fun d => match d with [] => O | ep :: _ => n_samples_of ep end;
  along_last := fun f => map (map f);
  index_last := fun k => map (map (fun r => nth k r 0));
  nd_add := map2 (map2 Qplus);
  nd_zero := []
|}.

(** [np.sum(arrays, axis=0)] over a list of arrays of one shape. *)
Definition sum_axis0 {B S} `{NdBlock B S} (l : list S) : S :=
  match l with
  | [] => nd_zero
  | a :: l' => fold_left nd_add l' a
  end.

(* ===================================================================== *)
(** ** External collaborators                                             *)
(* ===================================================================== *)

(** Keyword arguments as [_handle_default] hands them to the FASTER
    routines; [kw_eeg_ref_corr] is [None] when the key is absent. *)
Record kwargs : Type := mkKwargs {
  kw_use_metrics : option (list string);
  kw_thresh : Q;
  kw_max_iter : nat;
  kw_eeg_ref_corr : option bool
}.

(** Routines of scipy, numpy and MNE, and the two helpers of this package
    that live outside these two modules ([find_outliers] of [outliers.py],
    [_handle_default] of [defaults.py]).  [P] is the type of the caller's
    [method_params] dictionary. *)
Record Externals (P : Type) : Type := mkExternals {
  (* the float64 nearest to a real number: what Python's float arithmetic
     returns for a sum or a product *)
  float_round : Q -> Q;
  (* scipy.signal.welch(x, fs, nperseg=, noverlap=, axis=-1): the exception
     it raises for a sample rate, a segment length, an overlap and a number
     of samples, if any; else the frequency axis for a sample rate and
     segment length, and the power of one timeseries at those frequencies *)
  welch_error : Q -> Q -> Z -> nat -> option exn;
  welch_freqs : Q -> Q -> list Q;
  welch_power : Q -> Q -> Z -> list Q -> list Q;
  (* np.log2 of a positive float *)
  np_log2 : Q -> Q;
  np_sqrt : Q -> Q;
  np_arccos : Q -> Q;
  (* np.polyfit(x, y, deg) on two vectors of one length: coefficients,
     highest degree first; it raises LinAlgError when the fit does not
     converge *)
  np_polyfit : list Q -> list Q -> nat -> result (list Q);
  (* mne.io.pick *)
  pick_info : Info -> list nat -> Info;
  _picks_by_type : Info -> list (string * list nat);
  (* pick_types(info, meg=True, eeg=True, exclude=...); the flag says
     whether channels marked bad are excluded *)
  pick_types : Info -> bool -> list nat;
  (* .outliers.find_outliers(X, threshold, max_iter) *)
  find_outliers : list Q -> Q -> nat -> list nat;
  (* ...defaults._handle_default(k, v) *)
  _handle_default : string -> option P -> result kwargs
}.
Arguments float_round {P} _ _.
Arguments welch_error {P} _ _ _ _ _.
Arguments welch_freqs {P} _ _ _.
Arguments welch_power {P} _ _ _ _ _.
Arguments np_log2 {P} _ _.
Arguments np_sqrt {P} _ _.
Arguments np_arccos {P} _ _.
Arguments np_polyfit {P} _ _ _ _.
Arguments pick_info {P} _ _ _.
Arguments _picks_by_type {P} _ _.
Arguments pick_types {P} _ _ _.
Arguments find_outliers {P} _ _ _ _.
Arguments _handle_default {P} _ _ _.

(** A loop whose body may raise. *)
Fixpoint foldM {A St} (f : St -> A -> result St) (l : list A) (s : St) : result St :=
  match l with
  | [] => Ok s
  | a :: l' => s' <- f s a ;; foldM f l' s'
  end.

(* ===================================================================== *)
(** ** faster_.py                                                         *)
(* ===================================================================== *)

Definition msg_no_position : string :=
  "Cannot perform correction for distance to reference sensor: not all selected channels have position information.".

Definition msg_no_reference : string :=
  "Cannot perform correction for distance to reference sensor: the location of the reference sensor is not specified for all selected channels.".

(** [np.all(row == 0)] *)
Definition all_zero (row : list Q) : bool := forallb (fun c => Qeq_bool c 0) row.

Definition msg_line_noise (freqs : list Z) : string :=
  ("Insufficient sample rate to  estimate power at " ++ repr_list freqs ++
   " Hz for line noise detection. Use the 'metrics' parameter to disable the 'line_noise' metric.")%string.

Definition msg_power_gradient (f : Z) : string :=
  ("Sample rate insufficient to estimate " ++ repr_int f ++
   " Hz power. Use the 'power_gradient_range' parameter to tweak the tested frequencies for this metric or use the 'metrics' parameter to disable the 'power_gradient' metric.")%string.

Definition msg_nan_to_int : string := "cannot convert float NaN to integer".
Definition msg_inf_to_int : string := "cannot convert float infinity to integer".
Definition msg_polyfit_length : string := "expected x and y to have same length".
Definition msg_polyfit_0d : string := "expected 1D or 2D array for y".
Definition msg_len_unsized : string := "len() of unsized object".

(** [int(v)] of a float: the fractional part is cut off, towards zero. *)
Definition int_of_float (v : Q) : Z :=
  if Qle_bool 0 v then Qfloor v else Qceiling v.

(** The scores a metric of the bad-channels table hands on: a vector with
    one score per channel, or numpy's 0-d masked constant, which the
    correlation metric gives for a single channel. *)
Inductive channel_scores : Type :=
| ScoreVector (v : list Q)
| MaskedConstant.

Section Faster.

Context {P : Type}.
Variable lib : Externals P.

(** [min(data.shape[-1], 2 ** int(np.log2(10 * sfreq) + 1))].  The product
    and the sum are float operations.  For a product of zero [np.log2] gives
    -inf and for a negative one nan, which [int] refuses; a negative
    exponent makes [2 ** e] the float [2^e]. *)
Definition welch_nperseg (n_samples : nat) (sfreq : Q) : result Q :=
  let x := float_round lib (10 * sfreq) in
  match Qcompare x 0 with
  | Lt => Err (ValueError msg_nan_to_int)
  | Eq => Err (OverflowError msg_inf_to_int)
  | Gt =>
      let e := int_of_float (float_round lib (np_log2 lib x + 1)) in
      Ok (Qmin (inject_Z (Z.of_nat n_samples)) (2 ^ e))
  end.

(** [np.linalg.norm] of one row. *)
Definition norm (row : list Q) : Q := np_sqrt lib (Qsum (map sq row)).

(** The first part of [_distance_correction]: the positions are read and
    checked, and the angular distances to the reference sensor computed. *)
Definition reference_angles (info : Info) (picks : list nat) : result (list Q) :=
  pos <- mapM (fun ch => match nth_error (chs info) ch with
                         | Some c => Ok (firstn 3 (loc c))
                         | None => Err IndexError
                         end) picks ;;
  ref_pos <- mapM (fun ch => match nth_error (chs info) ch with
                             | Some c => Ok (firstn 3 (skipn 3 (loc c)))
                             | None => Err IndexError
                             end) picks ;;
  (* with no channel the arrays are one-dimensional and have no axis 1 *)
  match picks with
  | [] => Err AxisError
  | _ :: _ =>
    if existsb all_zero pos then Err (ValueError msg_no_position)
    else if existsb all_zero ref_pos then Err (ValueError msg_no_reference)
    else
      (* Compute angular distances to the reference sensor *)
      let pos := map (fun r => map (fun c => c / norm r) r) pos in
      let ref_pos := map (fun r => map (fun c => c / norm r) r) ref_pos in
      Ok (map (fun ab => np_arccos lib (dot (fst ab) (snd ab)))
              (combine pos ref_pos))
  end.

Definition _distance_correction (info : Info) (picks : list nat) (x : list Q)
  : result (list Q) :=
  angles <- reference_angles info picks ;;
  (* Fit a quadratic curve to correct for the angular distance *)
  if negb (length angles =? length x)%nat
  then Err (TypeError msg_polyfit_length)
  else
    fit <- np_polyfit lib angles x 2 ;;
    Ok (map2 Qminus x (polyval fit angles)).

(** [_distance_correction] on the scores of a channel metric.  With the 0-d
    constant for [x] the positions are read and checked as before, and
    [np.polyfit] then refuses the 0-d array. *)
Definition correct_scores (info : Info) (picks : list nat) (scores : channel_scores)
  : result channel_scores :=
  match scores with
  | ScoreVector x => x' <- _distance_correction info picks x ;; Ok (ScoreVector x')
  | MaskedConstant =>
      _ <- reference_angles info picks ;; Err (TypeError msg_polyfit_0d)
  end.

(** [find_outliers(scores, thresh, max_iter)] on the scores of a channel
    metric.  The selector starts from [len(scores)], which a 0-d array does
    not have. *)
Definition outliers_of (scores : channel_scores) (thresh : Q) (max_iter : nat)
  : result (list nat) :=
  match scores with
  | ScoreVector x => Ok (find_outliers lib x thresh max_iter)
  | MaskedConstant => Err (TypeError msg_len_unsized)
  end.

Definition b1 : list Q := [1; -(2); 1].
Definition b2 : list Q := [1; 0; -(2); 0; 1].

Definition _hurst (x : list (list Q)) : list Q :=
  let y := map (fun r => cumsum (diff r)) x in
  (* second order derivative *)
  let y1 := map (lfilter b1) y in
  let y1 := map (slice_to_last (length b1 - 1)) y1 in
  (* wider second order derivative *)
  let y2 := map (lfilter b2) y in
  let y2 := map (slice_to_last (length b2 - 1)) y2 in
  let s1 := map (fun r => mean (map sq r)) y1 in
  let s2 := map (fun r => mean (map sq r)) y2 in
  map2 (fun v2 v1 => (1 # 2) * np_log2 lib (v2 / v1)) s2 s1.

(** [scipy.signal.welch(data, fs, nperseg=, noverlap=, axis=-1)]: unless
    it raises, one frequency axis, and every timeseries transformed on its
    own. *)
Definition welch {B S} `{NdBlock B S} (data : B) (fs : Q) (nperseg : Q) (noverlap : Z)
  : result (list Q * B) :=
  match welch_error lib fs nperseg noverlap (shape_last data) with
  | Some e => Err e
  | None =>
      Ok (welch_freqs lib fs nperseg,
          along_last (welch_power lib fs nperseg noverlap) data)
  end.

Definition _efficient_welch {B S} `{NdBlock B S} (data : B) (sfreq : Q)
  : result (list Q * B) :=
  nperseg <- welch_nperseg (shape_last data) sfreq ;;  (* next power of 2 *)
  welch data sfreq nperseg 0%Z.

(** [ps[..., k]]; the last axis of [ps] has one entry per frequency. *)
Definition power_at {B S} `{NdBlock B S} (fs : list Q) (ps : B) (k : nat) : result S :=
  if (k <? length fs)%nat then Ok (index_last k ps) else Err IndexError.

Definition _freqs_power {B S} `{NdBlock B S} (data : B) (sfreq : Q) (freqs : list Z)
  : result S :=
  fsps <- _efficient_welch data sfreq ;;
  let '(fs, ps) := fsps in
  except_IndexError
    (l <- mapM (fun f => power_at fs ps (searchsorted fs (inject_Z f))) freqs ;;
     Ok (sum_axis0 l))
    (ValueError (msg_line_noise freqs)).

Definition _power_gradient (data : list (list Q)) (sfreq : Q) (prange : Z * Z)
  : result (list Q) :=
  fsps <- _efficient_welch data sfreq ;;
  let '(fs, ps) := fsps in
  (* Limit power spectrum to selected frequencies *)
  let start := searchsorted fs (inject_Z (fst prange)) in
  let stop := searchsorted fs (inject_Z (snd prange)) in
  if (length fs <=? start)%nat
  then Err (ValueError (msg_power_gradient (fst prange)))
  else
    let ps := map (fun r => firstn (stop - start) (skipn start r)) ps in
    (* Compute mean gradients *)
    Ok (map (fun r => mean (diff r)) ps).

Definition _deviation (data : list (list (list Q))) : list (list Q) :=
  let ch_mean := map (map mean) data in
  let n_channels := match data with [] => O | ep :: _ => length ep end in
  let grand := mean_axis0 n_channels ch_mean in
  map (fun row => map2 Qminus row grand) ch_mean.

(** [np.cov] of two rows (normalised by N - 1) and the entry of
    [np.corrcoef] they give, clipped to [-1, 1]. *)
Definition cov (a b : list Q) : Q :=
  let ma := mean a in
  let mb := mean b in
  Qsum (map2 Qmult (map (fun v => v - ma) a) (map (fun v => v - mb) b))
  / (inject_Z (Z.of_nat (length a)) - 1).

Definition corrcoef1 (a b : list Q) : Q :=
  let c := cov a b / np_sqrt lib (cov a a) / np_sqrt lib (cov b b) in
  Qmax (-(1)) (Qmin 1 c).

(** Mean of each column of the correlation matrix, the diagonal masked.
    Of a single row [np.corrcoef] is a scalar, its only entry is masked, and
    the mean is the 0-d masked constant. *)
Definition mean_offdiag_corr (x : list (list Q)) : channel_scores :=
  match x with
  | [_] => MaskedConstant
  | _ =>
      ScoreVector
        (map (fun j =>
                mean (map (fun i => corrcoef1 (nth i x []) (nth j x []))
                          (filter (fun i => negb (i =? j)%nat) (seq 0 (length x)))))
             (seq 0 (length x)))
  end.

Definition line_freqs : list Z := [50%Z; 60%Z].

Definition bad_channels_metrics (epochs : Epochs)
  : dict (list (list Q) -> result channel_scores) :=
  [ ("variance", fun x => Ok (ScoreVector (map var x)));
    ("correlation", fun x => Ok (mean_offdiag_corr x));
    ("hurst", fun x => Ok (ScoreVector (_hurst x)));
    ("kurtosis", fun x => Ok (ScoreVector (map kurtosis x)));
    ("line_noise", fun x => p <- _freqs_power x (sfreq (info epochs)) line_freqs ;;
                            Ok (ScoreVector p)) ].

(** [epochs.get_data()[:, picks]] *)
Definition get_picked (epochs : Epochs) (picks : list nat)
  : result (list (list (list Q))) :=
  mapM (fun ep => take_idx ep picks) (get_data epochs).

(** [data.transpose(1, 0, 2).reshape(data.shape[1], -1)]: each channel's
    epochs laid end to end. *)
Definition concat_epochs (n_channels : nat) (data : list (list (list Q)))
  : list (list Q) :=
  map (fun c => concat (map (fun ep => nth c ep []) data)) (seq 0 n_channels).

Definition resolve_metrics {F} (metrics : dict F) (use_metrics : option (list string))
  : list string :=
  match use_metrics with
  | None => keys metrics
  | Some l => l
  end.

Definition _find_bad_channels (epochs : Epochs) (picks : list nat)
    (use_metrics : option (list string)) (thresh : Q) (max_iter : nat)
    (eeg_ref_corr : bool) : result (dict (list string)) :=
  let metrics := bad_channels_metrics epochs in
  let use_metrics := resolve_metrics metrics use_metrics in
  (* Concatenate epochs in time *)
  data <- get_picked epochs picks ;;
  let data := concat_epochs (length picks) data in
  (* Find bad channels *)
  let info' := pick_info lib (info epochs) picks in
  bads <- foldM (fun bads (grp : string * list nat) =>
            let chs := snd grp in
            foldM (fun bads metric =>
              f <- getitem metrics metric ;;
              rows <- take_idx data chs ;;
              scores <- f rows ;;
              scores <- (if eeg_ref_corr
                         then correct_scores (info epochs) picks scores
                         else Ok scores) ;;
              outliers <- outliers_of scores thresh max_iter ;;
              bad_channels <-
                mapM (fun i => c <- getidx chs i ;;
                               p <- getidx picks c ;;
                               getidx (ch_names (info epochs)) p)
                     outliers ;;
              Ok (dd_append bads metric bad_channels))
              use_metrics bads)
          (_picks_by_type lib info') [] ;;
  Ok (map (fun kv => (fst kv, concat (snd kv))) bads).

Definition bad_epochs_metrics
  : dict (list (list (list Q)) -> result (list Q)) :=
  [ ("amplitude", fun x => Ok (map (fun ep => mean (map ptp ep)) x));
    ("deviation", fun x => Ok (map mean (_deviation x)));
    ("variance", fun x => Ok (map (fun ep => mean (map var ep)) x)) ].

Definition _find_bad_epochs (epochs : Epochs) (picks : list nat)
    (use_metrics : option (list string)) (thresh : Q) (max_iter : nat)
    : result (dict (list nat)) :=
  let metrics := bad_epochs_metrics in
  let use_metrics := resolve_metrics metrics use_metrics in
  let info' := pick_info lib (info epochs) picks in
  data <- get_picked epochs picks ;;
  bads <- foldM (fun bads (grp : string * list nat) =>
            let chs := snd grp in
            foldM (fun bads metric =>
              f <- getitem metrics metric ;;
              sel <- mapM (fun ep => take_idx ep chs) data ;;
              scores <- f sel ;;
              let bad_epochs := find_outliers lib scores thresh max_iter in
              Ok (dd_append bads metric bad_epochs))
              use_metrics bads)
          (_picks_by_type lib info') [] ;;
  Ok (map (fun kv => (fst kv, concat (snd kv))) bads).

Definition bad_channels_in_epochs_metrics (epochs : Epochs)
  : dict (list (list (list Q)) -> result (list (list Q))) :=
  [ ("amplitude", fun x => Ok (map (map ptp) x));
    ("deviation", fun x => Ok (_deviation x));
    ("variance", fun x => Ok (map (map var) x));
    ("median_gradient", fun x => Ok (map (map (fun r => median (map Qabs (diff r)))) x));
    ("line_noise", fun x => _freqs_power x (sfreq (info epochs)) line_freqs) ].

(** A boolean array of shape (rows, columns). *)
Definition mask : Type := list (list bool).

(** [np.zeros((r, c), dtype=bool)] *)
Definition zeros (r c : nat) : mask := repeat (repeat false c) r.

Fixpoint set_nth {A} (i : nat) (v : A) (l : list A) : list A :=
  match l, i with
  | [], _ => []
  | _ :: l', O => v :: l'
  | a :: l', S i' => a :: set_nth i' v l'
  end.

(** [m[i, cols] = True]; an index outside the array raises. *)
Definition set_true (m : mask) (i : nat) (cols : list nat) : result mask :=
  match nth_error m i with
  | None => Err IndexError
  | Some row =>
      if forallb (fun c => (c <? length row)%nat) cols
      then Ok (set_nth i (fold_left (fun r c => set_nth c true r) cols row) m)
      else Err IndexError
  end.

Definition _find_bad_channels_in_epochs (epochs : Epochs) (picks : list nat)
    (use_metrics : option (list string)) (thresh : Q) (max_iter : nat)
    (eeg_ref_corr : bool) : result (dict mask) :=
  let metrics := bad_channels_in_epochs_metrics epochs in
  let use_metrics := resolve_metrics metrics use_metrics in
  let info' := pick_info lib (info epochs) picks in
  data <- get_picked epochs picks ;;
  let bads : dict mask :=
    map (fun m => (m, zeros (length data) (length picks))) (keys metrics) in
  foldM (fun bads (grp : string * list nat) =>
    let chs := snd grp in
    names <- take_idx (ch_names info') chs ;;
    foldM (fun bads metric =>
      f <- getitem metrics metric ;;
      sel <- mapM (fun ep => take_idx ep chs) data ;;
      s_epochs <- f sel ;;
      foldM (fun bads (ie : nat * list Q) =>
        let i_epochs := fst ie in
        scores <- (if eeg_ref_corr
                   then _distance_correction (info epochs) picks (snd ie)
                   else Ok (snd ie)) ;;
        let outliers := find_outliers lib scores thresh max_iter in
        if (0 <? length outliers)%nat then
          bad_segment <- take_idx names outliers ;;
          cols <- take_idx chs outliers ;;
          m <- getitem bads metric ;;
          m' <- set_true m i_epochs cols ;;
          Ok (setitem bads metric m')
        else Ok bads)
        (combine (seq 0 (length s_epochs)) s_epochs) bads)
      use_metrics bads)
    (_picks_by_type lib info') bads.

End Faster.

(* ===================================================================== *)
(** ** The outlier selector                                               *)
(* ===================================================================== *)

(** The scores at the indices of a subset. *)
Definition restrict (scores : list Q) (idx : list nat) : list Q :=
  map (fun i => nth i scores 0) idx.

Definition Qltb (a b : Q) : bool := negb (Qle_bool b a).

(** Whether a deviation [d] is more than [thresh] standard deviations, for a
    variance [v]: |d| > thresh * sqrt v.  For a threshold that is not
    negative this is [thresh^2 * v < d^2]; a negative threshold is exceeded
    unless deviation and variance both vanish.  Deciding it on the squares
    keeps the test within the rationals. *)
Definition exceeds (d thresh v : Q) : bool :=
  if Qle_bool 0 thresh
  then Qltb (sq thresh * v) (sq d)
  else negb (Qeq_bool d 0) || negb (Qeq_bool v 0).

Definition mem (i : nat) (l : list nat) : bool := existsb (Nat.eqb i) l.

(** The state of the selector: the working subset and the indices removed
    from it so far. *)
Record selector : Type := mkSelector {
  working : list nat;
  removed : list nat
}.

(** Indices of the full vector whose deviation from the mean of the working
    subset exceeds [thresh] standard deviations of the working subset. *)
Definition marked (scores : list Q) (thresh : Q) (st : selector) : list nat :=
  let sub := restrict scores (working st) in
  let m := mean sub in
  let v := var sub in
  filter (fun i => exceeds (nth i scores 0 - m) thresh v) (seq 0 (length scores)).

(** The marked indices that are still in the working subset. *)
Definition newly_marked (scores : list Q) (thresh : Q) (st : selector) : list nat :=
  filter (fun i => mem i (working st)) (marked scores thresh st).

(** One pass: the newly marked indices leave the working subset. *)
Definition pass (scores : list Q) (thresh : Q) (st : selector) : selector :=
  let new := newly_marked scores thresh st in
  {| working := filter (fun i => negb (mem i new)) (working st);
     removed := removed st ++ new |}.

(** At most [max_iter] passes, stopping at the first that marks nothing new. *)
Fixpoint passes (scores : list Q) (thresh : Q) (max_iter : nat) (st : selector)
  : selector :=
  match max_iter with
  | O => st
  | S k =>
      match newly_marked scores thresh st with
      | [] => st
      | _ :: _ => passes scores thresh k (pass scores thresh st)
      end
  end.

(** Modelled from the spec: [find_outliers] of [outliers.py], which
    [faster_.py] imports and which is not among the sources; this is the
    specification's Outlier Selector, [select_outliers(scores, thresh,
    max_iter)]. *)
Definition select_outliers (scores : list Q) (thresh : Q) (max_iter : nat)
  : list nat :=
  removed (passes scores thresh max_iter
             {| working := seq 0 (length scores); removed := [] |}).

(** The selector's invariant: working subset and removed indices are
    duplicate-free and share no index. *)
Definition selector_inv (st : selector) : Prop :=
  NoDup (working st) /\ NoDup (removed st) /\
  forall i, In i (removed st) -> ~ In i (working st).

(* ===================================================================== *)
(** ** bads.py                                                            *)
(* ===================================================================== *)

(** What an entry operation returns: the per-metric dictionary or the flat
    list, as [return_by_metric] selects. *)
Inductive bads_result (A : Type) : Type :=
| ByMetric (d : dict A)
| Flat (l : A).
Arguments ByMetric {A} d.
Arguments Flat {A} l.

Definition dquote : string := String (ascii_of_nat 34) EmptyString.

Definition msg_only_faster : string :=
  ("Come back later, for now there is only " ++ dquote ++ "FASTER" ++ dquote)%string.

Fixpoint dedup {A} (eqb : A -> A -> bool) (l : list A) : list A :=
  match l with
  | [] => []
  | a :: l' => a :: filter (fun b => negb (eqb a b)) (dedup eqb l')
  end.

(** [list(set(v for val in bads.values() if len(val) > 0 for v in val))];
    a set iterates in no fixed order, here first occurrences in order. *)
Definition _combine_indices {A} (eqb : A -> A -> bool) (bads : dict (list A))
  : list A :=
  dedup eqb (concat (filter (fun val => (0 <? length val)%nat) (values bads))).

(** [np.where(m)[0]] *)
Definition np_where (m : list bool) : list nat :=
  filter (fun k => nth k m false) (seq 0 (length m)).

Definition _bad_mask_to_names (info : Info) (bad_mask : mask)
  : result (list (list string)) :=
  let bad_idx := map np_where bad_mask in
  mapM (fun epoch => take_idx (ch_names info) epoch) bad_idx.

(** A boolean array read as integers, as a sum does. *)
Definition counts_of (m : mask) : list (list nat) :=
  map (map (fun b : bool => if b then 1%nat else O)) m.

(** [np.sum(masks, axis=0)]: how many masks are set at each cell. *)
Definition sum_masks (l : list mask) : list (list nat) :=
  match map counts_of l with
  | [] => []
  | c :: l' => fold_left (map2 (map2 Nat.add)) l' c
  end.

(** [.astype(bool)] *)
Definition astype_bool (c : list (list nat)) : mask :=
  map (map (fun n => negb (n =? 0)%nat)) c.

Section Bads.

Context {P : Type}.
Variable lib : Externals P.

Definition find_bad_channels (epochs : Epochs) (picks : option (list nat))
    (method : string) (method_params : option P) (return_by_metric : bool)
    : result (bads_result (list string)) :=
  let picks := match picks with
               | None => pick_types lib (info epochs) false
               | Some p => p
               end in
  _method_params <- _handle_default lib ("bad_channels" ++ "_" ++ method)%string
                                    method_params ;;
  bads <- (if String.eqb method "faster"
           then match kw_eeg_ref_corr _method_params with
                | Some corr =>
                    _find_bad_channels lib epochs picks
                      (kw_use_metrics _method_params) (kw_thresh _method_params)
                      (kw_max_iter _method_params) corr
                | None => Err (TypeError "missing argument eeg_ref_corr")
                end
           else Err (NotImplementedError msg_only_faster)) ;;
  if return_by_metric
  then Ok (ByMetric bads)
  else Ok (Flat (_combine_indices String.eqb bads)).

Definition find_bad_epochs (epochs : Epochs) (picks : option (list nat))
    (return_by_metric : bool) (method : string) (method_params : option P)
    : result (bads_result (list nat)) :=
  let picks := match picks with
               | None => pick_types lib (info epochs) true
               | Some p => p
               end in
  _method_params <- _handle_default lib ("bad_epochs" ++ "_" ++ method)%string
                                    method_params ;;
  bads <- (if String.eqb method "faster"
           then match kw_eeg_ref_corr _method_params with
                | None =>
                    _find_bad_epochs lib epochs picks
                      (kw_use_metrics _method_params) (kw_thresh _method_params)
                      (kw_max_iter _method_params)
                | Some _ => Err (TypeError "unexpected argument eeg_ref_corr")
                end
           else Err (NotImplementedError msg_only_faster)) ;;
  if return_by_metric
  then Ok (ByMetric bads)
  else Ok (Flat (_combine_indices Nat.eqb bads)).

Definition find_bad_channels_in_epochs (epochs : Epochs) (picks : option (list nat))
    (method : string) (method_params : option P) (return_by_metric : bool)
    : result (bads_result (list (list string))) :=
  let picks := match picks with
               | None => pick_types lib (info epochs) false
               | Some p => p
               end in
  _method_params <- _handle_default lib
                      ("bad_channels_in_epochs" ++ "_" ++ method)%string
                      method_params ;;
  bads <- (if String.eqb method "faster"
           then match kw_eeg_ref_corr _method_params with
                | Some corr =>
                    _find_bad_channels_in_epochs lib epochs picks
                      (kw_use_metrics _method_params) (kw_thresh _method_params)
                      (kw_max_iter _method_params) corr
                | None => Err (TypeError "missing argument eeg_ref_corr")
                end
           else Err (NotImplementedError msg_only_faster)) ;;
  let info' := pick_info lib (info epochs) picks in
  if return_by_metric
  then
    named <- mapM (fun mv => names <- _bad_mask_to_names info' (snd mv) ;;
                             Ok (fst mv, names)) bads ;;
    Ok (ByMetric named)
  else
    let combined := astype_bool (sum_masks (values bads)) in
    names <- _bad_mask_to_names info' combined ;;
    Ok (Flat names).

End Bads.

(* ===================================================================== *)
(** ** The properties the specification states                            *)
(* ===================================================================== *)

(** Sensor position and reference position of a channel, the two location
    fields of its metadata. *)
Definition sensor_pos (c : ch_info) : list Q := firstn 3 (loc c).
Definition reference_pos (c : ch_info) : list Q := firstn 3 (skipn 3 (loc c)).

(** The metadata of the selected channels, in the order of [picks]. *)
Definition picked_chs (info : Info) (picks : list nat) : list ch_info :=
  flat_map (fun ch => match nth_error (chs info) ch with
                      | Some c => [c]
                      | None => []
                      end) picks.

(** Every selected index names a channel. *)
Definition picks_valid (info : Info) (picks : list nat) : Prop :=
  Forall (fun ch => (ch < length (chs info))%nat) picks.

(** A position scaled to unit length, and the angular distance of a channel:
    the arccosine of the dot product of its unit sensor position and its
    unit reference position. *)
Definition unit_vector {P} (lib : Externals P) (v : list Q) : list Q :=
  map (fun c => c / norm lib v) v.

Definition angular_distance {P} (lib : Externals P) (c : ch_info) : Q :=
  np_arccos lib (dot (unit_vector lib (sensor_pos c))
                     (unit_vector lib (reference_pos c))).

(** Sum of squared residuals of the scores [ys] about a curve with
    coefficients [coeffs] at the abscissae [xs]; a least-squares quadratic is
    one no other quadratic improves on. *)
Definition sse (coeffs xs ys : list Q) : Q :=
  Qsum (map sq (map2 Qminus ys (polyval coeffs xs))).

Definition least_squares_quadratic (xs ys coeffs : list Q) : Prop :=
  length coeffs = 3%nat /\
  forall other, length other = 3%nat -> sse coeffs xs ys <= sse other xs ys.

(** Whether the frequency axis [fs] reaches the frequency [f]: some bin
    lies at or above it. *)
Definition reaches (fs : list Q) (f : Z) : bool :=
  existsb (fun g => Qle_bool (inject_Z f) g) fs.

(** An array of shape (n_rows, n_cols). *)
Definition has_shape {A} (n_rows n_cols : nat) (m : list (list A)) : Prop :=
  length m = n_rows /\ Forall (fun row => length row = n_cols) m.

(** The metrics of the bad-channels-in-epochs level, in the order of the
    table. *)
Definition bad_channels_in_epochs_catalog : list string :=
  ["amplitude"; "deviation"; "variance"; "median_gradient"; "line_noise"].

(** What holds of the per-metric masks throughout the scoring loops: the
    keys are the catalog, every mask has the shape (n_epochs, n_picks), and
    the mask of a metric that is not requested is all False. *)
Definition masks_inv (n_epochs n_picks : nat) (requested : list string)
    (bads : dict mask) : Prop :=
  keys bads = bad_channels_in_epochs_catalog /\
  forall k v, In (k, v) bads ->
    has_shape n_epochs n_picks v /\
    (~ In k requested -> v = zeros n_epochs n_picks).

(** The Hurst estimate as the specification words it: of each filter output
    only the initial samples, which carry the filter artifacts, are
    dropped. *)
Definition hurst_initial_dropped {P} (lib : Externals P) (x : list (list Q))
  : list Q :=
  map (fun ch =>
         let y := cumsum (diff ch) in
         let y1 := skipn (length b1 - 1) (lfilter b1 y) in
         let y2 := skipn (length b2 - 1) (lfilter b2 y) in
         (1 # 2) * np_log2 lib (mean (map sq y2) / mean (map sq y1))) x.

(** The segment length the specification describes: the largest power of two
    that does not exceed [q]. *)
Definition is_pow2 (p : Z) : Prop := exists k : Z, (0 <= k)%Z /\ p = (2 ^ k)%Z.

Definition largest_pow2_not_exceeding (q : Q) (p : Z) : Prop :=
  is_pow2 p /\ inject_Z p <= q /\
  forall p', is_pow2 p' -> inject_Z p' <= q -> (p' <= p)%Z.

(** The segment length the code uses: the smallest power of two strictly
    above [q]. *)
Definition smallest_pow2_above (q : Q) (p : Z) : Prop :=
  is_pow2 p /\ q < inject_Z p /\
  forall p', is_pow2 p' -> q < inject_Z p' -> (p <= p')%Z.

(** The float evaluation of [int(np.log2(10 * sfreq) + 1)] is exact at the
    integer [k]: the window [10 * sfreq] lies between [2^k] and [2^(k+1)]
    and the evaluation gives [k + 1], so rounding has not carried the
    logarithm across an integer. *)
Definition exponent_exact {P} (lib : Externals P) (sfreq : Q) (k : Z) : Prop :=
  2 ^ k <= 10 * sfreq /\ 10 * sfreq < 2 ^ (k + 1) /\
  int_of_float (float_round lib (np_log2 lib (float_round lib (10 * sfreq)) + 1))
    = (k + 1)%Z.

(* ===================================================================== *)
(** ** A reference instance of the collaborators                          *)
(* ===================================================================== *)

(** The defaults of [defaults.py] for the three FASTER routines. *)
Definition default_kwargs (with_ref_corr : bool) : kwargs :=
  {| kw_use_metrics := None;
     kw_thresh := 3;
     kw_max_iter := 1;
     kw_eeg_ref_corr := if with_ref_corr then Some false else None |}.

Definition ref_handle_default (k : string) (v : option kwargs) : result kwargs :=
  let known := [ ("bad_channels_faster", default_kwargs true);
                 ("bad_epochs_faster", default_kwargs false);
                 ("bad_channels_in_epochs_faster", default_kwargs true) ] in
  dflt <- getitem known k ;;
  match v with
  | None => Ok dflt
  | Some kw => Ok kw
  end.

(** The frequency axis of a one-sided spectrum: [k * fs / n] for
    [k = 0 .. n / 2], where [n] is the segment length as an integer; empty
    for a block without samples, whose segment length is 0. *)
Definition ref_welch_freqs (fs : Q) (nperseg : Q) : list Q :=
  let n := Qfloor nperseg in
  if (n <? 1)%Z then []
  else map (fun k => Qred (inject_Z (Z.of_nat k) * fs / inject_Z n))
           (seq 0 (S (Z.to_nat (n / 2)))).

(** Welch's method returns empty arrays for a block without samples and
    refuses a segment length below 1. *)
Definition ref_welch_error (fs nperseg : Q) (noverlap : Z) (n_samples : nat)
  : option exn :=
  if (n_samples =? 0)%nat then None
  else if (Qfloor nperseg <? 1)%Z
       then Some (ValueError "nperseg must be a positive integer")
       else None.

(** The integer [e] with [2^e <= q < 2^(e+1)], for a positive [q]. *)
Definition Qlog2_floor (q : Q) : Z :=
  let e := (Z.log2 (Qnum q) - Z.log2 (Z.pos (Qden q)))%Z in
  if Qle_bool (2 ^ e) q then e else (e - 1)%Z.

(** Rounding to the nearest integer, a tie to the even one. *)
Definition round_half_even (q : Q) : Z :=
  let f := Qfloor q in
  match Qcompare (q - inject_Z f) (1 # 2) with
  | Lt => f
  | Gt => (f + 1)%Z
  | Eq => if Z.even f then f else (f + 1)%Z
  end.

(** The nearest number with a mantissa of 53 bits, a tie to the even
    mantissa: the float64 nearest to [q], the range of the exponent
    aside. *)
Definition ref_float_round (q : Q) : Q :=
  if Qeq_bool q 0 then 0
  else
    let a := Qabs q in
    let e := Qlog2_floor a in
    let m := round_half_even (a * 2 ^ (52 - e)) in
    let r := Qred (inject_Z m * 2 ^ (e - 52)) in
    if Qle_bool 0 q then r else Qred (- r).

(** [n] binary digits of the logarithm of a mantissa [m / 2^p] in [1, 2):
    the mantissa is squared, at a precision of [p] bits, and halved whenever
    the square reaches 2. *)
Fixpoint log2_digits (n : nat) (p : Z) (m : Z) (acc : Z) : Z :=
  match n with
  | O => acc
  | S n' =>
      let m2 := (m * m / 2 ^ p)%Z in
      if (2 ^ (p + 1) <=? m2)%Z
      then log2_digits n' p (m2 / 2) (2 * acc + 1)
      else log2_digits n' p m2 (2 * acc)
  end.

(** The binary logarithm of a positive rational to 80 binary digits,
    rounded to a float. *)
Definition ref_log2 (q : Q) : Q :=
  let q := Qred q in
  if Qle_bool q 0 then 0
  else
    let e := Qlog2_floor q in
    let m := Qfloor (q * 2 ^ (200 - e)) in
    ref_float_round (inject_Z e + inject_Z (log2_digits 80 200 m 0) / 2 ^ 80).

Definition det3 (a b c d e f g h i : Q) : Q :=
  a * (e * i - f * h) - b * (d * i - f * g) + c * (d * h - e * g).

(** Sums of powers of the abscissae, alone and weighted by the ordinates. *)
Definition power_sum (k : nat) (xs : list Q) : Q :=
  Qsum (map (fun x => x ^ Z.of_nat k) xs).

Definition moment_sum (k : nat) (xs ys : list Q) : Q :=
  Qsum (map2 (fun x y => x ^ Z.of_nat k * y) xs ys).

(** The solution of the normal equations of a quadratic fit, by Cramer's
    rule, for a determinant [d] that is not zero. *)
Definition normal_equations_solution (xs ys : list Q) : list Q :=
  let s0 := power_sum 0 xs in
  let s1 := power_sum 1 xs in
  let s2 := power_sum 2 xs in
  let s3 := power_sum 3 xs in
  let s4 := power_sum 4 xs in
  let t0 := moment_sum 0 xs ys in
  let t1 := moment_sum 1 xs ys in
  let t2 := moment_sum 2 xs ys in
  let d := det3 s4 s3 s2 s3 s2 s1 s2 s1 s0 in
  [ det3 t2 s3 s2 t1 s2 s1 t0 s1 s0 / d;
    det3 s4 t2 s2 s3 t1 s1 s2 t0 s0 / d;
    det3 s4 s3 t2 s3 s2 t1 s2 s1 t0 / d ].

(** The mean of the ordinates at the abscissa [a]. *)
Definition mean_at (a : Q) (xs ys : list Q) : Q :=
  mean (map snd (filter (fun xy => Qeq_bool (fst xy) a) (combine xs ys))).

(** [np.polyfit(xs, ys, 2)] in exact arithmetic.  With three distinct
    abscissae the fit is the solution of the normal equations.  With fewer
    the least-squares fit is not unique and numpy returns the one of least
    norm after scaling every power of the abscissae to unit length; with
    all abscissae zero that scaling divides by zero, and the solver does
    not converge. *)
Definition ref_polyfit (xs ys : list Q) (deg : nat) : result (list Q) :=
  if negb (length xs =? length ys)%nat then Err (TypeError msg_polyfit_length)
  else
    match deg with
    | 2%nat =>
        match dedup Qeq_bool xs with
        | [] => Err (TypeError "expected non-empty vector for x")
        | [a] =>
            if Qeq_bool a 0
            then Err (LinAlgError "SVD did not converge in Linear Least Squares")
            else let y := mean ys in
                 Ok (map Qred [y / (3 * a * a); y / (3 * a); y / 3])
        | [a; b] =>
            let l1 := (mean_at b xs ys - mean_at a xs ys) / (b - a) in
            let l0 := mean_at a xs ys - l1 * a in
            let w0 := power_sum 0 xs in
            let w1 := power_sum 2 xs in
            let w2 := power_sum 4 xs in
            let mu := (w1 * (a + b) * l1 - w0 * (a * b) * l0)
                      / (w2 + w1 * (a + b) * (a + b) + w0 * (a * b) * (a * b)) in
            Ok (map Qred [mu; l1 - mu * (a + b); l0 + mu * (a * b)])
        | _ => Ok (map Qred (normal_equations_solution xs ys))
        end
    | _ => Err (NotImplementedError "only the quadratic fit is provided")
    end.

(** An instance that computes: every channel is of one type, the selector
    is [select_outliers], rounding and the binary logarithm are computed,
    the fit is exact, and square root, arccosine and Welch's estimate are
    replaced by rational stand-ins of the right shape. *)
Definition ref_lib : Externals kwargs :=
  {| float_round := ref_float_round;
     welch_error := ref_welch_error;
     welch_freqs := ref_welch_freqs;
     welch_power := fun fs nperseg _ x =>
                      if (Qfloor nperseg <? 1)%Z then []
                      else map (fun k => var x + inject_Z (Z.of_nat k))
                               (seq 0 (S (Z.to_nat (Qfloor nperseg / 2))));
     np_log2 := ref_log2;
     np_sqrt := fun q => q;
     np_arccos := fun q => 1 - q;
     np_polyfit := ref_polyfit;
     pick_info := fun i picks =>
                    {| chs := map (fun k => nth k (chs i) (mkCh "" "" [])) picks;
                       sfreq := sfreq i |};
     _picks_by_type := fun i => [("eeg", seq 0 (length (chs i)))];
     pick_types := fun i _ => seq 0 (length (chs i));
     find_outliers := select_outliers;
     _handle_default := ref_handle_default |}.

(** Epochs of two epochs, three channels and four samples. *)
Definition small_epochs : Epochs :=
  {| info := {| chs := [ mkCh "Fz" "eeg" [1; 0; 0; 0; 1; 0];
                         mkCh "Cz" "eeg" [0; 1; 0; 0; 1; 0];
                         mkCh "Pz" "eeg" [0; 0; 1; 0; 1; 0] ];
                sfreq := 100 |};
     get_data := [ [ [0; 1; 0; 1]; [0; 2; 0; 2]; [1; 1; 1; 1] ];
                   [ [0; 1; 2; 3]; [3; 2; 1; 0]; [0; 0; 0; 9] ] ] |}.

(** A block of two channels and three samples. *)
Definition small_block : list (list Q) := [[1; 2; 3]; [0; 1; 0]].

(** One channel of eight samples. *)
Definition hurst_input : list (list Q) := [[0; 1; 0; 2; 0; 3; 1; 5]].

(** Channel metadata in which the second channel has no reference
    position. *)
Definition info_without_reference : Info :=
  {| chs := [ mkCh "Fz" "eeg" [1; 0; 0; 0; 1; 0];
              mkCh "Cz" "eeg" [0; 1; 0; 0; 0; 0] ];
     sfreq := 100 |}.

(** The part of a power spectrum [r] between the bins that
    [np.searchsorted] gives for the limits [lo] and [hi]:
    [r[start:stop]]. *)
Definition spectrum_band (fs : list Q) (lo hi : Z) (r : list Q) : list Q :=
  firstn (searchsorted fs (inject_Z hi) - searchsorted fs (inject_Z lo))
         (skipn (searchsorted fs (inject_Z lo)) r).

(** The metrics of the bad-channels level and of the bad-epochs level, in
    the order of their tables. *)
Definition bad_channels_catalog : list string :=
  ["variance"; "correlation"; "hurst"; "kurtosis"; "line_noise"].

Definition bad_epochs_catalog : list string :=
  ["amplitude"; "deviation"; "variance"].

(** Every selected index is a channel of every epoch. *)
Definition picks_in_data (epochs : Epochs) (picks : list nat) : Prop :=
  forall ep p, In ep (get_data epochs) -> In p picks -> (p < length ep)%nat.

(** The reference instance with a recording that has no channel of any
    type. *)
Definition ref_lib_no_groups : Externals kwargs :=
  {| float_round := float_round ref_lib;
     welch_error := welch_error ref_lib;
     welch_freqs := welch_freqs ref_lib;
     welch_power := welch_power ref_lib;
     np_log2 := np_log2 ref_lib;
     np_sqrt := np_sqrt ref_lib;
     np_arccos := np_arccos ref_lib;
     np_polyfit := np_polyfit ref_lib;
     pick_info := pick_info ref_lib;
     _picks_by_type := fun _ => [];
     pick_types := pick_types ref_lib;
     find_outliers := find_outliers ref_lib;
     _handle_default := _handle_default ref_lib |}.

(** The per-metric lists before they are concatenated: every key was
    requested and every listed item is [good]. *)
Definition reports_only {V} (requested : list string) (good : V -> Prop)
    (bads : dict (list (list V))) : Prop :=
  forall m lists, In (m, lists) bads ->
    In m requested /\ forall l, In l lists -> forall x, In x l -> good x.

(** One epoch of the two channels of [info_without_reference]. *)
Definition epochs_without_reference : Epochs :=
  {| info := info_without_reference;
     get_data := [ [ [0; 1; 0; 1]; [0; 2; 0; 2] ] ] |}.

(** Four channels at four different angular distances from the reference,
    and three channels that sit on their reference. *)
Definition spread_info : Info :=
  {| chs := [ mkCh "Fz" "eeg" [1; 0; 0; 1; 0; 0];
              mkCh "Cz" "eeg" [1; 0; 0; 0; 1; 0];
              mkCh "Pz" "eeg" [1; 0; 0; 3 # 5; 4 # 5; 0];
              mkCh "Oz" "eeg" [1; 0; 0; 4 # 5; 3 # 5; 0] ];
     sfreq := 100 |}.

Definition coincident_info : Info :=
  {| chs := [ mkCh "Fz" "eeg" [1; 0; 0; 1; 0; 0];
              mkCh "Cz" "eeg" [0; 1; 0; 0; 1; 0];
              mkCh "Pz" "eeg" [0; 0; 1; 0; 0; 1] ];
     sfreq := 100 |}.

(** The recording of [small_epochs] sampled at 200 Hz, where Welch's
    estimate of four samples has bins at 0, 50 and 100 Hz. *)
Definition fast_epochs : Epochs :=
  {| info := {| chs := chs (info small_epochs); sfreq := 200 |};
     get_data := get_data small_epochs |}.

(** The list a [defaultdict(list)] holds under a key. *)
Definition entries {V} (d : dict (list V)) (k : string) : list V :=
  match dict_get d k with
  | Some l => l
  | None => []
  end.

Section Passes.

Context {P : Type}.
Variable lib : Externals P.

(** One pass of the loop of [_find_bad_channels]: the names of the channels
    of the group [chs] that a metric marks on the concatenated [data]. *)
Definition channels_marked_by (epochs : Epochs) (picks : list nat)
    (data : list (list Q)) (thresh : Q) (max_iter : nat) (eeg_ref_corr : bool)
    (chs : list nat) (metric : string) : result (list string) :=
  f <- getitem (bad_channels_metrics lib epochs) metric ;;
  rows <- take_idx data chs ;;
  scores <- f rows ;;
  scores <- (if eeg_ref_corr
             then correct_scores lib (info epochs) picks scores
             else Ok scores) ;;
  outliers <- outliers_of lib scores thresh max_iter ;;
  mapM (fun i => c <- getidx chs i ;;
                 p <- getidx picks c ;;
                 getidx (ch_names (info epochs)) p)
       outliers.

(** One pass of the loop of [_find_bad_epochs]: the epochs that a metric
    marks on the channels of the group [chs]. *)
Definition epochs_marked_by (data : list (list (list Q))) (thresh : Q)
    (max_iter : nat) (chs : list nat) (metric : string) : result (list nat) :=
  f <- getitem bad_epochs_metrics metric ;;
  sel <- mapM (fun ep => take_idx ep chs) data ;;
  scores <- f sel ;;
  Ok (find_outliers lib scores thresh max_iter).

(** The innermost loop of [_find_bad_channels_in_epochs] on the mask of the
    metric it scores: in every epoch the columns of the outliers are set. *)
Definition flag_epochs (epochs : Epochs) (picks : list nat) (thresh : Q)
    (max_iter : nat) (eeg_ref_corr : bool) (names : list string) (chs : list nat)
    (s_epochs : list (list Q)) (m : mask) : result mask :=
  foldM (fun m (ie : nat * list Q) =>
    scores <- (if eeg_ref_corr
               then _distance_correction lib (info epochs) picks (snd ie)
               else Ok (snd ie)) ;;
    let outliers := find_outliers lib scores thresh max_iter in
    if (0 <? length outliers)%nat then
      bad_segment <- take_idx names outliers ;;
      cols <- take_idx chs outliers ;;
      set_true m (fst ie) cols
    else Ok m)
    (combine (seq 0 (length s_epochs)) s_epochs) m.

(** One pass of the metric loop of [_find_bad_channels_in_epochs] for a
    channel group, on the mask of the metric. *)
Definition flag_group (epochs : Epochs) (picks : list nat)
    (data : list (list (list Q))) (thresh : Q) (max_iter : nat)
    (eeg_ref_corr : bool) (chs : list nat) (metric : string) (m : mask)
    : result mask :=
  names <- take_idx (ch_names (pick_info lib (info epochs) picks)) chs ;;
  f <- getitem (bad_channels_in_epochs_metrics lib epochs) metric ;;
  sel <- mapM (fun ep => take_idx ep chs) data ;;
  s_epochs <- f sel ;;
  flag_epochs epochs picks thresh max_iter eeg_ref_corr names chs s_epochs m.

End Passes.

(** The cell of a mask at an epoch and a column; False outside the mask. *)
Definition cell (v : mask) (e k : nat) : bool := nth k (nth e v []) false.

(** Every True cell of every mask lies at a column of [columns]. *)
Definition flags_within (columns : nat -> Prop) (bads : dict mask) : Prop :=
  forall m v e k, In (m, v) bads -> cell v e k = true -> columns k.

(** The entry of an integer array at a row and a column; 0 outside. *)
Definition count_at (c : list (list nat)) (e k : nat) : nat := nth k (nth e c []) O.

(* ===================================================================== *)
(** ** Theorems: spectral estimator                                       *)
(* ===================================================================== *)

Lemma pow2_lt_inv (a b : Z) : (0 <= a)%Z -> (0 <= b)%Z -> (2 ^ a < 2 ^ b)%Z -> (a < b)%Z.
Proof. intros Ha Hb H. apply (Z.pow_lt_mono_r_iff 2); lia. Qed.

Lemma inject_Z_pow2 (e : Z) : (0 <= e)%Z -> inject_Z (2 ^ e) == 2 ^ e.
Proof. intros He. exact (Zpower_Qpower 2 e He). Qed.

(** Between two consecutive powers of two the upper one is the smallest
    power of two above. *)
Lemma next_pow2_is_smallest_above (q : Q) (k : Z) :
  (-1 <= k)%Z -> 2 ^ k <= q -> q < 2 ^ (k + 1) ->
  smallest_pow2_above q (2 ^ (k + 1))%Z.
Proof.
  intros Hk Hlo Hhi.
  split; [|split].
  - exists (k + 1)%Z. split; [lia|reflexivity].
  - rewrite inject_Z_pow2 by lia. exact Hhi.
  - intros p' [k' [Hk' ->]] Hq.
    rewrite inject_Z_pow2 in Hq by exact Hk'.
    assert (Hlt : 2 ^ k < 2 ^ k') by (eapply Qle_lt_trans; eassumption).
    apply Qpower_lt_compat_l_inv in Hlt; [|reflexivity].
    apply Z.pow_le_mono_r; lia.
Qed.

(** [int] of a float that is not negative is its integer part. *)
Lemma int_of_float_between (v : Q) (z : Z) :
  (0 <= z)%Z -> inject_Z z <= v -> v < inject_Z z + 1 -> int_of_float v = z.
Proof.
  intros Hz Hlo Hhi. unfold int_of_float.
  assert (H0 : Qle_bool 0 v = true).
  { apply Qle_bool_iff. apply Qle_trans with (inject_Z z); [|exact Hlo].
    change 0 with (inject_Z 0). rewrite <- Zle_Qle. exact Hz. }
  rewrite H0.
  assert (H1 : (z <= Qfloor v)%Z).
  { rewrite <- (Qfloor_Z z). apply Qfloor_resp_le. exact Hlo. }
  assert (H2 : (Qfloor v < z + 1)%Z).
  { rewrite Zlt_Qlt. apply Qle_lt_trans with v; [apply Qfloor_le|].
    rewrite inject_Z_plus. exact Hhi. }
  lia.
Qed.

(** The evaluation is exact whenever the rounded sum [np.log2(...) + 1]
    still lies between [k + 1] and [k + 2]. *)
Lemma exponent_exact_intro {P} (lib : Externals P) (sfreq0 : Q) (k : Z) :
  (-1 <= k)%Z ->
  2 ^ k <= 10 * sfreq0 -> 10 * sfreq0 < 2 ^ (k + 1) ->
  inject_Z (k + 1) <=
    float_round lib (np_log2 lib (float_round lib (10 * sfreq0)) + 1) ->
  float_round lib (np_log2 lib (float_round lib (10 * sfreq0)) + 1) <
    inject_Z (k + 1) + 1 ->
  exponent_exact lib sfreq0 k.
Proof.
  intros Hk Hlo Hhi H1 H2. split; [exact Hlo|]. split; [exact Hhi|].
  apply int_of_float_between; [lia|exact H1|exact H2].
Qed.

Lemma welch_nperseg_positive {P} (lib : Externals P) (n : nat) (sfreq0 : Q) :
  0 < float_round lib (10 * sfreq0) ->
  welch_nperseg lib n sfreq0 =
    Ok (Qmin (inject_Z (Z.of_nat n))
             (2 ^ int_of_float
                    (float_round lib (np_log2 lib (float_round lib (10 * sfreq0)) + 1)))).
Proof.
  intros H. unfold welch_nperseg. cbv zeta.
  apply Qgt_alt in H. rewrite H. reflexivity.
Qed.

(** The three outcomes of the segment length, by the sign of the rounded
    window. *)
Lemma welch_nperseg_outcome {P} (lib : Externals P) (n : nat) (sfreq0 : Q) :
  (float_round lib (10 * sfreq0) < 0 /\
   welch_nperseg lib n sfreq0 = Err (ValueError msg_nan_to_int)) \/
  (float_round lib (10 * sfreq0) == 0 /\
   welch_nperseg lib n sfreq0 = Err (OverflowError msg_inf_to_int)) \/
  (0 < float_round lib (10 * sfreq0) /\
   welch_nperseg lib n sfreq0 =
     Ok (Qmin (inject_Z (Z.of_nat n))
              (2 ^ int_of_float
                     (float_round lib (np_log2 lib (float_round lib (10 * sfreq0)) + 1))))).
Proof.
  unfold welch_nperseg. cbv zeta.
  destruct (Qcompare (float_round lib (10 * sfreq0)) 0) eqn:E.
  - right. left. split; [apply Qeq_alt; exact E|reflexivity].
  - left. split; [apply Qlt_alt; exact E|reflexivity].
  - right. right. split; [apply Qgt_alt; exact E|reflexivity].
Qed.

(** The estimator is a call of Welch's method or raises one of the two
    conversion errors. *)
Lemma efficient_welch_outcome {P B S} `{NdBlock B S} (lib : Externals P)
      (data : B) (sfreq0 : Q) :
  (exists nperseg, _efficient_welch lib data sfreq0 =
                     welch lib data sfreq0 nperseg 0%Z) \/
  _efficient_welch lib data sfreq0 = Err (ValueError msg_nan_to_int) \/
  _efficient_welch lib data sfreq0 = Err (OverflowError msg_inf_to_int).
Proof.
  unfold _efficient_welch.
  destruct (welch_nperseg_outcome lib (shape_last data) sfreq0)
    as [[_ ->]|[[_ ->]|[_ ->]]]; cbn [bind].
  - right. left. reflexivity.
  - right. right. reflexivity.
  - left. eexists. reflexivity.
Qed.

(** C1 (as the code has it).  For a sample rate whose 10-second window of
    [10 * sfreq] samples lies between [2^k] and [2^(k+1)], with [k] at
    least -1, and for which the float evaluation of
    [int(np.log2(10 * sfreq) + 1)] gives [k + 1], the estimator calls Welch's
    method with no overlap between segments and a segment length that is
    the smallest power of two strictly above the window (the "next power of
    2"), clamped to the number of samples of the block. *)
Theorem efficient_welch_segment_length :
  forall (P B S : Type) (blk : NdBlock B S) (lib : Externals P) (data : B) (sfreq : Q)
         (k : Z),
    0 < float_round lib (10 * sfreq) ->
    (-1 <= k)%Z ->
    exponent_exact lib sfreq k ->
    exists p : Z,
      smallest_pow2_above (10 * sfreq) p /\
      inject_Z p == 2 ^ (k + 1) /\
      _efficient_welch lib data sfreq =
        welch lib data sfreq
              (Qmin (inject_Z (Z.of_nat (shape_last data))) (2 ^ (k + 1))) 0%Z.
Proof.
  intros P B S blk lib data sfreq k Hpos Hk [Hlo [Hhi He]].
  exists (2 ^ (k + 1))%Z.
  split; [apply next_pow2_is_smallest_above; assumption|].
  split; [apply inject_Z_pow2; lia|].
  unfold _efficient_welch. rewrite (welch_nperseg_positive lib _ _ Hpos), He.
  reflexivity.
Qed.

Lemma efficient_welch_segment_length_witness :
  exists p : Z,
    smallest_pow2_above (10 * 100) p /\
    inject_Z p == 2 ^ (9 + 1) /\
    _efficient_welch ref_lib small_block 100 =
      welch ref_lib small_block 100
            (Qmin (inject_Z (Z.of_nat (shape_last small_block))) (2 ^ (9 + 1))) 0%Z.
Proof.
  apply (efficient_welch_segment_length _ _ _ block2 ref_lib small_block 100 9).
  - vm_compute. reflexivity.
  - lia.
  - split; [|split].
    + vm_compute. discriminate.
    + vm_compute. reflexivity.
    + vm_compute. reflexivity.
Defined.

(** C1 (as the specification words it) fails: at 100 Hz the 10-second window
    has 1000 samples, the largest power of two not exceeding it is 512, and
    the estimator uses segments of 1024 samples. *)
Lemma efficient_welch_not_largest_pow2_below :
  largest_pow2_not_exceeding (10 * 100) 512 /\
  welch_nperseg ref_lib 2000 100 = Ok 1024 /\
  welch_nperseg ref_lib 2000 100 <> Ok (Qmin (inject_Z (Z.of_nat 2000)) 512).
Proof.
  split; [|split].
  - split; [|split].
    + exists 9%Z. split; [lia|reflexivity].
    + vm_compute. discriminate.
    + intros p' [k [Hk ->]] Hle.
      assert (Hz : (2 ^ k <= 1000)%Z).
      { rewrite Zle_Qle. eapply Qle_trans; [exact Hle|]. vm_compute. discriminate. }
      destruct (Z_lt_le_dec k 10) as [Hlt|Hge].
      * change 512%Z with (2 ^ 9)%Z. apply Z.pow_le_mono_r; lia.
      * assert (Hbig : (2 ^ 10 <= 2 ^ k)%Z) by (apply Z.pow_le_mono_r; lia).
        change (2 ^ 10)%Z with 1024%Z in Hbig. lia.
  - vm_compute. reflexivity.
  - vm_compute. discriminate.
Qed.

(** Where rounding decides.  At the float just below 102.4 Hz the window is
    a little less than 1024 samples; its logarithm rounds to 10.0 and the
    segment length is 2048, not the next power of two 1024.  At the float
    just below 0.2 Hz the sum [np.log2(10 * sfreq) + 1] rounds to 2.0 and the
    segment length is 4.  At 0.025 Hz and below the exponent is negative
    and the segment length a fraction. *)
Example efficient_welch_rounding :
  10 * (7205759403792793 # 70368744177664) < 1024 /\
  welch_nperseg ref_lib 5000 (7205759403792793 # 70368744177664) = Ok 2048 /\
  10 * (7205759403792793 # 36028797018963968) < 2 /\
  welch_nperseg ref_lib 5000 (7205759403792793 # 36028797018963968) = Ok 4 /\
  welch_nperseg ref_lib 5000 (1 # 50) = Ok (1 # 2).
Proof. vm_compute. repeat split; reflexivity. Qed.

(** A segment length that is a fraction is handed to Welch's method, which
    refuses it. *)
Example efficient_welch_fraction_refused :
  _efficient_welch ref_lib small_block (1 # 50) =
    Err (ValueError "nperseg must be a positive integer").
Proof. vm_compute. reflexivity. Qed.

(* ===================================================================== *)
(** ** Theorems: the outlier selector                                     *)
(* ===================================================================== *)

Lemma mem_In (i : nat) (l : list nat) : mem i l = true <-> In i l.
Proof.
  unfold mem. rewrite existsb_exists. split.
  - intros [x [Hx He]]. apply Nat.eqb_eq in He. subst. exact Hx.
  - intros H. exists i. split; [exact H|apply Nat.eqb_refl].
Qed.

Lemma filter_not_mem_nil (l : list nat) :
  filter (fun i => negb (mem i [])) l = l.
Proof. induction l as [|a l IH]; simpl; [reflexivity|]. f_equal. exact IH. Qed.

(** A pass that marks nothing new leaves the state as it is, so stopping
    there and running on are the same. *)
Lemma pass_fixed (scores : list Q) (thresh : Q) (st : selector) :
  newly_marked scores thresh st = [] -> pass scores thresh st = st.
Proof.
  intros H. unfold pass. cbv zeta. rewrite H, filter_not_mem_nil, app_nil_r.
  destruct st; reflexivity.
Qed.

(** One more allowed iteration is one more pass on the state reached. *)
Lemma passes_succ (scores : list Q) (thresh : Q) (k : nat) :
  forall st, passes scores thresh (S k) st =
             pass scores thresh (passes scores thresh k st).
Proof.
  induction k as [|k IH]; intros st.
  - simpl. destruct (newly_marked scores thresh st) eqn:E.
    + symmetry. apply pass_fixed. exact E.
    + reflexivity.
  - change (passes scores thresh (S (S k)) st) with
      (match newly_marked scores thresh st with
       | [] => st
       | _ :: _ => passes scores thresh (S k) (pass scores thresh st)
       end).
    change (passes scores thresh (S k) st) with
      (match newly_marked scores thresh st with
       | [] => st
       | _ :: _ => passes scores thresh k (pass scores thresh st)
       end).
    destruct (newly_marked scores thresh st) eqn:E.
    + symmetry. apply pass_fixed. exact E.
    + apply IH.
Qed.

Lemma newly_marked_in_working scores thresh st i :
  In i (newly_marked scores thresh st) -> In i (working st).
Proof.
  unfold newly_marked. rewrite filter_In. intros [_ H]. now apply mem_In.
Qed.

Lemma newly_marked_NoDup scores thresh st : NoDup (newly_marked scores thresh st).
Proof.
  unfold newly_marked, marked. do 2 apply NoDup_filter. apply seq_NoDup.
Qed.

Lemma pass_inv scores thresh st :
  selector_inv st -> selector_inv (pass scores thresh st).
Proof.
  intros [Hw [Hr Hd]]. unfold selector_inv, pass; simpl.
  split; [apply NoDup_filter; exact Hw|]. split.
  - apply NoDup_app; [exact Hr|apply newly_marked_NoDup|].
    intros i Hi Hn. apply (Hd i Hi). eapply newly_marked_in_working; eassumption.
  - intros i Hi Hf. apply filter_In in Hf. destruct Hf as [Hiw Hm].
    apply in_app_or in Hi. destruct Hi as [Hi|Hi].
    + exact (Hd i Hi Hiw).
    + apply mem_In in Hi. rewrite Hi in Hm. discriminate.
Qed.

Lemma passes_inv scores thresh k :
  forall st, selector_inv st -> selector_inv (passes scores thresh k st).
Proof.
  induction k as [|k IH]; intros st H; [exact H|].
  rewrite passes_succ. apply pass_inv. apply IH. exact H.
Qed.

Lemma init_inv (n : nat) : selector_inv {| working := seq 0 n; removed := [] |}.
Proof.
  split; [apply seq_NoDup|]. split; [constructor|]. intros i [].
Qed.

(** The result after one more iteration extends the result before it by
    the indices that iteration newly marked. *)
Lemma select_outliers_succ scores thresh k :
  select_outliers scores thresh (S k) =
  select_outliers scores thresh k ++
  newly_marked scores thresh
    (passes scores thresh k {| working := seq 0 (length scores); removed := [] |}).
Proof. unfold select_outliers. rewrite passes_succ. reflexivity. Qed.

Lemma select_outliers_zero scores thresh : select_outliers scores thresh 0 = [].
Proof. reflexivity. Qed.

(** Every returned index is an index of the score vector. *)
Lemma select_outliers_in_range scores thresh k i :
  In i (select_outliers scores thresh k) -> (i < length scores)%nat.
Proof.
  revert i. induction k as [|k IH]; intros i Hi.
  - destruct Hi.
  - rewrite select_outliers_succ in Hi. apply in_app_or in Hi.
    destruct Hi as [Hi|Hi]; [apply IH; exact Hi|].
    unfold newly_marked, marked in Hi.
    apply filter_In in Hi. destruct Hi as [Hi _].
    apply filter_In in Hi. destruct Hi as [Hi _].
    apply in_seq in Hi. lia.
Qed.

Lemma passes_stable scores thresh k st :
  newly_marked scores thresh (passes scores thresh k st) = [] ->
  forall k', (k <= k')%nat -> passes scores thresh k' st = passes scores thresh k st.
Proof.
  intros Hstop k' Hle. induction Hle as [|k' Hle IH]; [reflexivity|].
  rewrite passes_succ, IH. apply pass_fixed. exact Hstop.
Qed.

Lemma select_outliers_le scores thresh k k' :
  (k <= k')%nat ->
  exists more, select_outliers scores thresh k' = select_outliers scores thresh k ++ more.
Proof.
  intros Hle. induction Hle as [|k' Hle [more IH]].
  - exists []. now rewrite app_nil_r.
  - rewrite select_outliers_succ, IH. eexists. rewrite <- app_assoc. reflexivity.
Qed.

Lemma Qltb_lt (a b : Q) : Qltb a b = true <-> a < b.
Proof.
  unfold Qltb. rewrite negb_true_iff. split.
  - intros H. apply Qnot_le_lt. intros Hle. apply Qle_bool_iff in Hle. congruence.
  - intros H. destruct (Qle_bool b a) eqn:E; [|reflexivity].
    apply Qle_bool_iff in E. exfalso. exact (Qlt_not_le _ _ H E).
Qed.

Lemma Qabs_sq (d : Q) : Qabs d * Qabs d == d * d.
Proof. rewrite <- Qabs_Qmult. apply Qabs_pos. nra. Qed.

Lemma sq_lt_iff (a b : Q) : 0 <= a -> 0 <= b -> (a * a < b * b <-> a < b).
Proof.
  intros Ha Hb. split; intros H.
  - apply Qnot_le_lt. intros Hle.
    assert (b * b <= b * a) by nra. assert (b * a <= a * a) by nra. lra.
  - assert (a * a <= a * b) by nra.
    assert (a * b < b * b) by nra. lra.
Qed.

(** The test on squares is the test on the standard deviation: for the
    standard deviation [s], the root of the variance [v], a deviation [d]
    exceeds [thresh] standard deviations exactly when [thresh * s < |d|]. *)
Lemma exceeds_iff (d thresh v s : Q) :
  0 <= s -> s * s == v ->
  (exceeds d thresh v = true <-> thresh * s < Qabs d).
Proof.
  intros Hs Hv. unfold exceeds.
  pose proof (Qabs_nonneg d) as Hd. pose proof (Qabs_sq d) as Hsq.
  destruct (Qle_bool 0 thresh) eqn:Et.
  - apply Qle_bool_iff in Et. rewrite Qltb_lt. unfold sq.
    assert (Hts : 0 <= thresh * s) by nra.
    rewrite <- (sq_lt_iff (thresh * s) (Qabs d) Hts Hd).
    rewrite Hsq, <- Hv.
    split; intros H; nra.
  - assert (Hneg : thresh < 0).
    { apply Qnot_le_lt. intros Hle. apply Qle_bool_iff in Hle. congruence. }
    rewrite orb_true_iff, !negb_true_iff. split.
    + intros [H|H].
      * assert (Hne : ~ d == 0) by (intros He; apply Qeq_bool_iff in He; congruence).
        assert (0 < Qabs d).
        { apply Qnot_le_lt. intros Hle. apply Hne.
          assert (Qabs d == 0) by lra. nra. }
        nra.
      * assert (Hne : ~ v == 0) by (intros He; apply Qeq_bool_iff in He; congruence).
        assert (0 < s).
        { apply Qnot_le_lt. intros Hle. apply Hne. assert (s == 0) by lra. nra. }
        nra.
    + intros H. destruct (Qeq_bool d 0) eqn:Ed; [|now left]. right.
      apply Qeq_bool_iff in Ed.
      destruct (Qeq_bool v 0) eqn:Ev; [|reflexivity].
      apply Qeq_bool_iff in Ev. exfalso.
      assert (Qabs d == 0) by (rewrite Ed; reflexivity).
      assert (s == 0) by nra. nra.
Qed.

Lemma mean_singleton (a : Q) : mean [a] == a.
Proof. unfold mean, Qsum. simpl. field. Qed.

Lemma var_singleton (a : Q) : var [a] == 0.
Proof.
  unfold var. cbv zeta. simpl map. rewrite mean_singleton.
  unfold sq. rewrite mean_singleton. ring.
Qed.

Lemma exceeds_zero (d thresh v : Q) : d == 0 -> v == 0 -> exceeds d thresh v = false.
Proof.
  intros Hd Hv. destruct (exceeds d thresh v) eqn:E; [|reflexivity].
  apply (exceeds_iff d thresh v 0) in E; [|lra|lra].
  assert (Qabs d == 0) by (rewrite Hd; reflexivity). lra.
Qed.

Lemma filter_filter_nil {A} (p q : A -> bool) (l : list A) :
  (forall a, (p a && q a)%bool = false) -> filter q (filter p l) = [].
Proof.
  intros H. induction l as [|a l IH]; [reflexivity|].
  simpl. destruct (p a) eqn:Ep; [|exact IH].
  simpl. specialize (H a). rewrite Ep in H. simpl in H. rewrite H. exact IH.
Qed.

(** A working subset of at most one index has zero standard deviation and
    yields no new outlier. *)
Lemma newly_marked_degenerate (scores : list Q) (thresh : Q) (st : selector) :
  (length (working st) <= 1)%nat -> newly_marked scores thresh st = [].
Proof.
  intros Hlen. unfold newly_marked, marked. cbv zeta.
  apply filter_filter_nil. intros i.
  destruct (working st) as [|j [|j' w]]; simpl in Hlen; try lia.
  - apply andb_false_r.
  - destruct (mem i [j]) eqn:Em; [|apply andb_false_r].
    apply mem_In in Em. destruct Em as [<-|[]].
    rewrite andb_true_r. apply exceeds_zero.
    + unfold restrict. simpl map. rewrite mean_singleton. ring.
    + unfold restrict. simpl map. apply var_singleton.
Qed.

(** Eleven zeros and one score of 100: the first pass removes index 11;
    the second finds nothing new among the zeros and stops. *)
Example select_outliers_one_extreme :
  select_outliers [0; 0; 0; 0; 0; 0; 0; 0; 0; 0; 0; 100] 3 1 = [11%nat] /\
  select_outliers [0; 0; 0; 0; 0; 0; 0; 0; 0; 0; 0; 100] 3 5 = [11%nat].
Proof. split; vm_compute; reflexivity. Qed.

(** A second pass on the cleaner baseline finds the score the first
    extreme value was masking. *)
Example select_outliers_unmasks :
  select_outliers [0; 0; 0; 0; 0; 0; 0; 0; 0; 0; 10; 1000] 3 1 = [11%nat] /\
  select_outliers [0; 0; 0; 0; 0; 0; 0; 0; 0; 0; 10; 1000] 3 2 = [11%nat; 10%nat].
Proof. split; vm_compute; reflexivity. Qed.

(** C4.  With scores and threshold fixed, every index flagged with
    [max_iter = k] is flagged with [max_iter = k + 1], and with any larger
    [max_iter]; the returned indices are distinct, so the size of the
    returned set never decreases.  The selector starts from the working
    subset of all indices with nothing removed; one more iteration adds to
    the result the indices newly marked from the state reached, which leave
    the working subset; and once an iteration marks nothing new the result
    no longer changes. *)
Theorem select_outliers_monotone :
  forall (scores : list Q) (thresh : Q) (k : nat),
    (forall i, In i (select_outliers scores thresh k) ->
               In i (select_outliers scores thresh (S k))) /\
    (forall k', (k <= k')%nat ->
       (forall i, In i (select_outliers scores thresh k) ->
                  In i (select_outliers scores thresh k')) /\
       (length (select_outliers scores thresh k) <=
        length (select_outliers scores thresh k'))%nat) /\
    NoDup (select_outliers scores thresh k) /\
    select_outliers scores thresh 0 = [] /\
    select_outliers scores thresh (S k) =
      select_outliers scores thresh k ++
      newly_marked scores thresh
        (passes scores thresh k {| working := seq 0 (length scores); removed := [] |}) /\
    (newly_marked scores thresh
       (passes scores thresh k {| working := seq 0 (length scores); removed := [] |}) = [] ->
     forall k', (k <= k')%nat ->
       select_outliers scores thresh k' = select_outliers scores thresh k).
Proof.
  intros scores thresh k. split; [|split; [|split; [|split; [|split]]]].
  - intros i Hi. rewrite select_outliers_succ. apply in_or_app. now left.
  - intros k' Hle. destruct (select_outliers_le scores thresh k k' Hle) as [more ->].
    split.
    + intros i Hi. apply in_or_app. now left.
    + rewrite length_app. lia.
  - unfold select_outliers.
    destruct (passes_inv scores thresh k _ (init_inv (length scores))) as [_ [H _]].
    exact H.
  - reflexivity.
  - apply select_outliers_succ.
  - intros Hstop k' Hle. unfold select_outliers.
    now rewrite (passes_stable scores thresh k _ Hstop k' Hle).
Qed.

(* ===================================================================== *)
(** ** Theorems: the entry operations                                     *)
(* ===================================================================== *)

Lemma eqb_faster_false (method : string) :
  method <> "faster" -> String.eqb method "faster" = false.
Proof. intros H. apply String.eqb_neq. exact H. Qed.

(** C7.  For a method other than 'faster' each of the three entry operations
    raises: its outcome is the exception of the defaults lookup for that
    method if that lookup raises, and NotImplementedError otherwise.  The
    outcome is fixed by the lookup alone: no data is read, no metric is
    scored and nothing is returned. *)
Theorem unsupported_method_fails :
  forall (P : Type) (lib : Externals P) (epochs : Epochs)
         (picks : option (list nat)) (method : string)
         (method_params : option P) (return_by_metric : bool),
    method <> "faster" ->
    (find_bad_channels lib epochs picks method method_params return_by_metric =
       (_ <- _handle_default lib ("bad_channels_" ++ method)%string method_params ;;
        Err (NotImplementedError msg_only_faster)) /\
     find_bad_epochs lib epochs picks return_by_metric method method_params =
       (_ <- _handle_default lib ("bad_epochs_" ++ method)%string method_params ;;
        Err (NotImplementedError msg_only_faster)) /\
     find_bad_channels_in_epochs lib epochs picks method method_params return_by_metric =
       (_ <- _handle_default lib ("bad_channels_in_epochs_" ++ method)%string method_params ;;
        Err (NotImplementedError msg_only_faster))) /\
    (exists e1 e2 e3,
       find_bad_channels lib epochs picks method method_params return_by_metric = Err e1 /\
       find_bad_epochs lib epochs picks return_by_metric method method_params = Err e2 /\
       find_bad_channels_in_epochs lib epochs picks method method_params return_by_metric = Err e3).
Proof.
  intros P lib epochs picks method mp rbm Hne.
  pose proof (eqb_faster_false method Hne) as Hf.
  assert (H1 : find_bad_channels lib epochs picks method mp rbm =
               (_ <- _handle_default lib ("bad_channels_" ++ method)%string mp ;;
                Err (NotImplementedError msg_only_faster))).
  { unfold find_bad_channels. rewrite Hf.
    change ("bad_channels" ++ "_" ++ method)%string with ("bad_channels_" ++ method)%string.
    destruct (_handle_default lib ("bad_channels_" ++ method)%string mp); reflexivity. }
  assert (H2 : find_bad_epochs lib epochs picks rbm method mp =
               (_ <- _handle_default lib ("bad_epochs_" ++ method)%string mp ;;
                Err (NotImplementedError msg_only_faster))).
  { unfold find_bad_epochs. rewrite Hf.
    change ("bad_epochs" ++ "_" ++ method)%string with ("bad_epochs_" ++ method)%string.
    destruct (_handle_default lib ("bad_epochs_" ++ method)%string mp); reflexivity. }
  assert (H3 : find_bad_channels_in_epochs lib epochs picks method mp rbm =
               (_ <- _handle_default lib ("bad_channels_in_epochs_" ++ method)%string mp ;;
                Err (NotImplementedError msg_only_faster))).
  { unfold find_bad_channels_in_epochs. rewrite Hf.
    change ("bad_channels_in_epochs" ++ "_" ++ method)%string
      with ("bad_channels_in_epochs_" ++ method)%string.
    destruct (_handle_default lib ("bad_channels_in_epochs_" ++ method)%string mp);
      reflexivity. }
  split; [repeat split; assumption|].
  rewrite H1, H2, H3.
  destruct (_handle_default lib ("bad_channels_" ++ method)%string mp) as [k1|e1];
  destruct (_handle_default lib ("bad_epochs_" ++ method)%string mp) as [k2|e2];
  destruct (_handle_default lib ("bad_channels_in_epochs_" ++ method)%string mp) as [k3|e3];
  simpl; do 3 eexists; repeat split; reflexivity.
Qed.

Lemma unsupported_method_fails_witness :
  find_bad_channels ref_lib small_epochs None "ransac" None false =
    Err (KeyError "bad_channels_ransac") /\
  find_bad_epochs ref_lib small_epochs None false "ransac" None =
    Err (KeyError "bad_epochs_ransac") /\
  find_bad_channels_in_epochs ref_lib small_epochs None "ransac" None false =
    Err (KeyError "bad_channels_in_epochs_ransac").
Proof.
  assert (Hne : "ransac" <> "faster") by discriminate.
  destruct (unsupported_method_fails _ ref_lib small_epochs None "ransac" None false Hne)
    as [[H1 [H2 H3]] _].
  rewrite H1, H2, H3. repeat split; reflexivity.
Defined.

(* ===================================================================== *)
(** ** Theorems: the reference-distance corrector                         *)
(* ===================================================================== *)

Lemma mapM_chs (A : Type) (f : ch_info -> A) (info : Info) (picks : list nat) :
  picks_valid info picks ->
  mapM (fun ch => match nth_error (chs info) ch with
                  | Some c => Ok (f c)
                  | None => Err IndexError
                  end) picks = Ok (map f (picked_chs info picks)).
Proof.
  intros H. induction H as [|ch picks Hch _ IH]; [reflexivity|].
  simpl. destruct (nth_error (chs info) ch) as [c|] eqn:E.
  - simpl. rewrite IH. reflexivity.
  - apply nth_error_None in E. lia.
Qed.

Lemma picked_chs_length (info : Info) (picks : list nat) :
  picks_valid info picks -> length (picked_chs info picks) = length picks.
Proof.
  intros H. induction H as [|ch picks Hch _ IH]; [reflexivity|].
  simpl. destruct (nth_error (chs info) ch) as [c|] eqn:E.
  - simpl. now rewrite IH.
  - apply nth_error_None in E. lia.
Qed.

Lemma existsb_map {A B} (p : B -> bool) (f : A -> B) (l : list A) :
  existsb p (map f l) = existsb (fun a => p (f a)) l.
Proof. induction l as [|a l IH]; simpl; [reflexivity|]. now rewrite IH. Qed.

(** C2.  When some selected channel has an all-zero sensor position or an
    all-zero reference position, the corrector raises ValueError: with the
    message about missing position information when a sensor position is
    missing, and with the message about the unspecified reference location
    otherwise.  The outcome depends on neither the scores nor the numeric
    routines, and is never a score vector. *)
Theorem distance_correction_missing_geometry :
  forall (P : Type) (lib : Externals P) (info : Info) (picks : list nat) (x : list Q),
    picks_valid info picks ->
    (exists c, In c (picked_chs info picks) /\
               (all_zero (sensor_pos c) = true \/ all_zero (reference_pos c) = true)) ->
    (exists msg,
       _distance_correction lib info picks x = Err (ValueError msg) /\
       ((exists c, In c (picked_chs info picks) /\ all_zero (sensor_pos c) = true) ->
        msg = msg_no_position) /\
       (~ (exists c, In c (picked_chs info picks) /\ all_zero (sensor_pos c) = true) ->
        msg = msg_no_reference)) /\
    (forall (P' : Type) (lib' : Externals P') (x' : list Q),
       _distance_correction lib' info picks x' = _distance_correction lib info picks x).
Proof.
  intros P lib info picks x Hv [c [Hin Hz]].
  assert (Hne : picks <> []).
  { intros ->. destruct Hin. }
  assert (Hshape : forall (P' : Type) (lib' : Externals P') (x' : list Q),
            _distance_correction lib' info picks x' =
            if existsb all_zero (map sensor_pos (picked_chs info picks))
            then Err (ValueError msg_no_position)
            else Err (ValueError msg_no_reference)).
  { intros P' lib' x'. unfold _distance_correction, reference_angles.
    rewrite (mapM_chs _ (fun c => firstn 3 (loc c)) info picks Hv).
    rewrite (mapM_chs _ (fun c => firstn 3 (skipn 3 (loc c))) info picks Hv).
    cbv beta iota delta [bind]. destruct picks as [|p0 picks']; [congruence|].
    change (map (fun c0 => firstn 3 (loc c0))) with (map sensor_pos).
    change (map (fun c0 => firstn 3 (skipn 3 (loc c0)))) with (map reference_pos).
    destruct (existsb all_zero (map sensor_pos (picked_chs info (p0 :: picks')))) eqn:E1;
      [reflexivity|].
    destruct (existsb all_zero (map reference_pos (picked_chs info (p0 :: picks')))) eqn:E2;
      [reflexivity|].
    exfalso. rewrite existsb_map in E1, E2.
    destruct Hz as [Hz|Hz].
    - assert (Ht : existsb (fun a => all_zero (sensor_pos a))
                     (picked_chs info (p0 :: picks')) = true).
      { apply existsb_exists. exists c. split; assumption. }
      congruence.
    - assert (Ht : existsb (fun a => all_zero (reference_pos a))
                     (picked_chs info (p0 :: picks')) = true).
      { apply existsb_exists. exists c. split; assumption. }
      congruence. }
  split.
  - rewrite (Hshape P lib x). rewrite existsb_map.
    destruct (existsb (fun a => all_zero (sensor_pos a)) (picked_chs info picks)) eqn:E.
    + exists msg_no_position. split; [reflexivity|]. split; [reflexivity|].
      intros Hn. exfalso. apply Hn. apply existsb_exists in E.
      destruct E as [c' [Hc' Hz']]. exists c'. split; assumption.
    + exists msg_no_reference. split; [reflexivity|]. split; [|reflexivity].
      intros [c' [Hc' Hz']].
      assert (Ht : existsb (fun a => all_zero (sensor_pos a)) (picked_chs info picks) = true).
      { apply existsb_exists. exists c'. split; assumption. }
      congruence.
  - intros P' lib' x'. rewrite (Hshape P' lib' x'), (Hshape P lib x). reflexivity.
Qed.

Lemma distance_correction_missing_geometry_witness :
  _distance_correction ref_lib info_without_reference [0; 1]%nat [1; 2] =
    Err (ValueError msg_no_reference).
Proof.
  destruct (distance_correction_missing_geometry _ ref_lib info_without_reference
              [0; 1]%nat [1; 2]) as [[msg [H [_ Hm]]] _].
  - repeat constructor.
  - exists (mkCh "Cz" "eeg" [0; 1; 0; 0; 0; 0]). split.
    + simpl. right. left. reflexivity.
    + right. reflexivity.
  - rewrite H. rewrite Hm; [reflexivity|].
    intros [c [Hc Hz]]. simpl in Hc.
    destruct Hc as [<-|[<-|[]]]; vm_compute in Hz; discriminate.
Defined.

Lemma combine_map_same {A B C} (f : A -> B) (g : A -> C) (l : list A) :
  combine (map f l) (map g l) = map (fun a => (f a, g a)) l.
Proof. induction l as [|a l IH]; simpl; [reflexivity|]. now rewrite IH. Qed.

Lemma length_map2 {A B C} (f : A -> B -> C) (a : list A) (b : list B) :
  length (map2 f a b) = Nat.min (length a) (length b).
Proof. unfold map2. now rewrite length_map, length_combine. Qed.

Lemma nth_map2 {A B C} (f : A -> B -> C) (a : list A) (b : list B)
      (da : A) (db : B) (dc : C) (i : nat) :
  (i < length a)%nat -> (i < length b)%nat ->
  nth i (map2 f a b) dc = f (nth i a da) (nth i b db).
Proof.
  unfold map2. revert b i.
  induction a as [|x a IH]; intros [|y b] [|i] Ha Hb; simpl in *; try lia.
  - reflexivity.
  - apply IH; lia.
Qed.

Lemma existsb_false_of_forall {A} (p : A -> bool) (l : list A) :
  (forall a, In a l -> p a = false) -> existsb p l = false.
Proof.
  intros H. induction l as [|a l IH]; simpl; [reflexivity|].
  rewrite (H a (or_introl eq_refl)). simpl. apply IH.
  intros b Hb. apply H. now right.
Qed.

(** With the geometry present the angular distances are computed, one per
    selected channel. *)
Lemma reference_angles_ok {P} (lib : Externals P) (info : Info) (picks : list nat) :
  picks <> [] ->
  picks_valid info picks ->
  (forall c, In c (picked_chs info picks) ->
             all_zero (sensor_pos c) = false /\ all_zero (reference_pos c) = false) ->
  reference_angles lib info picks =
    Ok (map (angular_distance lib) (picked_chs info picks)).
Proof.
  intros Hne Hv Hgeo. unfold reference_angles.
  rewrite (mapM_chs _ (fun c => firstn 3 (loc c)) info picks Hv).
  rewrite (mapM_chs _ (fun c => firstn 3 (skipn 3 (loc c))) info picks Hv).
  cbv beta iota delta [bind]. destruct picks as [|p0 picks']; [congruence|].
  set (cs := picked_chs info (p0 :: picks')) in *.
  rewrite !existsb_map.
  rewrite (existsb_false_of_forall (fun a => all_zero (firstn 3 (loc a))) cs)
    by (intros a Ha; apply (Hgeo a Ha)).
  rewrite (existsb_false_of_forall (fun a => all_zero (firstn 3 (skipn 3 (loc a)))) cs)
    by (intros a Ha; apply (Hgeo a Ha)).
  rewrite !map_map, combine_map_same, map_map. reflexivity.
Qed.

(** With the geometry present and one score per selected channel the
    corrector is the fit followed by the subtraction of the fitted curve. *)
Lemma distance_correction_ok {P} (lib : Externals P) (info : Info)
      (picks : list nat) (x : list Q) :
  picks <> [] ->
  picks_valid info picks ->
  length x = length picks ->
  (forall c, In c (picked_chs info picks) ->
             all_zero (sensor_pos c) = false /\ all_zero (reference_pos c) = false) ->
  _distance_correction lib info picks x =
    (fit <- np_polyfit lib (map (angular_distance lib) (picked_chs info picks)) x 2 ;;
     Ok (map2 Qminus x
           (polyval fit (map (angular_distance lib) (picked_chs info picks))))).
Proof.
  intros Hne Hv Hlen Hgeo. unfold _distance_correction.
  rewrite (reference_angles_ok lib info picks Hne Hv Hgeo).
  cbn [bind]. rewrite length_map, (picked_chs_length info _ Hv), <- Hlen.
  rewrite Nat.eqb_refl. reflexivity.
Qed.

Lemma polyval1_quadratic (c2 c1 c0 a : Q) :
  polyval1 [c2; c1; c0] a == c2 * (a * a) + c1 * a + c0.
Proof. unfold polyval1. simpl. ring. Qed.

(** C3 (as the code has it).  For selected channels whose sensor and
    reference positions are not all zero and a score vector with one score
    per selected channel, the corrector hands the (angular distance, score)
    pairs to [np.polyfit] with degree 2; the angular distance is the
    arccosine of the dot product of the unit sensor position and the unit
    reference position.  When the fit raises, the corrector raises the same
    exception.  When it returns, the corrector returns, channel by channel,
    the score minus the value of the fitted polynomial at the channel's
    angular distance; three coefficients are those of a quadratic, and when
    the fit is a least-squares fit the corrected scores have the least sum
    of squares any quadratic leaves. *)
Theorem distance_correction_quadratic_detrend :
  forall (P : Type) (lib : Externals P) (info : Info) (picks : list nat) (x : list Q),
    picks <> [] ->
    picks_valid info picks ->
    length x = length picks ->
    (forall c, In c (picked_chs info picks) ->
               all_zero (sensor_pos c) = false /\ all_zero (reference_pos c) = false) ->
    (forall e,
       np_polyfit lib (map (angular_distance lib) (picked_chs info picks)) x 2 = Err e ->
       _distance_correction lib info picks x = Err e) /\
    (forall fit,
       np_polyfit lib (map (angular_distance lib) (picked_chs info picks)) x 2 = Ok fit ->
       exists r : list Q,
         _distance_correction lib info picks x = Ok r /\
         length r = length x /\
         (forall i, (i < length x)%nat ->
            nth i r 0 =
            nth i x 0 -
            polyval1 fit
              (angular_distance lib (nth i (picked_chs info picks) (mkCh "" "" [])))) /\
         (forall c2 c1 c0 a,
            fit = [c2; c1; c0] -> polyval1 fit a == c2 * (a * a) + c1 * a + c0) /\
         (least_squares_quadratic
            (map (angular_distance lib) (picked_chs info picks)) x fit ->
          forall other, length other = 3%nat ->
            Qsum (map sq r) <=
            sse other (map (angular_distance lib) (picked_chs info picks)) x)).
Proof.
  intros P lib info picks x Hne Hv Hlen Hgeo.
  set (angles := map (angular_distance lib) (picked_chs info picks)).
  pose proof (distance_correction_ok lib info picks x Hne Hv Hlen Hgeo) as Hok.
  fold angles in Hok.
  split.
  { intros e He. rewrite Hok, He. reflexivity. }
  intros fit Hfit.
  exists (map2 Qminus x (polyval fit angles)).
  assert (Hla : length angles = length x).
  { unfold angles. rewrite length_map, picked_chs_length by exact Hv. now symmetry. }
  split; [rewrite Hok, Hfit; reflexivity|].
  split.
  { rewrite length_map2. unfold polyval. rewrite length_map, Hla. apply Nat.min_id. }
  split.
  { intros i Hi.
    rewrite (nth_map2 Qminus x (polyval fit angles) 0 0 0 i Hi)
      by (unfold polyval; rewrite length_map, Hla; exact Hi).
    unfold polyval.
    rewrite (nth_indep (map (polyval1 fit) angles) 0 (polyval1 fit 0))
      by (rewrite length_map, Hla; exact Hi).
    rewrite map_nth. unfold angles.
    rewrite (nth_indep (map (angular_distance lib) (picked_chs info picks)) 0
               (angular_distance lib (mkCh "" "" [])))
      by (rewrite length_map, (picked_chs_length info picks Hv); lia).
    rewrite map_nth. reflexivity. }
  split.
  { intros c2 c1 c0 a ->. apply polyval1_quadratic. }
  intros [_ Hls] other Hother. apply (Hls other Hother).
Qed.

Lemma Qsum_nonneg_sq (l : list Q) : 0 <= Qsum (map sq l).
Proof.
  induction l as [|a l IH]; simpl; [apply Qle_refl|].
  assert (0 <= sq a) by (unfold sq; nra). lra.
Qed.

Lemma sse_nonneg (coeffs xs ys : list Q) : 0 <= sse coeffs xs ys.
Proof. unfold sse. apply Qsum_nonneg_sq. Qed.

Lemma sse_cons (coeffs : list Q) (x y : Q) (xs ys : list Q) :
  sse coeffs (x :: xs) (y :: ys) = sq (y - polyval1 coeffs x) + sse coeffs xs ys.
Proof. reflexivity. Qed.

Lemma power_sum_cons (k : nat) (x : Q) (xs : list Q) :
  power_sum k (x :: xs) = x ^ Z.of_nat k + power_sum k xs.
Proof. reflexivity. Qed.

Lemma moment_sum_cons (k : nat) (x y : Q) (xs ys : list Q) :
  moment_sum k (x :: xs) (y :: ys) = x ^ Z.of_nat k * y + moment_sum k xs ys.
Proof. reflexivity. Qed.

(** The sum of squared residuals of a quadratic, in the power sums of the
    abscissae and the moments of the ordinates. *)
Lemma sse_expand (a2 a1 a0 : Q) (xs ys : list Q) :
  length xs = length ys ->
  sse [a2; a1; a0] xs ys ==
    Qsum (map sq ys)
    - 2 * (a2 * moment_sum 2 xs ys + a1 * moment_sum 1 xs ys + a0 * moment_sum 0 xs ys)
    + (a2 * a2 * power_sum 4 xs + 2 * a2 * a1 * power_sum 3 xs
       + (a1 * a1 + 2 * a2 * a0) * power_sum 2 xs + 2 * a1 * a0 * power_sum 1 xs
       + a0 * a0 * power_sum 0 xs).
Proof.
  revert ys. induction xs as [|x xs IH]; intros [|y ys] Hl; simpl in Hl; try discriminate.
  - unfold sse, moment_sum, power_sum, map2. simpl. ring.
  - rewrite sse_cons, !power_sum_cons, !moment_sum_cons.
    rewrite (IH ys) by lia.
    change (Qsum (map sq (y :: ys))) with (sq y + Qsum (map sq ys)).
    unfold sq. rewrite polyval1_quadratic. simpl Z.of_nat. ring.
Qed.

Lemma cramer_solves (s0 s1 s2 s3 s4 t0 t1 t2 : Q) :
  ~ det3 s4 s3 s2 s3 s2 s1 s2 s1 s0 == 0 ->
  let d := det3 s4 s3 s2 s3 s2 s1 s2 s1 s0 in
  let c2 := det3 t2 s3 s2 t1 s2 s1 t0 s1 s0 / d in
  let c1 := det3 s4 t2 s2 s3 t1 s1 s2 t0 s0 / d in
  let c0 := det3 s4 s3 t2 s3 s2 t1 s2 s1 t0 / d in
  s4 * c2 + s3 * c1 + s2 * c0 == t2 /\
  s3 * c2 + s2 * c1 + s1 * c0 == t1 /\
  s2 * c2 + s1 * c1 + s0 * c0 == t0.
Proof.
  intros Hd. cbv zeta. unfold det3 in *. repeat split; field; exact Hd.
Qed.

Lemma Qsum_sq_zeros (n : nat) : Qsum (map sq (repeat 0 n)) == 0.
Proof.
  induction n as [|n IH]; simpl; [reflexivity|]. rewrite IH. unfold sq. ring.
Qed.

Lemma moment_sum_zeros (k : nat) (xs : list Q) :
  moment_sum k xs (repeat 0 (length xs)) == 0.
Proof.
  induction xs as [|x xs IH]; [reflexivity|].
  change (repeat 0 (length (x :: xs))) with (0 :: repeat 0 (length xs)).
  rewrite moment_sum_cons, IH. ring.
Qed.

Lemma least_squares_of_normal_equations (xs ys : list Q) (c2 c1 c0 : Q) :
  length xs = length ys ->
  power_sum 4 xs * c2 + power_sum 3 xs * c1 + power_sum 2 xs * c0 == moment_sum 2 xs ys ->
  power_sum 3 xs * c2 + power_sum 2 xs * c1 + power_sum 1 xs * c0 == moment_sum 1 xs ys ->
  power_sum 2 xs * c2 + power_sum 1 xs * c1 + power_sum 0 xs * c0 == moment_sum 0 xs ys ->
  least_squares_quadratic xs ys [c2; c1; c0].
Proof.
  intros Hl H2 H1 H0. split; [reflexivity|].
  intros [|o2 [|o1 [|o0 [|? ?]]]] Ho; simpl in Ho; try discriminate.
  pose proof (sse_nonneg [o2 - c2; o1 - c1; o0 - c0] xs (repeat 0 (length xs))) as Hpos.
  rewrite sse_expand in Hpos by (now rewrite repeat_length).
  rewrite (sse_expand c2 c1 c0 xs ys Hl), (sse_expand o2 o1 o0 xs ys Hl).
  rewrite Qsum_sq_zeros, !moment_sum_zeros in Hpos.
  set (s4 := power_sum 4 xs) in *. set (s3 := power_sum 3 xs) in *.
  set (s2 := power_sum 2 xs) in *. set (s1 := power_sum 1 xs) in *.
  set (s0 := power_sum 0 xs) in *.
  set (t2 := moment_sum 2 xs ys) in *. set (t1 := moment_sum 1 xs ys) in *.
  set (t0 := moment_sum 0 xs ys) in *.
  nra.
Qed.

Lemma normal_equations_least_squares (xs ys : list Q) :
  length xs = length ys ->
  ~ det3 (power_sum 4 xs) (power_sum 3 xs) (power_sum 2 xs)
         (power_sum 3 xs) (power_sum 2 xs) (power_sum 1 xs)
         (power_sum 2 xs) (power_sum 1 xs) (power_sum 0 xs) == 0 ->
  least_squares_quadratic xs ys (normal_equations_solution xs ys).
Proof.
  intros Hl Hd. unfold normal_equations_solution. cbv zeta.
  destruct (cramer_solves (power_sum 0 xs) (power_sum 1 xs) (power_sum 2 xs)
              (power_sum 3 xs) (power_sum 4 xs)
              (moment_sum 0 xs ys) (moment_sum 1 xs ys) (moment_sum 2 xs ys) Hd)
    as [H2 [H1 H0]].
  apply least_squares_of_normal_equations; assumption.
Qed.

(** Reducing the fractions of the coefficients changes no residual. *)
Lemma least_squares_Qred (xs ys : list Q) (c2 c1 c0 : Q) :
  length xs = length ys ->
  least_squares_quadratic xs ys [c2; c1; c0] ->
  least_squares_quadratic xs ys (map Qred [c2; c1; c0]).
Proof.
  intros Hl [_ H]. split; [reflexivity|]. intros other Ho.
  specialize (H other Ho). simpl map.
  rewrite sse_expand in * by exact Hl. rewrite !Qred_correct. exact H.
Qed.

(** The reference fit on three or more distinct abscissae, for normal
    equations that have one solution, is a least-squares quadratic. *)
Lemma ref_polyfit_least_squares (xs ys : list Q) :
  length xs = length ys ->
  (3 <= length (dedup Qeq_bool xs))%nat ->
  ~ det3 (power_sum 4 xs) (power_sum 3 xs) (power_sum 2 xs)
         (power_sum 3 xs) (power_sum 2 xs) (power_sum 1 xs)
         (power_sum 2 xs) (power_sum 1 xs) (power_sum 0 xs) == 0 ->
  exists fit, ref_polyfit xs ys 2 = Ok fit /\ least_squares_quadratic xs ys fit.
Proof.
  intros Hl Hthree Hd. unfold ref_polyfit. rewrite Hl, Nat.eqb_refl. cbn [negb].
  destruct (dedup Qeq_bool xs) as [|a [|b [|c rest]]]; simpl in Hthree; try lia.
  eexists. split; [reflexivity|].
  pose proof (normal_equations_least_squares xs ys Hl Hd) as H.
  unfold normal_equations_solution in *. cbv zeta in *.
  apply least_squares_Qred; assumption.
Qed.

Lemma distance_correction_quadratic_detrend_witness :
  exists r : list Q,
    _distance_correction ref_lib spread_info [0; 1; 2; 3]%nat [1; 2; 3; 5] = Ok r /\
    length r = 4%nat /\
    forall other, length other = 3%nat ->
      Qsum (map sq r) <=
      sse other (map (angular_distance ref_lib) (picked_chs spread_info [0; 1; 2; 3]%nat))
          [1; 2; 3; 5].
Proof.
  destruct (ref_polyfit_least_squares
              (map (angular_distance ref_lib) (picked_chs spread_info [0; 1; 2; 3]%nat))
              [1; 2; 3; 5]) as [fit [Hfit Hls]].
  - reflexivity.
  - vm_compute. lia.
  - intros H. vm_compute in H. discriminate.
  - destruct (distance_correction_quadratic_detrend _ ref_lib spread_info
                [0; 1; 2; 3]%nat [1; 2; 3; 5]) as [_ Hret].
    + discriminate.
    + repeat constructor.
    + reflexivity.
    + intros c Hc. simpl in Hc.
      destruct Hc as [<-|[<-|[<-|[<-|[]]]]]; split; reflexivity.
    + destruct (Hret fit Hfit) as [r [Hr [Hl [_ [_ Hmin]]]]].
      exists r. split; [exact Hr|]. split; [exact Hl|]. exact (Hmin Hls).
Defined.

(** C3 (as the specification words it) fails.  Three channels that sit on
    their reference have positions that are not zero and an angular distance
    of zero each; the fit does not converge, and the corrector raises
    instead of returning corrected scores.  A score vector with fewer scores
    than selected channels makes the fit raise TypeError. *)
Lemma distance_correction_fit_raises :
  (forall c, In c (picked_chs coincident_info [0; 1; 2]%nat) ->
             all_zero (sensor_pos c) = false /\ all_zero (reference_pos c) = false) /\
  map (angular_distance ref_lib) (picked_chs coincident_info [0; 1; 2]%nat) = [0; 0; 0] /\
  _distance_correction ref_lib coincident_info [0; 1; 2]%nat [1; 2; 3] =
    Err (LinAlgError "SVD did not converge in Linear Least Squares") /\
  _distance_correction ref_lib spread_info [0; 1; 2; 3]%nat [1; 2] =
    Err (TypeError msg_polyfit_length).
Proof.
  split; [|split; [|split]].
  - intros c Hc. simpl in Hc. destruct Hc as [<-|[<-|[<-|[]]]]; split; reflexivity.
  - vm_compute. reflexivity.
  - vm_compute. reflexivity.
  - vm_compute. reflexivity.
Qed.

(* ===================================================================== *)
(** ** Theorems: line-noise power                                         *)
(* ===================================================================== *)

Lemma searchsorted_in_range (fs : list Q) (f : Z) :
  (searchsorted fs (inject_Z f) <? length fs)%nat = reaches fs f.
Proof.
  induction fs as [|g fs IH]; [reflexivity|].
  simpl. destruct (Qlt_le_dec g (inject_Z f)) as [Hlt|Hle].
  - assert (Hb : Qle_bool (inject_Z f) g = false).
    { destruct (Qle_bool (inject_Z f) g) eqn:E; [|reflexivity].
      apply Qle_bool_iff in E. exfalso. exact (Qlt_not_le _ _ Hlt E). }
    rewrite Hb. simpl. exact IH.
  - assert (Hb : Qle_bool (inject_Z f) g = true) by (apply Qle_bool_iff; exact Hle).
    rewrite Hb. reflexivity.
Qed.

(** The index [np.searchsorted] picks is the first bin at or above the
    target. *)
Lemma searchsorted_first_bin (fs : list Q) (f : Z) :
  reaches fs f = true ->
  inject_Z f <= nth (searchsorted fs (inject_Z f)) fs 0 /\
  forall j, (j < searchsorted fs (inject_Z f))%nat -> nth j fs 0 < inject_Z f.
Proof.
  induction fs as [|g fs IH]; [discriminate|].
  simpl. destruct (Qlt_le_dec g (inject_Z f)) as [Hlt|Hle].
  - assert (Hb : Qle_bool (inject_Z f) g = false).
    { destruct (Qle_bool (inject_Z f) g) eqn:E; [|reflexivity].
      apply Qle_bool_iff in E. exfalso. exact (Qlt_not_le _ _ Hlt E). }
    rewrite Hb. simpl. intros Hr. destruct (IH Hr) as [H1 H2].
    split; [exact H1|]. intros [|j] Hj; [exact Hlt|]. apply H2. lia.
  - intros _. split; [exact Hle|]. intros j Hj. lia.
Qed.

Lemma reaches_false (fs : list Q) (f : Z) :
  reaches fs f = false <-> forall g, In g fs -> g < inject_Z f.
Proof.
  unfold reaches. split.
  - intros H g Hg. destruct (Qlt_le_dec g (inject_Z f)) as [Hlt|Hle]; [exact Hlt|].
    assert (Ht : existsb (fun g0 => Qle_bool (inject_Z f) g0) fs = true).
    { apply existsb_exists. exists g. split; [exact Hg|]. apply Qle_bool_iff. exact Hle. }
    congruence.
  - intros H. apply existsb_false_of_forall. intros g Hg.
    destruct (Qle_bool (inject_Z f) g) eqn:E; [|reflexivity].
    apply Qle_bool_iff in E. exfalso. exact (Qlt_not_le _ _ (H g Hg) E).
Qed.

(** The outcome of the metric in terms of the frequency axis. *)
Lemma freqs_power_line_freqs {P B S} `{NdBlock B S} (lib : Externals P) (data : B) (sfreq0 : Q) :
  _freqs_power lib data sfreq0 line_freqs =
    match _efficient_welch lib data sfreq0 with
    | Err e => Err e
    | Ok (fs, ps) =>
        if reaches fs 50 && reaches fs 60
        then Ok (nd_add (index_last (searchsorted fs 50) ps)
                        (index_last (searchsorted fs 60) ps))
        else Err (ValueError (msg_line_noise line_freqs))
    end.
Proof.
  unfold _freqs_power.
  destruct (_efficient_welch lib data sfreq0) as [[fs0 ps0]|e]; [|reflexivity].
  cbn [bind]. unfold line_freqs, mapM, power_at.
  change (inject_Z 50) with 50. change (inject_Z 60) with 60.
  pose proof (searchsorted_in_range fs0 50) as H50.
  pose proof (searchsorted_in_range fs0 60) as H60.
  change (inject_Z 50) with 50 in H50. change (inject_Z 60) with 60 in H60.
  rewrite H50, H60.
  destruct (reaches fs0 50); destruct (reaches fs0 60); reflexivity.
Qed.

(** The one-sided frequency axis ends at half the sample rate. *)
Lemma ref_welch_freqs_below_nyquist (fs0 : Q) (nperseg : Q) (g : Q) :
  0 <= fs0 ->
  In g (ref_welch_freqs fs0 nperseg) -> g <= fs0 / 2.
Proof.
  intros Hfs Hg. unfold ref_welch_freqs in Hg. cbv zeta in Hg.
  set (n := Qfloor nperseg) in *.
  destruct (n <? 1)%Z eqn:En; [destruct Hg|].
  apply Z.ltb_ge in En.
  apply in_map_iff in Hg. destruct Hg as [k [<- Hk]].
  apply in_seq in Hk. rewrite Qred_correct.
  assert (Hk2 : (2 * Z.of_nat k <= n)%Z).
  { assert (Hd : (0 <= n / 2)%Z) by (apply Z.div_pos; lia).
    assert (Hkz : (Z.of_nat k <= n / 2)%Z) by lia.
    pose proof (Z.mul_div_le n 2 ltac:(lia)). lia. }
  assert (HnQ : 0 < inject_Z n).
  { change 0 with (inject_Z 0). rewrite <- Zlt_Qlt. lia. }
  assert (HkQ : 2 * inject_Z (Z.of_nat k) <= inject_Z n).
  { change 2 with (inject_Z 2). rewrite <- inject_Z_mult, <- Zle_Qle. exact Hk2. }
  apply Qle_shift_div_r; [exact HnQ|].
  assert (Heq : fs0 / 2 * inject_Z n == (inject_Z n * fs0) / 2) by field.
  rewrite Heq. apply Qle_shift_div_l; [lra|]. nra.
Qed.

(** When Welch's frequency axis is the one-sided axis [k * sfreq / nperseg],
    a sample rate below 120 Hz leaves 60 Hz out of reach: the metric
    returns no value, it raises what the estimator raises or the ValueError
    of the line noise. *)
Lemma line_noise_below_nyquist {P B S} `{NdBlock B S} (lib : Externals P)
      (data : B) (sfreq0 : Q) :
  welch_freqs lib = ref_welch_freqs ->
  0 <= sfreq0 -> sfreq0 < 120 ->
  _freqs_power lib data sfreq0 line_freqs =
    match _efficient_welch lib data sfreq0 with
    | Err e => Err e
    | Ok _ => Err (ValueError (msg_line_noise line_freqs))
    end.
Proof.
  intros Hw H0 Hlow.
  rewrite freqs_power_line_freqs.
  destruct (_efficient_welch lib data sfreq0) as [[fs ps]|e] eqn:E; [|reflexivity].
  assert (Hfs : exists nperseg, fs = welch_freqs lib sfreq0 nperseg).
  { unfold _efficient_welch in E.
    destruct (welch_nperseg lib (shape_last data) sfreq0) as [nperseg|]; [|discriminate].
    cbn [bind] in E. unfold welch in E.
    destruct (welch_error lib sfreq0 nperseg 0 (shape_last data)); [discriminate|].
    inversion E. exists nperseg. reflexivity. }
  destruct Hfs as [nperseg ->].
  assert (Hr : reaches (welch_freqs lib sfreq0 nperseg) 60 = false).
  { apply reaches_false. intros g Hg. rewrite Hw in Hg.
    apply ref_welch_freqs_below_nyquist in Hg; [|exact H0].
    change (inject_Z 60) with 60.
    assert (sfreq0 / 2 < 60) by (apply Qlt_shift_div_r; lra).
    lra. }
  rewrite Hr, andb_false_r. reflexivity.
Qed.

(** C6.  The line-noise metric of a block is the power at the bin for 50 Hz
    plus the power at the bin for 60 Hz, the bin for a target being the first
    bin of the estimate at or above it.  When the estimate does not reach one
    of the two targets (every bin lies below it) the metric raises ValueError
    with the message about the insufficient sample rate, which ends by
    advising to disable the 'line_noise' metric.  When the estimator itself
    raises, the metric raises the same exception.  Both tables that offer
    line_noise compute it this way at the sample rate of the recording. *)
Theorem line_noise_power :
  forall (P B S : Type) (blk : NdBlock B S) (lib : Externals P) (data : B) (sfreq0 : Q),
    (_freqs_power lib data sfreq0 line_freqs =
       match _efficient_welch lib data sfreq0 with
       | Err e => Err e
       | Ok (fs, ps) =>
           if reaches fs 50 && reaches fs 60
           then Ok (nd_add (index_last (searchsorted fs 50) ps)
                           (index_last (searchsorted fs 60) ps))
           else Err (ValueError (msg_line_noise line_freqs))
       end) /\
    (forall fs f, reaches fs f = true ->
       (searchsorted fs (inject_Z f) < length fs)%nat /\
       inject_Z f <= nth (searchsorted fs (inject_Z f)) fs 0 /\
       forall j, (j < searchsorted fs (inject_Z f))%nat -> nth j fs 0 < inject_Z f) /\
    (forall fs f, reaches fs f = false <-> forall g, In g fs -> g < inject_Z f) /\
    (exists pre, msg_line_noise line_freqs =
       (pre ++ "Use the 'metrics' parameter to disable the 'line_noise' metric.")%string) /\
    (forall epochs,
       (exists m, dict_get (bad_channels_metrics lib epochs) "line_noise" = Some m /\
                  forall x, m x = (p <- _freqs_power lib x (sfreq (info epochs)) line_freqs ;;
                                   Ok (ScoreVector p))) /\
       (exists m, dict_get (bad_channels_in_epochs_metrics lib epochs) "line_noise" = Some m /\
                  forall x, m x = _freqs_power lib x (sfreq (info epochs)) line_freqs)).
Proof.
  intros P B S blk lib data sfreq0.
  split; [|split; [|split; [|split]]].
  - apply freqs_power_line_freqs.
  - intros fs0 f Hr. split.
    + apply Nat.ltb_lt. rewrite searchsorted_in_range. exact Hr.
    + apply searchsorted_first_bin. exact Hr.
  - intros fs0 f. apply reaches_false.
  - exists "Insufficient sample rate to  estimate power at [50, 60] Hz for line noise detection. ".
    vm_compute. reflexivity.
  - intros epochs. split; eexists; (split; [reflexivity|]); intros x; reflexivity.
Qed.

(** At 100 Hz with four samples the estimate has bins at 0, 25 and 50 Hz:
    60 Hz is out of reach and the metric raises. *)
Example line_noise_unreachable :
  _freqs_power ref_lib [[0; 1; 0; 1]] 100 line_freqs =
    Err (ValueError
           "Insufficient sample rate to  estimate power at [50, 60] Hz for line noise detection. Use the 'metrics' parameter to disable the 'line_noise' metric.").
Proof. vm_compute. reflexivity. Qed.

(** At 200 Hz with eight samples the bins are 0, 25, ..., 100 Hz: the metric
    adds the power at 50 Hz and at 75 Hz, the first bin not below 60 Hz. *)
Example line_noise_reachable :
  option_map fst (match _efficient_welch ref_lib [[0; 1; 0; 1; 0; 1; 0; 1]] 200 with
                  | Ok fsps => Some fsps
                  | Err _ => None
                  end) = Some [0; 25; 50; 75; 100] /\
  searchsorted [0; 25; 50; 75; 100] 50 = 2%nat /\
  searchsorted [0; 25; 50; 75; 100] 60 = 3%nat /\
  is_ok (_freqs_power ref_lib [[0; 1; 0; 1; 0; 1; 0; 1]] 200 line_freqs) = true.
Proof. vm_compute. repeat split; reflexivity. Qed.

(* ===================================================================== *)
(** ** Theorems: bad channels in epochs                                   *)
(* ===================================================================== *)

Lemma bind_ok {A B} (r : result A) (k : A -> result B) (b : B) :
  bind r k = Ok b -> exists a, r = Ok a /\ k a = Ok b.
Proof. destruct r as [a|e]; simpl; [|discriminate]. intros H. eauto. Qed.

(** Splits a hypothesis [H : (x <- r ;; k) = Ok b] into the value [x] of
    [r] and what remains of [H]. *)
Ltac bind_inv H x Hx :=
  apply bind_ok in H; destruct H as [x [Hx H]].

Lemma foldM_inv {A St} (I : St -> Prop) (f : St -> A -> result St) (l : list A) :
  (forall s a s', In a l -> I s -> f s a = Ok s' -> I s') ->
  forall s s', I s -> foldM f l s = Ok s' -> I s'.
Proof.
  induction l as [|a l IH]; intros Hstep s s' Hs H; simpl in H.
  - inversion H; subst. exact Hs.
  - apply bind_ok in H. destruct H as [s1 [H1 H2]].
    apply (IH (fun s0 a0 s0' Hin => Hstep s0 a0 s0' (or_intror Hin)) s1 s'); [|exact H2].
    apply (Hstep s a s1); [now left|exact Hs|exact H1].
Qed.

Lemma mapM_length {A B} (f : A -> result B) (l : list A) (r : list B) :
  mapM f l = Ok r -> length r = length l.
Proof.
  revert r. induction l as [|a l IH]; intros r H; simpl in H.
  - inversion H. reflexivity.
  - bind_inv H b Hb. bind_inv H bs Hbs.
    inversion H; subst. simpl. now rewrite (IH bs Hbs).
Qed.

Lemma dict_get_In {V} (d : dict V) (k : string) (v : V) :
  dict_get d k = Some v -> In (k, v) d.
Proof.
  induction d as [|[k' v'] d IH]; simpl; [discriminate|].
  destruct (String.eqb k k') eqn:E.
  - apply String.eqb_eq in E. subst. intros H. inversion H; subst. now left.
  - intros H. right. apply IH. exact H.
Qed.

Lemma dict_get_of_key {V} (d : dict V) (k : string) :
  In k (keys d) -> exists v, dict_get d k = Some v.
Proof.
  induction d as [|[k' v'] d IH]; simpl; [intros []|].
  destruct (String.eqb k k') eqn:E; [eauto|].
  intros [H|H]; [|exact (IH H)].
  apply String.eqb_neq in E. congruence.
Qed.

Lemma keys_setitem {V} (d : dict V) (k : string) (v : V) :
  In k (keys d) -> keys (setitem d k v) = keys d.
Proof.
  induction d as [|[k' v'] d IH]; simpl; [intros []|].
  destruct (String.eqb k k') eqn:E; [reflexivity|].
  intros [H|H].
  - apply String.eqb_neq in E. congruence.
  - simpl. f_equal. apply IH. exact H.
Qed.

Lemma In_setitem {V} (d : dict V) (k : string) (v : V) (k' : string) (v' : V) :
  In (k', v') (setitem d k v) -> In (k', v') d \/ (k' = k /\ v' = v).
Proof.
  induction d as [|[k0 v0] d IH]; simpl.
  - intros [H|[]]. inversion H; subst. now right.
  - destruct (String.eqb k k0) eqn:E.
    + apply String.eqb_eq in E. subst. intros [H|H].
      * inversion H; subst. now right.
      * left. now right.
    + intros [H|H]; [left; now left|].
      destruct (IH H) as [H'|H']; [left; now right|now right].
Qed.

Lemma set_nth_length {A} (i : nat) (v : A) (l : list A) :
  length (set_nth i v l) = length l.
Proof.
  revert i. induction l as [|a l IH]; intros [|i]; simpl; try reflexivity.
  now rewrite IH.
Qed.

Lemma set_nth_Forall {A} (Q0 : A -> Prop) (i : nat) (v : A) (l : list A) :
  Forall Q0 l -> Q0 v -> Forall Q0 (set_nth i v l).
Proof.
  intros Hl Hv. revert i. induction Hl as [|a l Ha Hl IH]; intros [|i]; simpl;
    constructor; auto.
Qed.

Lemma set_cols_length (cols : list nat) (row : list bool) :
  length (fold_left (fun r c => set_nth c true r) cols row) = length row.
Proof.
  revert row. induction cols as [|c cols IH]; intros row; simpl; [reflexivity|].
  now rewrite IH, set_nth_length.
Qed.

Lemma set_true_shape (E N : nat) (m m' : mask) (i : nat) (cols : list nat) :
  has_shape E N m -> set_true m i cols = Ok m' -> has_shape E N m'.
Proof.
  intros [Hl Hr] H. unfold set_true in H.
  destruct (nth_error m i) as [row|] eqn:En; [|discriminate].
  destruct (forallb (fun c => (c <? length row)%nat) cols); [|discriminate].
  inversion H; subst m'. split.
  - now rewrite set_nth_length.
  - apply set_nth_Forall; [exact Hr|].
    rewrite set_cols_length.
    apply nth_error_In in En. rewrite Forall_forall in Hr. exact (Hr row En).
Qed.

Lemma zeros_shape (E N : nat) : has_shape E N (zeros E N).
Proof.
  unfold has_shape, zeros. split; [apply repeat_length|].
  apply Forall_forall. intros row Hrow. apply repeat_spec in Hrow. subst.
  apply repeat_length.
Qed.

Lemma masks_inv_init (E N : nat) (requested : list string) {F} (metrics : dict F) :
  keys metrics = bad_channels_in_epochs_catalog ->
  masks_inv E N requested (map (fun m => (m, zeros E N)) (keys metrics)).
Proof.
  intros Hk. split.
  - unfold keys at 1. rewrite map_map. simpl. rewrite map_id. exact Hk.
  - intros k v Hin. apply in_map_iff in Hin. destruct Hin as [m [Hm _]].
    inversion Hm; subst. split; [apply zeros_shape|reflexivity].
Qed.

Lemma masks_inv_setitem (E N : nat) (requested : list string) (bads : dict mask)
      (metric : string) (m m' : mask) (i : nat) (cols : list nat) :
  masks_inv E N requested bads ->
  In metric requested ->
  getitem bads metric = Ok m ->
  set_true m i cols = Ok m' ->
  masks_inv E N requested (setitem bads metric m').
Proof.
  intros [Hk Hv] Hreq Hget Hset. unfold getitem in Hget.
  destruct (dict_get bads metric) as [m0|] eqn:Eg; [|discriminate].
  inversion Hget; subst m0. apply dict_get_In in Eg.
  assert (Hkey : In metric (keys bads)).
  { unfold keys. apply in_map_iff. exists (metric, m). split; [reflexivity|exact Eg]. }
  split.
  - rewrite keys_setitem by exact Hkey. exact Hk.
  - intros k v Hin. apply In_setitem in Hin. destruct Hin as [Hin|[-> ->]].
    + exact (Hv k v Hin).
    + split.
      * eapply set_true_shape; [|exact Hset]. exact (proj1 (Hv metric m Eg)).
      * intros Hn. contradiction.
Qed.

(** Whatever the data, the metrics and the selector, a run that returns
    leaves the masks within the invariant. *)
Lemma bad_channels_in_epochs_inv {P} (lib : Externals P) (epochs : Epochs)
      (picks : list nat) (use_metrics : option (list string)) (thresh : Q)
      (max_iter : nat) (eeg_ref_corr : bool) (bads : dict mask) :
  _find_bad_channels_in_epochs lib epochs picks use_metrics thresh max_iter
                               eeg_ref_corr = Ok bads ->
  masks_inv (length (get_data epochs)) (length picks)
            (resolve_metrics (bad_channels_in_epochs_metrics lib epochs) use_metrics)
            bads.
Proof.
  unfold _find_bad_channels_in_epochs. intros H.
  bind_inv H data Hdata.
  assert (HE : length data = length (get_data epochs)).
  { unfold get_picked in Hdata. exact (mapM_length _ _ _ Hdata). }
  rewrite <- HE.
  set (requested := resolve_metrics (bad_channels_in_epochs_metrics lib epochs) use_metrics) in *.
  (* the loop over the channel groups *)
  revert H. apply foldM_inv; [|apply masks_inv_init; reflexivity].
  intros s grp s' _ Hs Hgrp.
  bind_inv Hgrp names Hnames.
  (* the loop over the requested metrics *)
  revert Hgrp. apply foldM_inv; [|exact Hs].
  clear s Hs. intros s metric s1 Hmetric Hs Hm.
  bind_inv Hm f Hf. bind_inv Hm sel Hsel. bind_inv Hm s_epochs Hscores.
  (* the loop over the epochs *)
  revert Hm. apply foldM_inv; [|exact Hs].
  clear s Hs. intros s ie s2 _ Hs He.
  bind_inv He scores Hsc.
  destruct (0 <? length (find_outliers lib scores thresh max_iter))%nat.
  - bind_inv He bad_segment Hbs. bind_inv He cols Hcols.
    bind_inv He m Hget. bind_inv He m' Hset.
    inversion He; subst s2.
    eapply masks_inv_setitem; eassumption.
  - inversion He; subst. exact Hs.
Qed.

(** C10.  Whatever metrics are requested, a run that returns gives a
    dictionary with exactly the five keys of the catalog, and the entry of
    every catalog metric that was not requested is the all-False mask of
    shape (n_epochs, n_picks). *)
Theorem unrequested_metrics_all_false :
  forall (P : Type) (lib : Externals P) (epochs : Epochs) (picks : list nat)
         (requested : list string) (thresh : Q) (max_iter : nat)
         (eeg_ref_corr : bool) (bads : dict mask),
    _find_bad_channels_in_epochs lib epochs picks (Some requested) thresh max_iter
                                 eeg_ref_corr = Ok bads ->
    keys bads = ["amplitude"; "deviation"; "variance"; "median_gradient"; "line_noise"] /\
    forall m, In m bad_channels_in_epochs_catalog -> ~ In m requested ->
      dict_get bads m = Some (zeros (length (get_data epochs)) (length picks)) /\
      has_shape (length (get_data epochs)) (length picks)
                (zeros (length (get_data epochs)) (length picks)) /\
      Forall (Forall (fun cell => cell = false))
             (zeros (length (get_data epochs)) (length picks)).
Proof.
  intros P lib epochs picks requested thresh max_iter corr bads H.
  apply bad_channels_in_epochs_inv in H. destruct H as [Hk Hv].
  split; [exact Hk|].
  intros m Hm Hn. split; [|split].
  - destruct (dict_get_of_key bads m) as [v Hg]; [rewrite Hk; exact Hm|].
    rewrite Hg. f_equal.
    apply dict_get_In in Hg. apply (Hv m v Hg). exact Hn.
  - apply zeros_shape.
  - unfold zeros. apply Forall_forall. intros row Hrow.
    apply repeat_spec in Hrow. subst row.
    apply Forall_forall. intros cell Hc. apply repeat_spec in Hc. exact Hc.
Qed.

Lemma unrequested_metrics_all_false_witness :
  exists bads,
    _find_bad_channels_in_epochs ref_lib small_epochs [0; 1; 2]%nat
      (Some ["variance"]) 1 1 false = Ok bads /\
    dict_get bads "variance" =
      Some [[false; true; false]; [false; false; true]] /\
    dict_get bads "amplitude" = Some (zeros 2 3).
Proof.
  eexists. split; [vm_compute; reflexivity|].
  split; [reflexivity|].
  assert (Hrun : _find_bad_channels_in_epochs ref_lib small_epochs [0; 1; 2]%nat
                   (Some ["variance"]) 1 1 false =
                 Ok [("amplitude", zeros 2 3); ("deviation", zeros 2 3);
                     ("variance", [[false; true; false]; [false; false; true]]);
                     ("median_gradient", zeros 2 3); ("line_noise", zeros 2 3)])
    by (vm_compute; reflexivity).
  destruct (unrequested_metrics_all_false _ ref_lib small_epochs [0; 1; 2]%nat
              ["variance"] 1 1 false _ Hrun) as [_ Hz].
  destruct (Hz "amplitude") as [Hg _].
  - simpl. now left.
  - simpl. intros [Hc|[]]. discriminate.
  - exact Hg.
Defined.

Lemma map2_unit_r {A B} (f : A -> B -> A) (z : B) (l : list A) :
  (forall a, In a l -> f a z = a) -> map2 f l (repeat z (length l)) = l.
Proof.
  unfold map2. induction l as [|a l IH]; intros H; simpl; [reflexivity|].
  rewrite (H a (or_introl eq_refl)). f_equal. apply IH.
  intros b Hb. apply H. now right.
Qed.

Lemma map2_unit_l {A B} (f : A -> B -> B) (z : A) (l : list B) :
  (forall b, In b l -> f z b = b) -> map2 f (repeat z (length l)) l = l.
Proof.
  unfold map2. induction l as [|b l IH]; intros H; simpl; [reflexivity|].
  rewrite (H b (or_introl eq_refl)). f_equal. apply IH.
  intros c Hc. apply H. now right.
Qed.

(** Cell counts of masks: adding the counts of an all-False mask changes
    nothing. *)
Lemma counts_add_zero_r (E N : nat) (c : list (list nat)) :
  has_shape E N c ->
  map2 (map2 Nat.add) c (repeat (repeat O N) E) = c.
Proof.
  intros [Hl Hr]. rewrite <- Hl. apply map2_unit_r.
  intros row Hrow. rewrite Forall_forall in Hr. rewrite <- (Hr row Hrow).
  apply map2_unit_r. intros a _. apply Nat.add_0_r.
Qed.

Lemma counts_add_zero_l (E N : nat) (c : list (list nat)) :
  has_shape E N c ->
  map2 (map2 Nat.add) (repeat (repeat O N) E) c = c.
Proof.
  intros [Hl Hr]. rewrite <- Hl. apply map2_unit_l.
  intros row Hrow. rewrite Forall_forall in Hr. rewrite <- (Hr row Hrow).
  apply map2_unit_l. intros a _. reflexivity.
Qed.

Lemma fold_add_zero_counts (E N : nat) (l : list (list (list nat))) (c : list (list nat)) :
  has_shape E N c ->
  (forall z, In z l -> z = repeat (repeat O N) E) ->
  fold_left (map2 (map2 Nat.add)) l c = c.
Proof.
  intros Hc. induction l as [|z l IH]; intros Hz; simpl; [reflexivity|].
  rewrite (Hz z (or_introl eq_refl)), (counts_add_zero_r E N c Hc).
  apply IH. intros z' Hz'. apply Hz. now right.
Qed.

Lemma counts_of_zeros (E N : nat) : counts_of (zeros E N) = repeat (repeat O N) E.
Proof. unfold counts_of, zeros. now rewrite !map_repeat. Qed.

Lemma counts_of_shape (E N : nat) (m : mask) :
  has_shape E N m -> has_shape E N (counts_of m).
Proof.
  intros [Hl Hr]. unfold counts_of. split; [now rewrite length_map|].
  apply Forall_forall. intros row Hrow. apply in_map_iff in Hrow.
  destruct Hrow as [r [<- Hr']]. rewrite length_map.
  rewrite Forall_forall in Hr. exact (Hr r Hr').
Qed.

Lemma astype_bool_counts (m : mask) : astype_bool (counts_of m) = m.
Proof.
  unfold astype_bool, counts_of. rewrite map_map.
  rewrite <- (map_id m) at 2. apply map_ext. intros row.
  rewrite map_map. rewrite <- (map_id row) at 2. apply map_ext.
  intros []; reflexivity.
Qed.

(** The OR-combination of masks of which all but one are all False is that
    one mask. *)
Lemma sum_masks_single (E N : nat) (l1 l2 : list mask) (v : mask) :
  has_shape E N v ->
  (forall z, In z l1 -> z = zeros E N) ->
  (forall z, In z l2 -> z = zeros E N) ->
  astype_bool (sum_masks (l1 ++ v :: l2)) = v.
Proof.
  intros Hv H1 H2.
  assert (Hc : sum_masks (l1 ++ v :: l2) = counts_of v).
  { unfold sum_masks. rewrite map_app. simpl.
    assert (H2' : forall z, In z (map counts_of l2) -> z = repeat (repeat O N) E).
    { intros z Hz. apply in_map_iff in Hz. destruct Hz as [z0 [<- Hz0]].
      rewrite (H2 z0 Hz0). apply counts_of_zeros. }
    assert (H1' : forall z, In z (map counts_of l1) -> z = repeat (repeat O N) E).
    { intros z Hz. apply in_map_iff in Hz. destruct Hz as [z0 [<- Hz0]].
      rewrite (H1 z0 Hz0). apply counts_of_zeros. }
    pose proof (counts_of_shape E N v Hv) as Hcv.
    destruct (map counts_of l1) as [|z r] eqn:El.
    - simpl. apply (fold_add_zero_counts E N); assumption.
    - simpl. rewrite fold_left_app. simpl.
      rewrite (H1' z (or_introl eq_refl)).
      rewrite (fold_add_zero_counts E N r (repeat (repeat O N) E)).
      + rewrite (counts_add_zero_l E N _ Hcv).
        apply (fold_add_zero_counts E N); assumption.
      + rewrite <- counts_of_zeros. apply counts_of_shape. apply zeros_shape.
      + intros z' Hz'. apply H1'. now right. }
  rewrite Hc. apply astype_bool_counts.
Qed.

Lemma catalog_NoDup : NoDup bad_channels_in_epochs_catalog.
Proof.
  unfold bad_channels_in_epochs_catalog.
  repeat (constructor; [simpl; intuition discriminate|]). constructor.
Qed.

(** With one catalog metric requested, the combination of all masks is the
    mask of that metric. *)
Lemma single_requested_combination (E N : nat) (m : string) (bads : dict mask) :
  masks_inv E N [m] bads ->
  In m bad_channels_in_epochs_catalog ->
  exists v, dict_get bads m = Some v /\ astype_bool (sum_masks (values bads)) = v.
Proof.
  intros [Hk Hv] Hm.
  destruct (dict_get_of_key bads m) as [v Hg]; [rewrite Hk; exact Hm|].
  exists v. split; [exact Hg|].
  apply dict_get_In in Hg.
  destruct (in_split _ _ Hg) as [d1 [d2 Hd]].
  pose proof catalog_NoDup as Hnd. rewrite <- Hk, Hd in Hnd.
  unfold keys in Hnd. rewrite map_app in Hnd. simpl in Hnd.
  pose proof (NoDup_remove_2 _ _ _ Hnd) as Hnot.
  assert (Hz : forall k z, In (k, z) (d1 ++ d2) -> z = zeros E N).
  { intros k z Hin.
    assert (Hin' : In (k, z) bads).
    { rewrite Hd. apply in_app_or in Hin. apply in_or_app.
      destruct Hin; [now left|right; now right]. }
    apply (Hv k z Hin'). intros [Heq|[]]. subst k. apply Hnot.
    rewrite <- map_app. apply in_map_iff. exists (m, z). split; [reflexivity|exact Hin]. }
  rewrite Hd. unfold values. rewrite map_app. simpl.
  apply (sum_masks_single E N).
  - exact (proj1 (Hv m v Hg)).
  - intros z Hin. apply in_map_iff in Hin. destruct Hin as [[k z'] [<- Hin]].
    apply (Hz k z'). apply in_or_app. now left.
  - intros z Hin. apply in_map_iff in Hin. destruct Hin as [[k z'] [<- Hin]].
    apply (Hz k z'). apply in_or_app. now right.
Qed.

(** The entry operation with [return_by_metric] False and one metric
    requested reports, epoch by epoch, the channel names of that metric's
    mask. *)
Lemma flat_result_single_metric {P} (lib : Externals P) (epochs : Epochs)
      (picks : list nat) (method_params : option P) (kw : kwargs) (corr : bool)
      (m : string) (bads : dict mask) :
  _handle_default lib "bad_channels_in_epochs_faster" method_params = Ok kw ->
  kw_use_metrics kw = Some [m] ->
  kw_eeg_ref_corr kw = Some corr ->
  In m bad_channels_in_epochs_catalog ->
  _find_bad_channels_in_epochs lib epochs picks (Some [m]) (kw_thresh kw)
                               (kw_max_iter kw) corr = Ok bads ->
  exists v,
    dict_get bads m = Some v /\
    find_bad_channels_in_epochs lib epochs (Some picks) "faster" method_params false =
      (names <- _bad_mask_to_names (pick_info lib (info epochs) picks) v ;;
       Ok (Flat names)).
Proof.
  intros Hd Hu Hc Hm Hrun.
  pose proof (bad_channels_in_epochs_inv lib epochs picks (Some [m]) _ _ _ bads Hrun) as Hinv.
  simpl in Hinv.
  destruct (single_requested_combination _ _ m bads Hinv Hm) as [v [Hg Hv]].
  exists v. split; [exact Hg|].
  unfold find_bad_channels_in_epochs.
  change ("bad_channels_in_epochs" ++ "_" ++ "faster")%string
    with "bad_channels_in_epochs_faster".
  rewrite Hd. cbv beta iota delta [bind]. rewrite Hc, Hu.
  change (String.eqb "faster" "faster") with true. cbv iota.
  rewrite Hrun. cbv beta iota. rewrite Hv. reflexivity.
Qed.

(** C5.  Every per-metric mask a run returns has shape (n_epochs, n_picks),
    n_picks being the number of selected channels; and when one metric of
    the catalog is requested, combining all returned masks (cell-wise sum of
    all values, then conversion to booleans) gives the mask of that
    metric. *)
Theorem channel_in_epochs_masks_shape :
  forall (P : Type) (lib : Externals P) (epochs : Epochs) (picks : list nat)
         (use_metrics : option (list string)) (thresh : Q) (max_iter : nat)
         (eeg_ref_corr : bool) (bads : dict mask),
    _find_bad_channels_in_epochs lib epochs picks use_metrics thresh max_iter
                                 eeg_ref_corr = Ok bads ->
    (forall m v, In (m, v) bads ->
       has_shape (length (get_data epochs)) (length picks) v) /\
    (forall m, In m bad_channels_in_epochs_catalog -> use_metrics = Some [m] ->
       exists v, dict_get bads m = Some v /\
                 astype_bool (sum_masks (values bads)) = v).
Proof.
  intros P lib epochs picks use_metrics thresh max_iter corr bads H.
  apply bad_channels_in_epochs_inv in H.
  split; [intros m v Hin; exact (proj1 (proj2 H m v Hin))|].
  intros m Hm ->. simpl in H.
  exact (single_requested_combination _ _ m bads H Hm).
Qed.

Lemma channel_in_epochs_masks_shape_witness :
  exists bads,
    _find_bad_channels_in_epochs ref_lib small_epochs [0; 1; 2]%nat
      (Some ["amplitude"]) 1 1 false = Ok bads /\
    has_shape 2 3 [[false; true; true]; [false; false; true]] /\
    dict_get bads "amplitude" = Some [[false; true; true]; [false; false; true]] /\
    astype_bool (sum_masks (values bads)) = [[false; true; true]; [false; false; true]].
Proof.
  assert (Hrun : _find_bad_channels_in_epochs ref_lib small_epochs [0; 1; 2]%nat
                   (Some ["amplitude"]) 1 1 false =
                 Ok [("amplitude", [[false; true; true]; [false; false; true]]);
                     ("deviation", zeros 2 3); ("variance", zeros 2 3);
                     ("median_gradient", zeros 2 3); ("line_noise", zeros 2 3)])
    by (vm_compute; reflexivity).
  destruct (channel_in_epochs_masks_shape _ ref_lib small_epochs [0; 1; 2]%nat
              (Some ["amplitude"]) 1 1 false _ Hrun) as [Hshape Hor].
  destruct (Hor "amplitude") as [v [Hg Hv]].
  - simpl. now left.
  - reflexivity.
  - eexists. split; [exact Hrun|].
    assert (Hveq : v = [[false; true; true]; [false; false; true]]).
    { simpl in Hg. inversion Hg. reflexivity. }
    rewrite Hveq in Hv. split; [|split; [reflexivity|exact Hv]].
    apply (Hshape "amplitude"). simpl. now left.
Defined.

(* ===================================================================== *)
(** ** Theorems: the Hurst exponent                                       *)
(* ===================================================================== *)

Lemma map2_map_same {A B C D} (f : B -> C -> D) (g : A -> B) (h : A -> C) (l : list A) :
  map2 f (map g l) (map h l) = map (fun a => f (g a) (h a)) l.
Proof. unfold map2. rewrite combine_map_same, map_map. reflexivity. Qed.

(** Each channel is treated on its own: the cumulative sum of its first
    differences is filtered twice, and of either output the first
    [len(b) - 1] samples and the last sample are left out of the mean
    square. *)
Lemma hurst_per_channel {P} (lib : Externals P) (x : list (list Q)) :
  _hurst lib x =
  map (fun ch =>
         let y := cumsum (diff ch) in
         let y1 := removelast (skipn 2 (lfilter b1 y)) in
         let y2 := removelast (skipn 4 (lfilter b2 y)) in
         (1 # 2) * np_log2 lib (mean (map sq y2) / mean (map sq y1))) x.
Proof.
  unfold _hurst. cbv zeta. rewrite !map_map.
  rewrite (map2_map_same (fun v2 v1 => (1 # 2) * np_log2 lib (v2 / v1))).
  reflexivity.
Qed.

(** The filters are the second differences of span one and two. *)
Lemma lfilter_b1_at (y0 y1 y2 : Q) (past rest : list Q) :
  exists out,
    lfilter_from b1 (y1 :: y0 :: past) (y2 :: rest) =
      out :: lfilter_from b1 (y2 :: y1 :: y0 :: past) rest /\
    out == y2 - 2 * y1 + y0.
Proof.
  eexists. split; [reflexivity|]. unfold b1, map2, Qsum. simpl. ring.
Qed.

Lemma lfilter_b2_at (y0 y1 y2 y3 y4 : Q) (past rest : list Q) :
  exists out,
    lfilter_from b2 (y3 :: y2 :: y1 :: y0 :: past) (y4 :: rest) =
      out :: lfilter_from b2 (y4 :: y3 :: y2 :: y1 :: y0 :: past) rest /\
    out == y4 - 2 * y2 + y0.
Proof.
  eexists. split; [reflexivity|]. unfold b2, map2, Qsum. simpl. ring.
Qed.

(** C9 at the samples 0, 1, 0, 2, 0, 3, 1, 5.  The cumulative sum of the
    first differences is 1, 0, 2, 0, 3, 1, 5; the two filter outputs are
    1, -2, 3, -4, 5, -5, 6 and 1, 0, 0, 0, 0, 1, 1.  The code leaves the last
    sample of either output out as well, and takes the logarithm of
    (1/2) / (75/4) = 2/75; with only the initial samples dropped the ratio is
    (2/3) / (111/5) = 10/333. *)
Theorem hurst_drops_last_filter_output :
  forall (P : Type) (lib : Externals P),
    map (fun ch => cumsum (diff ch)) hurst_input = [[1; 0; 2; 0; 3; 1; 5]] /\
    (exists ratio,
       _hurst lib hurst_input = [(1 # 2) * np_log2 lib ratio] /\ ratio == 2 # 75) /\
    (exists ratio,
       hurst_initial_dropped lib hurst_input = [(1 # 2) * np_log2 lib ratio] /\
       ratio == 10 # 333) /\
    ~ (2 # 75 == 10 # 333).
Proof.
  intros P lib. split; [|split; [|split]].
  - vm_compute. reflexivity.
  - eexists. split; [reflexivity|]. vm_compute. reflexivity.
  - eexists. split; [reflexivity|]. vm_compute. reflexivity.
  - vm_compute. discriminate.
Qed.

(* ===================================================================== *)
(** ** Theorems: a well-formed run returns                                *)
(* ===================================================================== *)

Lemma foldM_ok {A St} (I : St -> Prop) (f : St -> A -> result St) (l : list A) :
  (forall s a, In a l -> I s -> exists s', f s a = Ok s' /\ I s') ->
  forall s, I s -> exists s', foldM f l s = Ok s' /\ I s'.
Proof.
  induction l as [|a l IH]; intros Hstep s Hs; simpl.
  - exists s. split; [reflexivity|exact Hs].
  - destruct (Hstep s a (or_introl eq_refl) Hs) as [s1 [H1 Hs1]].
    rewrite H1. simpl. apply IH; [|exact Hs1].
    intros s0 a0 Hin. apply Hstep. now right.
Qed.

Lemma mapM_ok {A B} (R : A -> B -> Prop) (f : A -> result B) (l : list A) :
  (forall a, In a l -> exists b, f a = Ok b /\ R a b) ->
  exists r, mapM f l = Ok r /\ Forall2 R l r.
Proof.
  induction l as [|a l IH]; intros H; simpl.
  - exists []. split; [reflexivity|constructor].
  - destruct (H a (or_introl eq_refl)) as [b [Hb HR]].
    destruct IH as [r [Hr HF]]; [intros a0 Hin; apply H; now right|].
    rewrite Hb, Hr. simpl. exists (b :: r). split; [reflexivity|].
    constructor; assumption.
Qed.

Lemma take_idx_ok {A} (l : list A) (idx : list nat) :
  (forall i, In i idx -> (i < length l)%nat) ->
  exists r, take_idx l idx = Ok r /\ length r = length idx /\
            forall a, In a r -> In a l.
Proof.
  intros H. unfold take_idx.
  destruct (mapM_ok (fun i a => nth_error l i = Some a)
              (fun i => match nth_error l i with
                        | Some a => Ok a
                        | None => Err IndexError
                        end) idx) as [r [Hr HF]].
  - intros i Hi. destruct (nth_error l i) as [a|] eqn:E.
    + exists a. split; reflexivity.
    + apply nth_error_None in E. specialize (H i Hi). lia.
  - exists r. split; [exact Hr|]. split.
    + symmetry. exact (Forall2_length HF).
    + intros a Ha. clear Hr. induction HF as [|i b idx' r' Hib HF IH].
      * destruct Ha.
      * destruct Ha as [<-|Ha].
        -- eapply nth_error_In. exact Hib.
        -- apply IH; [|exact Ha]. intros j Hj. apply H. now right.
Qed.

Lemma Forall2_right {A B} (Q0 : B -> Prop) (R : A -> B -> Prop) (l : list A) (r : list B) :
  (forall a b, R a b -> Q0 b) -> Forall2 R l r -> Forall Q0 r.
Proof. intros H HF. induction HF; constructor; eauto. Qed.

Lemma in_combine_seq {A} (l : list A) (i : nat) (a : A) (start : nat) :
  In (i, a) (combine (seq start (length l)) l) ->
  (start <= i < start + length l)%nat /\ In a l.
Proof.
  intros H. split.
  - apply in_combine_l in H. apply in_seq in H. exact H.
  - apply in_combine_r in H. exact H.
Qed.

(** The four metrics that do not need a spectrum return one row of scores
    per epoch and at most one score per channel. *)
Lemma time_domain_metric_ok {P} (lib : Externals P) (epochs : Epochs)
      (metric : string) (n_chs : nat) (sel : list (list (list Q))) :
  In metric ["amplitude"; "deviation"; "variance"; "median_gradient"] ->
  Forall (fun ep => length ep = n_chs) sel ->
  exists f s_epochs,
    getitem (bad_channels_in_epochs_metrics lib epochs) metric = Ok f /\
    f sel = Ok s_epochs /\
    length s_epochs = length sel /\
    Forall (fun scores => (length scores <= n_chs)%nat) s_epochs.
Proof.
  intros Hm Hsel.
  assert (Hmap : forall g : list Q -> Q,
            length (map (map g) sel) = length sel /\
            Forall (fun scores : list Q => (length scores <= n_chs)%nat) (map (map g) sel)).
  { intros g. split; [apply length_map|].
    apply Forall_forall. intros row Hrow. apply in_map_iff in Hrow.
    destruct Hrow as [ep [<- Hep]]. rewrite length_map.
    rewrite Forall_forall in Hsel. rewrite (Hsel ep Hep). lia. }
  simpl in Hm. destruct Hm as [<-|[<-|[<-|[<-|[]]]]].
  - eexists. eexists. split; [reflexivity|]. split; [reflexivity|]. apply Hmap.
  - eexists. eexists. split; [reflexivity|]. split; [reflexivity|].
    unfold _deviation. split; [now rewrite !length_map|].
    apply Forall_forall. intros row Hrow. apply in_map_iff in Hrow.
    destruct Hrow as [r0 [<- Hr0]]. rewrite length_map2.
    apply in_map_iff in Hr0. destruct Hr0 as [ep [<- Hep]]. rewrite length_map.
    rewrite Forall_forall in Hsel. rewrite (Hsel ep Hep). lia.
  - eexists. eexists. split; [reflexivity|]. split; [reflexivity|]. apply Hmap.
  - eexists. eexists. split; [reflexivity|]. split; [reflexivity|]. apply Hmap.
Qed.

Lemma set_true_ok (E N : nat) (m : mask) (i : nat) (cols : list nat) :
  has_shape E N m -> (i < E)%nat -> (forall c, In c cols -> (c < N)%nat) ->
  exists m', set_true m i cols = Ok m'.
Proof.
  intros [Hl Hr] Hi Hc. unfold set_true.
  destruct (nth_error m i) as [row|] eqn:En.
  - assert (Hrow : length row = N).
    { apply nth_error_In in En. rewrite Forall_forall in Hr. exact (Hr row En). }
    assert (Hall : forallb (fun c => (c <? length row)%nat) cols = true).
    { apply forallb_forall. intros c Hin. apply Nat.ltb_lt. rewrite Hrow. exact (Hc c Hin). }
    rewrite Hall. eauto.
  - apply nth_error_None in En. lia.
Qed.

(** X21.  A run on well-formed input returns: the selection indexes channels of
    every epoch, each channel group indexes the selection, the requested
    metrics are time-domain metrics of the catalog, no reference correction
    is asked for, and the selector returns indices of its score vector. *)
Theorem bad_channels_in_epochs_returns :
  forall (P : Type) (lib : Externals P) (epochs : Epochs) (picks : list nat)
         (requested : list string) (thresh : Q) (max_iter : nat),
    (forall ep p, In ep (get_data epochs) -> In p picks -> (p < length ep)%nat) ->
    (forall grp c, In grp (_picks_by_type lib (pick_info lib (info epochs) picks)) ->
                   In c (snd grp) ->
                   (c < length picks)%nat /\
                   (c < length (chs (pick_info lib (info epochs) picks)))%nat) ->
    (forall m, In m requested ->
               In m ["amplitude"; "deviation"; "variance"; "median_gradient"]) ->
    (forall scores i, In i (find_outliers lib scores thresh max_iter) ->
                      (i < length scores)%nat) ->
    exists bads,
      _find_bad_channels_in_epochs lib epochs picks (Some requested) thresh max_iter
                                   false = Ok bads /\
      masks_inv (length (get_data epochs)) (length picks) requested bads.
Proof.
  intros P lib epochs picks requested thresh max_iter Hpicks Hgrp Hreq Hsel.
  unfold _find_bad_channels_in_epochs.
  destruct (mapM_ok (fun (ep r : list (list Q)) => length r = length picks)
              (fun ep => take_idx ep picks) (get_data epochs)) as [data [Hdata HF]].
  { intros ep Hep. destruct (take_idx_ok ep picks) as [r [Hr [Hl _]]].
    - intros p Hp. exact (Hpicks ep p Hep Hp).
    - exists r. split; assumption. }
  unfold get_picked. rewrite Hdata. cbv beta iota delta [bind].
  assert (HE : length data = length (get_data epochs))
    by (symmetry; exact (Forall2_length HF)).
  assert (Hrows : Forall (fun r : list (list Q) => length r = length picks) data).
  { eapply Forall2_right; [|exact HF]. intros a b Hab. exact Hab. }
  rewrite <- HE. cbv zeta.
  apply (foldM_ok (masks_inv (length data) (length picks) requested));
    [|apply masks_inv_init; reflexivity].
  intros s grp Hin Hs.
  destruct (take_idx_ok (ch_names (pick_info lib (info epochs) picks)) (snd grp))
    as [names [Hnames [Hnl _]]].
  { intros c Hc. unfold ch_names. rewrite length_map. exact (proj2 (Hgrp grp c Hin Hc)). }
  rewrite Hnames. cbv beta iota delta [bind].
  apply (foldM_ok (masks_inv (length data) (length picks) requested)); [|exact Hs].
  clear s Hs. intros s metric Hmetric Hs.
  destruct (mapM_ok (fun (ep r : list (list Q)) => length r = length (snd grp))
              (fun ep => take_idx ep (snd grp)) data) as [sel [Hsel' HFs]].
  { intros ep Hep. destruct (take_idx_ok ep (snd grp)) as [r [Hr [Hl _]]].
    - intros c Hc. rewrite Forall_forall in Hrows. rewrite (Hrows ep Hep).
      exact (proj1 (Hgrp grp c Hin Hc)).
    - exists r. split; assumption. }
  assert (Hselrows : Forall (fun ep : list (list Q) => length ep = length (snd grp)) sel).
  { eapply Forall2_right; [|exact HFs]. intros a b Hab. exact Hab. }
  destruct (time_domain_metric_ok lib epochs metric (length (snd grp)) sel
              (Hreq metric Hmetric) Hselrows) as [f [s_epochs [Hf [Hfs [Hlen Hscores]]]]].
  rewrite Hf. cbv beta iota delta [bind]. rewrite Hsel'. rewrite Hfs.
  apply (foldM_ok (masks_inv (length data) (length picks) requested)); [|exact Hs].
  clear s Hs. intros s ie Hie Hs.
  destruct ie as [i_epochs scores]. apply in_combine_seq in Hie.
  destruct Hie as [Hi Hsc]. simpl fst. simpl snd.
  destruct (0 <? length (find_outliers lib scores thresh max_iter))%nat;
    [|exists s; split; [reflexivity|exact Hs]].
  assert (Hout : forall i, In i (find_outliers lib scores thresh max_iter) ->
                           (i < length (snd grp))%nat).
  { intros i Hi'. specialize (Hsel scores i Hi').
    rewrite Forall_forall in Hscores. specialize (Hscores scores Hsc). lia. }
  destruct (take_idx_ok names (find_outliers lib scores thresh max_iter))
    as [bad_segment [Hbs _]].
  { intros i Hi'. rewrite Hnl. exact (Hout i Hi'). }
  destruct (take_idx_ok (snd grp) (find_outliers lib scores thresh max_iter))
    as [cols [Hcols [_ Hcin]]]; [exact Hout|].
  rewrite Hbs, Hcols. cbv beta iota delta [bind].
  destruct Hs as [Hk Hv].
  destruct (dict_get_of_key s metric) as [m Hg].
  { rewrite Hk. specialize (Hreq metric Hmetric). simpl in Hreq. simpl. tauto. }
  assert (Hgi : getitem s metric = Ok m) by (unfold getitem; now rewrite Hg).
  rewrite Hgi.
  destruct (set_true_ok (length data) (length picks) m i_epochs cols) as [m' Hm'].
  - apply (Hv metric m). apply dict_get_In. exact Hg.
  - rewrite Hlen, <- (Forall2_length HFs) in Hi. lia.
  - intros c Hc. exact (proj1 (Hgrp grp c Hin (Hcin c Hc))).
  - rewrite Hm'. exists (setitem s metric m'). split; [reflexivity|].
    eapply masks_inv_setitem; [split; eassumption|exact Hmetric|exact Hgi|exact Hm'].
Qed.

(** The small recording meets the conditions for any list of time-domain
    metrics. *)
Lemma bad_channels_in_epochs_returns_witness :
  exists bads,
    _find_bad_channels_in_epochs ref_lib small_epochs [0; 1; 2]%nat
      (Some ["variance"; "median_gradient"]) 1 2 false = Ok bads /\
    masks_inv 2 3 ["variance"; "median_gradient"] bads.
Proof.
  apply (bad_channels_in_epochs_returns _ ref_lib small_epochs [0; 1; 2]%nat
           ["variance"; "median_gradient"] 1 2).
  - intros ep p Hep Hp. simpl in Hep, Hp.
    destruct Hep as [<-|[<-|[]]]; destruct Hp as [<-|[<-|[<-|[]]]]; simpl; lia.
  - intros grp c Hg Hc. simpl in Hg. destruct Hg as [<-|[]]. simpl in Hc.
    destruct Hc as [<-|[<-|[<-|[]]]]; simpl; lia.
  - intros m Hm. simpl in Hm. simpl. tauto.
  - intros scores i Hi. simpl in Hi. eapply select_outliers_in_range. exact Hi.
Defined.

(* ===================================================================== *)
(** ** Theorems: the helpers of bads.py                                   *)
(* ===================================================================== *)

Lemma dedup_In {A} (eqb : A -> A -> bool) (l : list A) :
  (forall a b, eqb a b = true <-> a = b) ->
  forall x, In x (dedup eqb l) <-> In x l.
Proof.
  intros Heq. induction l as [|a l IH]; intros x; simpl; [tauto|].
  rewrite filter_In, IH. split.
  - intros [H|[H _]]; [now left|now right].
  - intros [H|H]; [now left|].
    destruct (eqb a x) eqn:E.
    + left. now apply Heq.
    + right. split; [exact H|reflexivity].
Qed.

Lemma dedup_NoDup {A} (eqb : A -> A -> bool) (l : list A) :
  (forall a b, eqb a b = true <-> a = b) -> NoDup (dedup eqb l).
Proof.
  intros Heq. induction l as [|a l IH]; simpl; constructor.
  - rewrite filter_In. intros [_ H].
    assert (Ht : eqb a a = true) by now apply Heq.
    rewrite Ht in H. discriminate.
  - apply NoDup_filter. exact IH.
Qed.

Lemma combine_indices_spec {A} (eqb : A -> A -> bool) (bads : dict (list A)) :
  (forall a b, eqb a b = true <-> a = b) ->
  NoDup (_combine_indices eqb bads) /\
  forall x, In x (_combine_indices eqb bads) <->
            exists m v, In (m, v) bads /\ In x v.
Proof.
  intros Heq. unfold _combine_indices. split; [now apply dedup_NoDup|].
  intros x. rewrite (dedup_In eqb _ Heq), in_concat. split.
  - intros [v [Hv Hx]]. apply filter_In in Hv. destruct Hv as [Hv _].
    unfold values in Hv. apply in_map_iff in Hv. destruct Hv as [[m v'] [<- Hin]].
    exists m, v'. split; assumption.
  - intros [m [v [Hin Hx]]]. exists v. split; [|exact Hx].
    apply filter_In. split.
    + unfold values. apply in_map_iff. exists (m, v). split; [reflexivity|exact Hin].
    + apply Nat.ltb_lt. destruct v; [destruct Hx|simpl; lia].
Qed.

(** X1.  The flat summary of a per-metric dictionary holds every item that
    some metric lists, and holds it once: for channel names and for epoch
    indices alike. *)
Theorem combine_indices_is_union :
  forall (by_name : dict (list string)) (by_index : dict (list nat)),
    (NoDup (_combine_indices String.eqb by_name) /\
     forall x, In x (_combine_indices String.eqb by_name) <->
               exists m v, In (m, v) by_name /\ In x v) /\
    (NoDup (_combine_indices Nat.eqb by_index) /\
     forall x, In x (_combine_indices Nat.eqb by_index) <->
               exists m v, In (m, v) by_index /\ In x v).
Proof.
  intros by_name by_index. split.
  - apply combine_indices_spec. intros a b. apply String.eqb_eq.
  - apply combine_indices_spec. intros a b. apply Nat.eqb_eq.
Qed.

Lemma np_where_In (m : list bool) (k : nat) :
  In k (np_where m) <-> nth k m false = true.
Proof.
  unfold np_where. rewrite filter_In, in_seq. split.
  - intros [_ H]. exact H.
  - intros H. split; [|exact H].
    destruct (Nat.lt_ge_cases k (length m)) as [Hlt|Hge]; [lia|].
    rewrite nth_overflow in H by exact Hge. discriminate.
Qed.

Lemma take_idx_In {A} (l : list A) (idx : list nat) (r : list A) :
  take_idx l idx = Ok r ->
  forall a, In a r <-> exists k, In k idx /\ nth_error l k = Some a.
Proof.
  unfold take_idx. revert r. induction idx as [|i idx IH]; intros r H a; simpl in H.
  - inversion H. simpl. split; [intros []|intros [k [[] _]]].
  - destruct (nth_error l i) as [b|] eqn:E; simpl in H; [|discriminate].
    bind_inv H bs Hbs. inversion H; subst r. simpl. rewrite (IH bs Hbs a). split.
    + intros [<-|[k [Hk Hn]]]; [exists i; split; [now left|exact E]|].
      exists k. split; [now right|exact Hn].
    + intros [k [[<-|Hk] Hn]]; [left; congruence|].
      right. exists k. split; assumption.
Qed.

Lemma mapM_nth {A B} (f : A -> result B) (l : list A) (r : list B) (da : A) (db : B) :
  mapM f l = Ok r ->
  forall e, (e < length l)%nat -> f (nth e l da) = Ok (nth e r db).
Proof.
  revert r. induction l as [|a l IH]; intros r H e He; simpl in *; [lia|].
  bind_inv H b Hb. bind_inv H bs Hbs. inversion H; subst r.
  destruct e as [|e]; simpl; [exact Hb|]. apply IH; [exact Hbs|lia].
Qed.

(** X2.  A mask whose True cells all lie at columns that name a channel is
    turned into one list of names per epoch, and a name is in the list of an
    epoch exactly when the mask is True there at a column of that name. *)
Theorem bad_mask_to_names_rows :
  forall (info : Info) (bad_mask : mask),
    (forall row k, In row bad_mask -> nth k row false = true ->
                   (k < length (chs info))%nat) ->
    exists names,
      _bad_mask_to_names info bad_mask = Ok names /\
      length names = length bad_mask /\
      forall e n, (e < length bad_mask)%nat ->
        (In n (nth e names []) <->
         exists k, nth k (nth e bad_mask []) false = true /\
                   nth_error (ch_names info) k = Some n).
Proof.
  intros info bad_mask Hcols. unfold _bad_mask_to_names.
  destruct (mapM_ok (fun (idx : list nat) (r : list string) => True)
              (fun epoch => take_idx (ch_names info) epoch) (map np_where bad_mask))
    as [names [Hnames _]].
  { intros idx Hidx. apply in_map_iff in Hidx. destruct Hidx as [row [<- Hrow]].
    destruct (take_idx_ok (ch_names info) (np_where row)) as [r [Hr _]].
    - intros k Hk. apply np_where_In in Hk. unfold ch_names. rewrite length_map.
      exact (Hcols row k Hrow Hk).
    - exists r. split; [exact Hr|exact I]. }
  exists names. split; [exact Hnames|].
  pose proof (mapM_length _ _ _ Hnames) as Hlen. rewrite length_map in Hlen.
  split; [exact Hlen|].
  intros e n He.
  pose proof (mapM_nth _ _ _ [] [] Hnames e) as Hnth.
  rewrite length_map in Hnth. specialize (Hnth He).
  change [] with (np_where []) in Hnth at 1. rewrite map_nth in Hnth.
  rewrite (take_idx_In _ _ _ Hnth n). split.
  - intros [k [Hk Hn]]. exists k. split; [now apply np_where_In|exact Hn].
  - intros [k [Hk Hn]]. exists k. split; [now apply np_where_In|exact Hn].
Qed.

Lemma bad_mask_to_names_rows_witness :
  _bad_mask_to_names (info small_epochs) [[false; true; true]; [false; false; true]] =
    Ok [["Cz"; "Pz"]; ["Pz"]].
Proof.
  destruct (bad_mask_to_names_rows (info small_epochs)
              [[false; true; true]; [false; false; true]]) as [names [Hn _]].
  - intros row k Hrow Hk. simpl in Hrow.
    destruct (Nat.lt_ge_cases k 3) as [Hlt|Hge]; [exact Hlt|].
    destruct Hrow as [<-|[<-|[]]]; rewrite nth_overflow in Hk by exact Hge;
      discriminate.
  - rewrite Hn. vm_compute in Hn. inversion Hn. reflexivity.
Defined.

Lemma mapM_err {A B} (f : A -> result B) (l : list A) (e : exn) :
  (forall a e', f a = Err e' -> e' = e) ->
  (exists a, In a l /\ f a = Err e) ->
  mapM f l = Err e.
Proof.
  intros Honly [a [Hin Ha]]. induction l as [|b l IH]; [destruct Hin|].
  simpl. destruct (f b) as [v|e'] eqn:E.
  - simpl. destruct Hin as [->|Hin]; [congruence|]. rewrite (IH Hin). reflexivity.
  - simpl. f_equal. exact (Honly b e' E).
Qed.

Lemma take_idx_err_only {A} (l : list A) (idx : list nat) (e : exn) :
  take_idx l idx = Err e -> e = IndexError.
Proof.
  unfold take_idx. induction idx as [|i idx IH]; simpl; [discriminate|].
  destruct (nth_error l i); simpl.
  - destruct (mapM _ idx) eqn:E; simpl; [discriminate|].
    intros H. inversion H; subst. now apply IH.
  - intros H. now inversion H.
Qed.

Lemma take_idx_out_of_range {A} (l : list A) (idx : list nat) :
  (exists k, In k idx /\ (length l <= k)%nat) -> take_idx l idx = Err IndexError.
Proof.
  intros [k [Hk Hle]]. unfold take_idx. apply mapM_err.
  - intros a e'. destruct (nth_error l a); [discriminate|]. intros H. now inversion H.
  - exists k. split; [exact Hk|].
    apply nth_error_None in Hle. rewrite Hle. reflexivity.
Qed.

(** X3.  A mask that is True at a column beyond the channel names makes the
    conversion raise IndexError. *)
Theorem bad_mask_to_names_out_of_range :
  forall (info : Info) (bad_mask : mask),
    (exists row k, In row bad_mask /\ nth k row false = true /\
                   (length (chs info) <= k)%nat) ->
    _bad_mask_to_names info bad_mask = Err IndexError.
Proof.
  intros info bad_mask [row [k [Hrow [Hk Hle]]]]. unfold _bad_mask_to_names.
  apply mapM_err.
  - intros idx e'. apply take_idx_err_only.
  - exists (np_where row). split; [apply in_map; exact Hrow|].
    apply take_idx_out_of_range. exists k. split; [now apply np_where_In|].
    unfold ch_names. rewrite length_map. exact Hle.
Qed.

Lemma bad_mask_to_names_out_of_range_witness :
  _bad_mask_to_names (info small_epochs) [[false; false; false; true]] = Err IndexError.
Proof.
  apply bad_mask_to_names_out_of_range.
  exists [false; false; false; true], 3%nat.
  split; [now left|]. split; [reflexivity|]. simpl. lia.
Defined.

(* ===================================================================== *)
(** ** Theorems: power gradient and deviation                             *)
(* ===================================================================== *)

Lemma diff_length (l : list Q) : length (diff l) = (length l - 1)%nat.
Proof.
  induction l as [|a [|b l] IH]; try reflexivity.
  change (diff (a :: b :: l)) with ((b - a) :: diff (b :: l)).
  simpl length in *. rewrite IH. lia.
Qed.

Lemma last_nonempty_indep {A} (l : list A) (b d d' : A) :
  last (b :: l) d = last (b :: l) d'.
Proof.
  revert b. induction l as [|c l IH]; intros b; [reflexivity|].
  change (last (b :: c :: l) d) with (last (c :: l) d).
  change (last (b :: c :: l) d') with (last (c :: l) d').
  apply IH.
Qed.

(** First differences telescope: their sum is the last entry minus the
    first. *)
Lemma Qsum_diff (a : Q) (l : list Q) :
  Qsum (diff (a :: l)) == last (a :: l) a - a.
Proof.
  revert a. induction l as [|b l IH]; intros a.
  - simpl. ring.
  - change (diff (a :: b :: l)) with ((b - a) :: diff (b :: l)).
    change (Qsum ((b - a) :: diff (b :: l))) with ((b - a) + Qsum (diff (b :: l))).
    rewrite IH.
    change (last (a :: b :: l) a) with (last (b :: l) a).
    rewrite (last_nonempty_indep l b a b). ring.
Qed.

Lemma mean_diff_slope (band : list Q) :
  mean (diff band) ==
  (last band 0 - hd 0 band) / inject_Z (Z.of_nat (length band - 1)).
Proof.
  unfold mean. rewrite diff_length. destruct band as [|a l].
  - simpl. unfold Qdiv. ring.
  - rewrite Qsum_diff. rewrite (last_nonempty_indep l a a 0). reflexivity.
Qed.

(** What the estimator returns has one spectrum per timeseries. *)
Lemma efficient_welch_rows {P} (lib : Externals P) (data : list (list Q)) (sfreq0 : Q)
      (fs : list Q) (ps : list (list Q)) :
  _efficient_welch lib data sfreq0 = Ok (fs, ps) -> length ps = length data.
Proof.
  unfold _efficient_welch, welch. intros H.
  destruct (welch_nperseg lib (shape_last data) sfreq0) as [nperseg|]; [|discriminate].
  cbn [bind] in H.
  destruct (welch_error lib sfreq0 nperseg 0 (shape_last data)); [discriminate|].
  inversion H. simpl. apply length_map.
Qed.

(** X4.  When the estimator raises, the power gradient raises the same
    exception.  Otherwise it raises ValueError, naming the lower limit,
    exactly when the estimate has no bin at or above the lower limit of the
    band; else it returns one value per timeseries, and for a band of at
    least two bins that value is the power at the last bin of the band
    minus the power at its first bin, over the number of steps between
    them. *)
Theorem power_gradient_outcome :
  forall (P : Type) (lib : Externals P) (data : list (list Q)) (sfreq0 : Q) (lo hi : Z),
    match _efficient_welch lib data sfreq0 with
    | Err e => _power_gradient lib data sfreq0 (lo, hi) = Err e
    | Ok (fs, ps) =>
        (reaches fs lo = false /\
         _power_gradient lib data sfreq0 (lo, hi) =
           Err (ValueError (msg_power_gradient lo))) \/
        (reaches fs lo = true /\
         exists g,
           _power_gradient lib data sfreq0 (lo, hi) = Ok g /\
           length g = length data /\
           forall c, (c < length data)%nat ->
             (2 <= length (spectrum_band fs lo hi (nth c ps [])))%nat ->
             nth c g 0 ==
             (last (spectrum_band fs lo hi (nth c ps [])) 0 -
              hd 0 (spectrum_band fs lo hi (nth c ps []))) /
             inject_Z (Z.of_nat (length (spectrum_band fs lo hi (nth c ps [])) - 1)))
    end.
Proof.
  intros P lib data sfreq0 lo hi. unfold _power_gradient.
  destruct (_efficient_welch lib data sfreq0) as [[fs0 ps0]|e] eqn:E; [|reflexivity].
  pose proof (efficient_welch_rows lib data sfreq0 fs0 ps0 E) as Hps.
  cbn [bind fst snd].
  pose proof (searchsorted_in_range fs0 lo) as Hr.
  destruct (reaches fs0 lo) eqn:Er.
  - right. split; [reflexivity|].
    apply Nat.ltb_lt in Hr.
    assert (Hle : (length fs0 <=? searchsorted fs0 (inject_Z lo))%nat = false)
      by (apply Nat.leb_gt; exact Hr).
    rewrite Hle. eexists. split; [reflexivity|].
    rewrite map_map.
    split; [rewrite length_map; exact Hps|].
    intros c Hc _.
    rewrite (nth_indep _ 0
               ((fun r => mean (diff (firstn (searchsorted fs0 (inject_Z hi) -
                                              searchsorted fs0 (inject_Z lo))
                                             (skipn (searchsorted fs0 (inject_Z lo)) r)))) []))
      by (rewrite length_map, Hps; exact Hc).
    rewrite (map_nth (fun r => mean (diff (firstn (searchsorted fs0 (inject_Z hi) -
                                                   searchsorted fs0 (inject_Z lo))
                                                  (skipn (searchsorted fs0 (inject_Z lo)) r))))).
    apply mean_diff_slope.
  - left. split; [reflexivity|].
    apply Nat.ltb_ge in Hr.
    assert (Hle : (length fs0 <=? searchsorted fs0 (inject_Z lo))%nat = true)
      by (apply Nat.leb_le; exact Hr).
    rewrite Hle. reflexivity.
Qed.

(* --------------------------------------------------------------------- *)

Lemma Qsum_map_minus_const {A} (f : A -> Q) (g : Q) (l : list A) :
  Qsum (map (fun x => f x - g) l) ==
  Qsum (map f l) - inject_Z (Z.of_nat (length l)) * g.
Proof.
  induction l as [|a l IH].
  - simpl. ring.
  - change (Qsum (map (fun x => f x - g) (a :: l)))
      with ((f a - g) + Qsum (map (fun x => f x - g) l)).
    change (Qsum (map f (a :: l))) with (f a + Qsum (map f l)).
    rewrite IH. simpl length. rewrite Nat2Z.inj_succ. unfold Z.succ.
    rewrite inject_Z_plus. ring.
Qed.

Lemma nth_map_seq {A} (f : nat -> A) (n j : nat) (d : A) :
  (j < n)%nat -> nth j (map f (seq 0 n)) d = f j.
Proof.
  intros Hj. rewrite (nth_indep _ d (f 0%nat)) by (rewrite length_map, length_seq; exact Hj).
  rewrite map_nth. rewrite seq_nth by exact Hj. reflexivity.
Qed.

(** X5.  For a block of at least one epoch in which every epoch has the
    same number of channels, the deviation has one row per epoch and one
    entry per channel, and for every channel the deviations of the epochs
    add up to zero. *)
Theorem deviation_centred :
  forall (data : list (list (list Q))) (n_channels : nat),
    data <> [] ->
    Forall (fun ep => length ep = n_channels) data ->
    has_shape (length data) n_channels (_deviation data) /\
    forall j, (j < n_channels)%nat -> Qsum (column j (_deviation data)) == 0.
Proof.
  intros data C Hne Hrect. unfold _deviation.
  assert (HC : match data with [] => O | ep :: _ => length ep end = C).
  { destruct data as [|ep data']; [congruence|]. inversion Hrect; subst. reflexivity. }
  rewrite HC.
  set (ch_mean := map (map mean) data).
  assert (Hrows : forall row, In row ch_mean -> length row = C).
  { intros row Hrow. apply in_map_iff in Hrow. destruct Hrow as [ep [<- Hep]].
    rewrite length_map. rewrite Forall_forall in Hrect. exact (Hrect ep Hep). }
  assert (Hgl : length (mean_axis0 C ch_mean) = C).
  { unfold mean_axis0. now rewrite length_map, length_seq. }
  split.
  - split; [unfold ch_mean; now rewrite !length_map|].
    apply Forall_forall. intros r Hr. apply in_map_iff in Hr.
    destruct Hr as [row [<- Hrow]]. rewrite length_map2, Hgl, (Hrows row Hrow).
    apply Nat.min_id.
  - intros j Hj. unfold column at 1. rewrite map_map.
    rewrite (map_ext_in _ (fun row => nth j row 0 - mean (column j ch_mean))).
    + rewrite Qsum_map_minus_const. unfold mean, column.
      rewrite length_map.
      assert (Hn : ~ inject_Z (Z.of_nat (length ch_mean)) == 0).
      { unfold ch_mean. rewrite length_map. destruct data as [|ep data']; [congruence|].
        simpl length. intros H. apply (Qeq_bool_neq _ _) in H; [exact H|].
        reflexivity. }
      field. exact Hn.
    + intros row Hrow.
      rewrite (nth_map2 Qminus row (mean_axis0 C ch_mean) 0 0 0 j)
        by (rewrite ?Hgl, ?(Hrows row Hrow); exact Hj).
      unfold mean_axis0. rewrite (nth_map_seq _ C j 0 Hj). reflexivity.
Qed.

Lemma deviation_centred_witness :
  has_shape 2 3 (_deviation (get_data small_epochs)) /\
  Qsum (column 1 (_deviation (get_data small_epochs))) == 0.
Proof.
  destruct (deviation_centred (get_data small_epochs) 3) as [Hs Hz].
  - discriminate.
  - repeat constructor.
  - split; [exact Hs|]. apply Hz. lia.
Defined.

(* ===================================================================== *)
(** ** Theorems: the Hurst exponent under offset and gain                 *)
(* ===================================================================== *)

Lemma Forall2_skipn {A B} (R : A -> B -> Prop) (n : nat) (l : list A) (l' : list B) :
  Forall2 R l l' -> Forall2 R (skipn n l) (skipn n l').
Proof.
  intros H. revert n. induction H as [|a b l l' Hab H IH]; intros [|n]; simpl;
    try constructor; auto.
Qed.

Lemma Forall2_removelast {A B} (R : A -> B -> Prop) (l : list A) (l' : list B) :
  Forall2 R l l' -> Forall2 R (removelast l) (removelast l').
Proof.
  intros H. induction H as [|a b l l' Hab H IH]; [constructor|].
  destruct H as [|a1 b1 l1 l1' Hab1 H1].
  - constructor.
  - change (removelast (a :: a1 :: l1)) with (a :: removelast (a1 :: l1)).
    change (removelast (b :: b1 :: l1')) with (b :: removelast (b1 :: l1')).
    constructor; [exact Hab|exact IH].
Qed.

(** First differences forget an offset and carry a gain over. *)
Lemma diff_affine (k c : Q) (l : list Q) :
  Forall2 (fun a a' => a' == k * a) (diff l) (diff (map (fun v => k * v + c) l)).
Proof.
  induction l as [|a [|b l] IH]; try constructor.
  - ring.
  - exact IH.
Qed.

Lemma cumsum_from_scaled (k acc acc' : Q) (l l' : list Q) :
  acc' == k * acc ->
  Forall2 (fun a a' => a' == k * a) l l' ->
  Forall2 (fun a a' => a' == k * a) (cumsum_from acc l) (cumsum_from acc' l').
Proof.
  intros Hacc H. revert acc acc' Hacc.
  induction H as [|a a' l l' Ha H IH]; intros acc acc' Hacc; simpl; constructor.
  - rewrite Hacc, Ha. ring.
  - apply IH. rewrite Hacc, Ha. ring.
Qed.

Lemma fir_tap_scaled (k : Q) (b hist hist' : list Q) :
  Forall2 (fun a a' => a' == k * a) hist hist' ->
  Qsum (map2 Qmult b hist') == k * Qsum (map2 Qmult b hist).
Proof.
  intros H. revert b. unfold map2.
  induction H as [|a a' l l' Ha H IH]; intros [|b0 b]; simpl; try ring.
  rewrite IH, Ha. ring.
Qed.

Lemma lfilter_from_scaled (k : Q) (b hist hist' y y' : list Q) :
  Forall2 (fun a a' => a' == k * a) hist hist' ->
  Forall2 (fun a a' => a' == k * a) y y' ->
  Forall2 (fun a a' => a' == k * a) (lfilter_from b hist y) (lfilter_from b hist' y').
Proof.
  intros Hh Hy. revert hist hist' Hh.
  induction Hy as [|a a' y y' Ha Hy IH]; intros hist hist' Hh; simpl; constructor.
  - apply fir_tap_scaled. constructor; assumption.
  - apply IH. constructor; assumption.
Qed.

Lemma mean_sq_scaled (k : Q) (l l' : list Q) :
  Forall2 (fun a a' => a' == k * a) l l' ->
  mean (map sq l') == k * k * mean (map sq l).
Proof.
  intros H. unfold mean. rewrite !length_map, <- (Forall2_length H).
  assert (Hs : Qsum (map sq l') == k * k * Qsum (map sq l)).
  { induction H as [|a a' l l' Ha H IH]; simpl; [ring|].
    rewrite IH. unfold sq. rewrite Ha. ring. }
  rewrite Hs. unfold Qdiv. ring.
Qed.

Lemma ratio_scaled (k s1 s2 : Q) :
  ~ k == 0 -> (k * k * s2) / (k * k * s1) == s2 / s1.
Proof.
  intros Hk. unfold Qdiv. rewrite !Qinv_mult_distr.
  assert (Hkk : k * / k == 1) by (apply Qmult_inv_r; exact Hk).
  setoid_replace (k * k * s2 * (/ k * / k * / s1))
    with ((k * / k) * (k * / k) * (s2 * / s1)) by ring.
  rewrite Hkk. ring.
Qed.

(** X6.  The Hurst estimate of a channel does not change when a constant is
    added to its samples or when they are multiplied by a gain other than
    zero, for a logarithm that gives equal results on equal numbers. *)
Theorem hurst_affine_invariant :
  forall (P : Type) (lib : Externals P) (x : list (list Q)) (k c : Q),
    (forall a b, a == b -> np_log2 lib a == np_log2 lib b) ->
    ~ k == 0 ->
    Forall2 Qeq (_hurst lib (map (map (fun v => k * v + c)) x)) (_hurst lib x).
Proof.
  intros P lib x k c Hlog Hk. rewrite !hurst_per_channel. rewrite map_map.
  induction x as [|ch x IH]; simpl map; constructor; [|exact IH].
  cbv zeta.
  assert (Hy : Forall2 (fun a a' => a' == k * a)
                 (cumsum (diff ch)) (cumsum (diff (map (fun v => k * v + c) ch)))).
  { unfold cumsum. apply cumsum_from_scaled; [ring|apply diff_affine]. }
  assert (H1 : Forall2 (fun a a' => a' == k * a)
                 (removelast (skipn 2 (lfilter b1 (cumsum (diff ch)))))
                 (removelast (skipn 2 (lfilter b1
                    (cumsum (diff (map (fun v => k * v + c) ch))))))).
  { apply Forall2_removelast, Forall2_skipn. unfold lfilter.
    apply lfilter_from_scaled; [constructor|exact Hy]. }
  assert (H2 : Forall2 (fun a a' => a' == k * a)
                 (removelast (skipn 4 (lfilter b2 (cumsum (diff ch)))))
                 (removelast (skipn 4 (lfilter b2
                    (cumsum (diff (map (fun v => k * v + c) ch))))))).
  { apply Forall2_removelast, Forall2_skipn. unfold lfilter.
    apply lfilter_from_scaled; [constructor|exact Hy]. }
  apply Qmult_comp; [reflexivity|]. apply Hlog.
  rewrite (mean_sq_scaled k _ _ H1), (mean_sq_scaled k _ _ H2).
  apply ratio_scaled. exact Hk.
Qed.

(** The computed logarithm depends on the number, not on the fraction that
    denotes it. *)
Lemma ref_log2_comp (a b : Q) : a == b -> ref_log2 a = ref_log2 b.
Proof. intros Hab. unfold ref_log2. now rewrite (Qred_complete a b Hab). Qed.

Lemma hurst_affine_invariant_witness :
  Forall2 Qeq (_hurst ref_lib (map (map (fun v => 3 * v + 7)) hurst_input))
              (_hurst ref_lib hurst_input).
Proof.
  apply hurst_affine_invariant.
  - intros a b Hab. change (np_log2 ref_lib) with ref_log2.
    rewrite (ref_log2_comp a b Hab). reflexivity.
  - discriminate.
Defined.

(* ===================================================================== *)
(** ** Theorems: errors and edges of the three routines                   *)
(* ===================================================================== *)

Lemma get_picked_out_of_range (epochs : Epochs) (picks : list nat) :
  (exists ep p, In ep (get_data epochs) /\ In p picks /\ (length ep <= p)%nat) ->
  get_picked epochs picks = Err IndexError.
Proof.
  intros [ep [p [Hep [Hp Hle]]]]. unfold get_picked. apply mapM_err.
  - intros a e'. apply take_idx_err_only.
  - exists ep. split; [exact Hep|]. apply take_idx_out_of_range.
    exists p. split; assumption.
Qed.

Lemma get_picked_ok (epochs : Epochs) (picks : list nat) :
  picks_in_data epochs picks ->
  exists data, get_picked epochs picks = Ok data /\
               length data = length (get_data epochs) /\
               Forall (fun ep => length ep = length picks) data.
Proof.
  intros Hp. unfold get_picked.
  destruct (mapM_ok (fun (ep r : list (list Q)) => length r = length picks)
              (fun ep => take_idx ep picks) (get_data epochs)) as [data [Hdata HF]].
  { intros ep Hep. destruct (take_idx_ok ep picks) as [r [Hr [Hl _]]].
    - intros p Hin. exact (Hp ep p Hep Hin).
    - exists r. split; assumption. }
  exists data. split; [exact Hdata|]. split.
  - symmetry. exact (Forall2_length HF).
  - eapply Forall2_right; [|exact HF]. intros a b Hab. exact Hab.
Qed.

(** X7.  A selected index that is not a channel of some epoch makes each of
    the three routines raise IndexError, whatever metrics, threshold and
    iteration count are asked for. *)
Theorem picks_out_of_range_raise :
  forall (P : Type) (lib : Externals P) (epochs : Epochs) (picks : list nat)
         (use_metrics : option (list string)) (thresh : Q) (max_iter : nat)
         (eeg_ref_corr : bool),
    (exists ep p, In ep (get_data epochs) /\ In p picks /\ (length ep <= p)%nat) ->
    _find_bad_channels lib epochs picks use_metrics thresh max_iter eeg_ref_corr =
      Err IndexError /\
    _find_bad_epochs lib epochs picks use_metrics thresh max_iter = Err IndexError /\
    _find_bad_channels_in_epochs lib epochs picks use_metrics thresh max_iter
                                 eeg_ref_corr = Err IndexError.
Proof.
  intros P lib epochs picks um thresh mi corr H.
  pose proof (get_picked_out_of_range epochs picks H) as Hg.
  unfold _find_bad_channels, _find_bad_epochs, _find_bad_channels_in_epochs.
  rewrite Hg. repeat split; reflexivity.
Qed.

Lemma picks_out_of_range_raise_witness :
  _find_bad_channels ref_lib small_epochs [0; 5]%nat None 3 1 false = Err IndexError /\
  _find_bad_epochs ref_lib small_epochs [0; 5]%nat None 3 1 = Err IndexError /\
  _find_bad_channels_in_epochs ref_lib small_epochs [0; 5]%nat None 3 1 false =
    Err IndexError.
Proof.
  apply picks_out_of_range_raise.
  exists [[0; 1; 0; 1]; [0; 2; 0; 2]; [1; 1; 1; 1]], 5%nat.
  split; [simpl; now left|]. split; [simpl; tauto|]. simpl. lia.
Defined.

Lemma dict_get_None {V} (d : dict V) (k : string) :
  ~ In k (keys d) -> dict_get d k = None.
Proof.
  induction d as [|[k' v] d IH]; simpl; [reflexivity|].
  intros H. destruct (String.eqb k k') eqn:E.
  - apply String.eqb_eq in E. subst. exfalso. apply H. now left.
  - apply IH. intros Hin. apply H. now right.
Qed.

(** X8.  When the selection is valid and there is at least one channel
    group, a first requested metric that is not in the table of the routine
    makes it raise KeyError with that name. *)
Theorem unknown_metric_raises :
  forall (P : Type) (lib : Externals P) (epochs : Epochs) (picks : list nat)
         (m : string) (ms : list string) (thresh : Q) (max_iter : nat)
         (eeg_ref_corr : bool) (grp : string * list nat)
         (groups : list (string * list nat)),
    picks_in_data epochs picks ->
    _picks_by_type lib (pick_info lib (info epochs) picks) = grp :: groups ->
    (~ In m bad_channels_catalog ->
     _find_bad_channels lib epochs picks (Some (m :: ms)) thresh max_iter eeg_ref_corr =
       Err (KeyError m)) /\
    (~ In m bad_epochs_catalog ->
     _find_bad_epochs lib epochs picks (Some (m :: ms)) thresh max_iter =
       Err (KeyError m)) /\
    (~ In m bad_channels_in_epochs_catalog ->
     (forall c, In c (snd grp) ->
                (c < length (chs (pick_info lib (info epochs) picks)))%nat) ->
     _find_bad_channels_in_epochs lib epochs picks (Some (m :: ms)) thresh max_iter
                                  eeg_ref_corr = Err (KeyError m)).
Proof.
  intros P lib epochs picks m ms thresh mi corr grp groups Hp Hg.
  destruct (get_picked_ok epochs picks Hp) as [data [Hdata _]].
  split; [|split].
  - intros Hm. unfold _find_bad_channels. rewrite Hdata, Hg.
    cbv beta iota delta [bind]. simpl foldM.
    unfold getitem. rewrite (dict_get_None (bad_channels_metrics lib epochs) m Hm).
    reflexivity.
  - intros Hm. unfold _find_bad_epochs. rewrite Hdata, Hg.
    cbv beta iota delta [bind]. simpl foldM.
    unfold getitem. rewrite (dict_get_None bad_epochs_metrics m Hm).
    reflexivity.
  - intros Hm Hc. unfold _find_bad_channels_in_epochs. rewrite Hdata, Hg.
    cbv beta iota delta [bind]. simpl foldM.
    destruct (take_idx_ok (ch_names (pick_info lib (info epochs) picks)) (snd grp))
      as [names [Hnames _]].
    { intros c Hin. unfold ch_names. rewrite length_map. exact (Hc c Hin). }
    rewrite Hnames. cbv beta iota delta [bind].
    unfold getitem.
    rewrite (dict_get_None (bad_channels_in_epochs_metrics lib epochs) m Hm).
    reflexivity.
Qed.

Lemma unknown_metric_raises_witness :
  _find_bad_channels ref_lib small_epochs [0; 1; 2]%nat (Some ["entropy"]) 3 1 false =
    Err (KeyError "entropy") /\
  _find_bad_epochs ref_lib small_epochs [0; 1; 2]%nat (Some ["entropy"]) 3 1 =
    Err (KeyError "entropy") /\
  _find_bad_channels_in_epochs ref_lib small_epochs [0; 1; 2]%nat (Some ["entropy"])
    3 1 false = Err (KeyError "entropy").
Proof.
  assert (Hnot : forall l : list string,
            forallb (fun n => negb (String.eqb "entropy" n)) l = true ->
            ~ In "entropy" l).
  { intros l Hl Hin. rewrite forallb_forall in Hl. specialize (Hl _ Hin).
    rewrite String.eqb_refl in Hl. discriminate. }
  destruct (unknown_metric_raises _ ref_lib small_epochs [0; 1; 2]%nat "entropy" []
              3 1 false ("eeg", [0; 1; 2]%nat) []) as [H1 [H2 H3]].
  - intros ep p Hep Hin. simpl in Hep, Hin.
    destruct Hep as [<-|[<-|[]]]; destruct Hin as [<-|[<-|[<-|[]]]]; simpl; lia.
  - reflexivity.
  - split; [|split].
    + apply H1. apply Hnot. reflexivity.
    + apply H2. apply Hnot. reflexivity.
    + apply H3; [apply Hnot; reflexivity|].
      intros c Hc. simpl in Hc. destruct Hc as [<-|[<-|[<-|[]]]]; simpl; lia.
Defined.

(** X9.  With a valid selection and no channel group nothing is scored: the
    bad-channels and bad-epochs routines return the empty dictionary and
    the bad-channels-in-epochs routine returns the five all-False masks,
    whatever metrics are requested. *)
Theorem no_channel_group_nothing_scored :
  forall (P : Type) (lib : Externals P) (epochs : Epochs) (picks : list nat)
         (use_metrics : option (list string)) (thresh : Q) (max_iter : nat)
         (eeg_ref_corr : bool),
    picks_in_data epochs picks ->
    _picks_by_type lib (pick_info lib (info epochs) picks) = [] ->
    _find_bad_channels lib epochs picks use_metrics thresh max_iter eeg_ref_corr = Ok [] /\
    _find_bad_epochs lib epochs picks use_metrics thresh max_iter = Ok [] /\
    _find_bad_channels_in_epochs lib epochs picks use_metrics thresh max_iter
                                 eeg_ref_corr =
      Ok (map (fun m => (m, zeros (length (get_data epochs)) (length picks)))
              bad_channels_in_epochs_catalog).
Proof.
  intros P lib epochs picks um thresh mi corr Hp Hg.
  destruct (get_picked_ok epochs picks Hp) as [data [Hdata [Hlen _]]].
  unfold _find_bad_channels, _find_bad_epochs, _find_bad_channels_in_epochs.
  rewrite Hdata, Hg. cbv beta iota delta [bind]. simpl foldM.
  rewrite Hlen. repeat split; reflexivity.
Qed.

Lemma no_channel_group_nothing_scored_witness :
  _find_bad_channels ref_lib_no_groups small_epochs [0; 1; 2]%nat
    (Some ["entropy"]) 3 1 true = Ok [] /\
  _find_bad_epochs ref_lib_no_groups small_epochs [0; 1; 2]%nat None 3 1 = Ok [] /\
  _find_bad_channels_in_epochs ref_lib_no_groups small_epochs [0; 1; 2]%nat None 3 1
    false =
    Ok (map (fun m => (m, zeros 2 3)) bad_channels_in_epochs_catalog).
Proof.
  assert (Hp : picks_in_data small_epochs [0; 1; 2]%nat).
  { intros ep p Hep Hin. simpl in Hep, Hin.
    destruct Hep as [<-|[<-|[]]]; destruct Hin as [<-|[<-|[<-|[]]]]; simpl; lia. }
  destruct (no_channel_group_nothing_scored _ ref_lib_no_groups small_epochs
              [0; 1; 2]%nat (Some ["entropy"]) 3 1 true Hp eq_refl) as [H1 _].
  destruct (no_channel_group_nothing_scored _ ref_lib_no_groups small_epochs
              [0; 1; 2]%nat None 3 1 false Hp eq_refl) as [_ [H2 H3]].
  split; [exact H1|]. split; [exact H2|exact H3].
Defined.

(* ===================================================================== *)
(** ** Theorems: what the bad-channels and bad-epochs routines report     *)
(* ===================================================================== *)

Lemma In_dd_append {V} (d : dict (list V)) (k : string) (v : V)
      (k' : string) (l' : list V) :
  In (k', l') (dd_append d k v) ->
  In (k', l') d \/
  (k' = k /\ (l' = [v] \/ exists l, In (k, l) d /\ l' = l ++ [v])).
Proof.
  unfold dd_append. destruct (dict_get d k) as [l|] eqn:E; intros H;
    apply In_setitem in H; destruct H as [H|[-> ->]]; auto.
  right. split; [reflexivity|]. right. exists l. split; [|reflexivity].
  apply dict_get_In. exact E.
Qed.

Lemma mapM_In {A B} (f : A -> result B) (l : list A) (r : list B) :
  mapM f l = Ok r -> forall b, In b r -> exists a, In a l /\ f a = Ok b.
Proof.
  revert r. induction l as [|a l IH]; intros r H b Hb; simpl in H.
  - inversion H; subst. destruct Hb.
  - bind_inv H b0 Hb0. bind_inv H bs Hbs. inversion H; subst r.
    destruct Hb as [<-|Hb].
    + exists a. split; [now left|exact Hb0].
    + destruct (IH bs Hbs b Hb) as [a' [Ha' Hf]]. exists a'. split; [now right|exact Hf].
Qed.

Lemma getidx_Some {A} (l : list A) (i : nat) (a : A) :
  getidx l i = Ok a -> nth_error l i = Some a.
Proof. unfold getidx. destruct (nth_error l i); intros H; inversion H; reflexivity. Qed.

Lemma In_concat_values {V} (bads : dict (list (list V))) (m : string) (names : list V) :
  In (m, names) (map (fun kv => (fst kv, concat (snd kv))) bads) ->
  exists lists, In (m, lists) bads /\ names = concat lists.
Proof.
  intros H. apply in_map_iff in H. destruct H as [[m' lists] [Heq Hin]].
  simpl in Heq. inversion Heq; subst. exists lists. split; [exact Hin|reflexivity].
Qed.

Lemma reports_only_append {V} (requested : list string) (good : V -> Prop)
      (bads : dict (list (list V))) (metric : string) (found : list V) :
  reports_only requested good bads ->
  In metric requested ->
  (forall x, In x found -> good x) ->
  reports_only requested good (dd_append bads metric found).
Proof.
  intros Hinv Hm Hfound m lists Hin.
  apply In_dd_append in Hin. destruct Hin as [Hin|[-> [->|[l [Hl ->]]]]].
  - exact (Hinv m lists Hin).
  - split; [exact Hm|]. intros l [<-|[]]. exact Hfound.
  - split; [exact Hm|]. intros l0 Hl0. apply in_app_or in Hl0.
    destruct Hl0 as [Hl0|[<-|[]]]; [|exact Hfound].
    exact (proj2 (Hinv metric l Hl) l0 Hl0).
Qed.

Lemma reports_only_concat {V} (requested : list string) (good : V -> Prop)
      (bads : dict (list (list V))) (m : string) (items : list V) :
  reports_only requested good bads ->
  In (m, items) (map (fun kv => (fst kv, concat (snd kv))) bads) ->
  In m requested /\ forall x, In x items -> good x.
Proof.
  intros Hinv Hin. apply In_concat_values in Hin. destruct Hin as [lists [Hl ->]].
  destruct (Hinv m lists Hl) as [Hm Hgood]. split; [exact Hm|].
  intros x Hx. apply in_concat in Hx. destruct Hx as [l [Hl' Hx]].
  exact (Hgood l Hl' x Hx).
Qed.

(** X10.  Every key of the dictionary the bad-channels routine returns is a
    requested metric, and every channel name it reports is the name of a
    selected channel that belongs to one of the channel groups. *)
Theorem bad_channels_reports_selected :
  forall (P : Type) (lib : Externals P) (epochs : Epochs) (picks : list nat)
         (use_metrics : option (list string)) (thresh : Q) (max_iter : nat)
         (eeg_ref_corr : bool) (bads : dict (list string)),
    _find_bad_channels lib epochs picks use_metrics thresh max_iter eeg_ref_corr =
      Ok bads ->
    forall m names, In (m, names) bads ->
      In m (resolve_metrics (bad_channels_metrics lib epochs) use_metrics) /\
      forall name, In name names ->
        exists grp c p,
          In grp (_picks_by_type lib (pick_info lib (info epochs) picks)) /\
          In c (snd grp) /\
          nth_error picks c = Some p /\
          nth_error (ch_names (info epochs)) p = Some name.
Proof.
  intros P lib epochs picks um thresh mi corr bads H m names Hin.
  unfold _find_bad_channels in H.
  bind_inv H data Hdata. bind_inv H pre Hpre. inversion H; subst bads. clear H.
  revert Hin. apply reports_only_concat.
  revert Hpre. apply foldM_inv; [|intros m0 lists []].
  intros s grp s' Hgrp Hs Hstep.
  revert Hstep. apply foldM_inv; [|exact Hs].
  clear s Hs. intros s metric s1 Hmetric Hs Hm.
  bind_inv Hm f Hf. bind_inv Hm rows Hrows. bind_inv Hm scores0 Hsc0.
  bind_inv Hm scores Hsc. bind_inv Hm outliers Hol. bind_inv Hm bad_channels Hbc.
  inversion Hm; subst s1.
  apply reports_only_append; [exact Hs|exact Hmetric|].
  intros name Hname.
  destruct (mapM_In _ _ _ Hbc name Hname) as [i [_ Hi]].
  bind_inv Hi c Hc. bind_inv Hi p Hp.
  exists grp, c, p. split; [exact Hgrp|]. split.
  - apply getidx_Some in Hc. eapply nth_error_In. exact Hc.
  - split; [now apply getidx_Some|now apply getidx_Some].
Qed.

Lemma bad_channels_reports_selected_witness :
  exists grp c p,
    In grp (_picks_by_type ref_lib (pick_info ref_lib (info small_epochs) [2; 0]%nat)) /\
    In c (snd grp) /\
    nth_error [2; 0]%nat c = Some p /\
    nth_error (ch_names (info small_epochs)) p = Some "Pz".
Proof.
  assert (Hrun : _find_bad_channels ref_lib small_epochs [2; 0]%nat
                   (Some ["variance"; "hurst"]) (1 # 2) 1 false =
                 Ok [("variance", ["Pz"; "Fz"]); ("hurst", ["Pz"; "Fz"])])
    by (vm_compute; reflexivity).
  destruct (bad_channels_reports_selected _ ref_lib small_epochs [2; 0]%nat
              (Some ["variance"; "hurst"]) (1 # 2) 1 false _ Hrun
              "hurst" ["Pz"; "Fz"]) as [_ Hnames].
  - simpl. right. now left.
  - apply Hnames. now left.
Defined.

Lemma bad_epochs_metric_length (metric : string)
      (f : list (list (list Q)) -> result (list Q))
      (sel : list (list (list Q))) (scores : list Q) :
  getitem bad_epochs_metrics metric = Ok f ->
  f sel = Ok scores ->
  length scores = length sel.
Proof.
  unfold getitem, bad_epochs_metrics. simpl.
  destruct (String.eqb metric "amplitude");
    [intros H; inversion H; subst f; intros Hs; inversion Hs; apply length_map|].
  destruct (String.eqb metric "deviation").
  { intros H; inversion H; subst f. intros Hs; inversion Hs.
    unfold _deviation. now rewrite !length_map. }
  destruct (String.eqb metric "variance");
    [intros H; inversion H; subst f; intros Hs; inversion Hs; apply length_map|].
  discriminate.
Qed.

(** X11.  When the outlier selector returns indices of its score vector,
    every key of the dictionary the bad-epochs routine returns is a
    requested metric and every epoch it reports is an index of an epoch of
    the recording. *)
Theorem bad_epochs_reports_epochs :
  forall (P : Type) (lib : Externals P) (epochs : Epochs) (picks : list nat)
         (use_metrics : option (list string)) (thresh : Q) (max_iter : nat)
         (bads : dict (list nat)),
    (forall scores i, In i (find_outliers lib scores thresh max_iter) ->
                      (i < length scores)%nat) ->
    _find_bad_epochs lib epochs picks use_metrics thresh max_iter = Ok bads ->
    forall m found, In (m, found) bads ->
      In m (resolve_metrics bad_epochs_metrics use_metrics) /\
      forall i, In i found -> (i < length (get_data epochs))%nat.
Proof.
  intros P lib epochs picks um thresh mi bads Hsel H m found Hin.
  unfold _find_bad_epochs in H.
  bind_inv H data Hdata. bind_inv H pre Hpre. inversion H; subst bads. clear H.
  assert (HE : length data = length (get_data epochs))
    by (unfold get_picked in Hdata; exact (mapM_length _ _ _ Hdata)).
  revert Hin. apply reports_only_concat.
  revert Hpre. apply foldM_inv; [|intros m0 lists []].
  intros s grp s' Hgrp Hs Hstep.
  revert Hstep. apply foldM_inv; [|exact Hs].
  clear s Hs. intros s metric s1 Hmetric Hs Hm.
  bind_inv Hm f Hf. bind_inv Hm sel Hselm. bind_inv Hm scores Hsc.
  inversion Hm; subst s1.
  apply reports_only_append; [exact Hs|exact Hmetric|].
  intros i Hi. specialize (Hsel scores i Hi).
  rewrite (bad_epochs_metric_length metric f sel scores Hf Hsc) in Hsel.
  rewrite (mapM_length _ _ _ Hselm), HE in Hsel. exact Hsel.
Qed.

Lemma bad_epochs_reports_epochs_witness :
  _find_bad_epochs ref_lib small_epochs [0; 1; 2]%nat None (1 # 2) 1 =
    Ok [("amplitude", [0; 1]%nat); ("deviation", [0; 1]%nat); ("variance", [0; 1]%nat)] /\
  (1 < length (get_data small_epochs))%nat.
Proof.
  assert (Hrun : _find_bad_epochs ref_lib small_epochs [0; 1; 2]%nat None (1 # 2) 1 =
                 Ok [("amplitude", [0; 1]%nat); ("deviation", [0; 1]%nat);
                     ("variance", [0; 1]%nat)])
    by (vm_compute; reflexivity).
  split; [exact Hrun|].
  destruct (bad_epochs_reports_epochs _ ref_lib small_epochs [0; 1; 2]%nat None (1 # 2) 1
              _ (fun scores i Hi => select_outliers_in_range scores (1 # 2) 1%nat i Hi)
              Hrun "deviation" [0; 1]%nat) as [_ Hidx].
  - simpl. right. now left.
  - apply Hidx. simpl. right. now left.
Defined.

(* ===================================================================== *)
(** ** Theorems: flat and per-metric results of the entry operations      *)
(* ===================================================================== *)

(** X12.  For the same arguments, when an entry operation returns the
    per-metric dictionary with [return_by_metric] True, it returns with
    [return_by_metric] False a list without duplicates that holds exactly
    the items some metric lists: channel names for [find_bad_channels],
    epoch indices for [find_bad_epochs]. *)
Theorem flat_is_union_of_by_metric :
  forall (P : Type) (lib : Externals P) (epochs : Epochs)
         (picks : option (list nat)) (method : string) (method_params : option P),
    (forall d,
       find_bad_channels lib epochs picks method method_params true = Ok (ByMetric d) ->
       exists l,
         find_bad_channels lib epochs picks method method_params false = Ok (Flat l) /\
         NoDup l /\
         forall x, In x l <-> exists m v, In (m, v) d /\ In x v) /\
    (forall d,
       find_bad_epochs lib epochs picks true method method_params = Ok (ByMetric d) ->
       exists l,
         find_bad_epochs lib epochs picks false method method_params = Ok (Flat l) /\
         NoDup l /\
         forall x, In x l <-> exists m v, In (m, v) d /\ In x v).
Proof.
  intros P lib epochs picks method mp. split.
  - intros d H. unfold find_bad_channels in *.
    bind_inv H kw Hkw. rewrite Hkw. cbv beta iota delta [bind].
    bind_inv H bads Hbads. rewrite Hbads. cbv beta iota.
    inversion H; subst d.
    exists (_combine_indices String.eqb bads). split; [reflexivity|].
    apply combine_indices_spec. intros a b. apply String.eqb_eq.
  - intros d H. unfold find_bad_epochs in *.
    bind_inv H kw Hkw. rewrite Hkw. cbv beta iota delta [bind].
    bind_inv H bads Hbads. rewrite Hbads. cbv beta iota.
    inversion H; subst d.
    exists (_combine_indices Nat.eqb bads). split; [reflexivity|].
    apply combine_indices_spec. intros a b. apply Nat.eqb_eq.
Qed.

(** On the small recording with the defaults replaced by a threshold of one
    half, both bad-epochs results are returned and agree. *)
Example flat_is_union_small :
  find_bad_epochs ref_lib small_epochs None true "faster"
    (Some (mkKwargs None (1 # 2) 1 None)) =
    Ok (ByMetric [("amplitude", [0; 1]%nat); ("deviation", [0; 1]%nat);
                  ("variance", [0; 1]%nat)]) /\
  find_bad_epochs ref_lib small_epochs None false "faster"
    (Some (mkKwargs None (1 # 2) 1 None)) = Ok (Flat [0; 1]%nat).
Proof. split; vm_compute; reflexivity. Qed.

(* ===================================================================== *)
(** ** Theorems: the reference correction inside the routines             *)
(* ===================================================================== *)

(** The positions on missing geometry: one ValueError for all numeric
    routines. *)
Lemma reference_angles_raises (info : Info) (picks : list nat) :
  picks_valid info picks ->
  (exists c, In c (picked_chs info picks) /\
             (all_zero (sensor_pos c) = true \/ all_zero (reference_pos c) = true)) ->
  exists msg, forall (P : Type) (lib : Externals P),
    reference_angles lib info picks = Err (ValueError msg).
Proof.
  intros Hv [c [Hin Hz]].
  exists (if existsb all_zero (map sensor_pos (picked_chs info picks))
          then msg_no_position else msg_no_reference).
  intros P lib. unfold reference_angles.
  rewrite (mapM_chs _ (fun c => firstn 3 (loc c)) info picks Hv).
  rewrite (mapM_chs _ (fun c => firstn 3 (skipn 3 (loc c))) info picks Hv).
  cbv beta iota delta [bind].
  destruct picks as [|p0 picks']; [destruct Hin|].
  change (map (fun c0 => firstn 3 (loc c0))) with (map sensor_pos).
  change (map (fun c0 => firstn 3 (skipn 3 (loc c0)))) with (map reference_pos).
  destruct (existsb all_zero (map sensor_pos (picked_chs info (p0 :: picks')))) eqn:E1;
    [reflexivity|].
  destruct (existsb all_zero (map reference_pos (picked_chs info (p0 :: picks')))) eqn:E2;
    [reflexivity|].
  exfalso. rewrite existsb_map in E1, E2.
  destruct Hz as [Hz|Hz].
  - assert (Ht : existsb (fun a => all_zero (sensor_pos a))
                   (picked_chs info (p0 :: picks')) = true)
      by (apply existsb_exists; exists c; split; assumption).
    congruence.
  - assert (Ht : existsb (fun a => all_zero (reference_pos a))
                   (picked_chs info (p0 :: picks')) = true)
      by (apply existsb_exists; exists c; split; assumption).
    congruence.
Qed.

(** The corrector on missing geometry: one ValueError for all scores, a
    vector or the 0-d constant, and all numeric routines. *)
Lemma correct_scores_raises (info : Info) (picks : list nat) :
  picks_valid info picks ->
  (exists c, In c (picked_chs info picks) /\
             (all_zero (sensor_pos c) = true \/ all_zero (reference_pos c) = true)) ->
  exists msg, forall (P : Type) (lib : Externals P),
    (forall x, _distance_correction lib info picks x = Err (ValueError msg)) /\
    (forall s, correct_scores lib info picks s = Err (ValueError msg)).
Proof.
  intros Hv Hgeo. destruct (reference_angles_raises info picks Hv Hgeo) as [msg Hmsg].
  exists msg. intros P lib.
  assert (Hx : forall x, _distance_correction lib info picks x = Err (ValueError msg)).
  { intros x. unfold _distance_correction. rewrite Hmsg. reflexivity. }
  split; [exact Hx|].
  intros [x|]; unfold correct_scores; [rewrite Hx|rewrite Hmsg]; reflexivity.
Qed.

(** X13.  A selected index that names no channel of the metadata makes the
    corrector raise IndexError, whatever the positions of the other
    channels. *)
Theorem distance_correction_pick_out_of_range :
  forall (P : Type) (lib : Externals P) (info : Info) (picks : list nat) (x : list Q),
    (exists p, In p picks /\ (length (chs info) <= p)%nat) ->
    _distance_correction lib info picks x = Err IndexError.
Proof.
  intros P lib info picks x [p [Hp Hle]]. unfold _distance_correction, reference_angles.
  rewrite (mapM_err _ picks IndexError); [reflexivity| |].
  - intros a e'. destruct (nth_error (chs info) a); [discriminate|].
    intros H. now inversion H.
  - exists p. split; [exact Hp|].
    apply nth_error_None in Hle. rewrite Hle. reflexivity.
Qed.

Lemma distance_correction_pick_out_of_range_witness :
  _distance_correction ref_lib info_without_reference [0; 2]%nat [1; 2] = Err IndexError.
Proof.
  apply distance_correction_pick_out_of_range.
  exists 2%nat. split; [simpl; tauto|]. simpl. lia.
Defined.

Lemma concat_epochs_length (n : nat) (data : list (list (list Q))) :
  length (concat_epochs n data) = n.
Proof. unfold concat_epochs. now rewrite length_map, length_seq. Qed.

(** What a metric of the bad-channels table does on any rows: it returns
    scores or raises ValueError, or, for the line noise, what the estimator
    has raised. *)
Lemma bad_channels_metric_outcome {P} (lib : Externals P) (epochs : Epochs)
      (m : string) (rows : list (list Q)) :
  In m bad_channels_catalog ->
  exists f, getitem (bad_channels_metrics lib epochs) m = Ok f /\
            ((exists scores, f rows = Ok scores) \/
             (exists msg, f rows = Err (ValueError msg)) \/
             (m = "line_noise" /\
              exists e, f rows = Err e /\
                        _efficient_welch lib rows (sfreq (info epochs)) = Err e)).
Proof.
  intros Hm. simpl in Hm.
  destruct Hm as [<-|[<-|[<-|[<-|[<-|[]]]]]];
    eexists; (split; [reflexivity|]); try (left; eexists; reflexivity).
  cbv beta. rewrite freqs_power_line_freqs.
  destruct (_efficient_welch lib rows (sfreq (info epochs))) as [[fs ps]|e].
  - destruct (reaches fs 50 && reaches fs 60);
      [left; eexists; reflexivity|right; left; eexists; reflexivity].
  - right. right. split; [reflexivity|]. exists e. split; reflexivity.
Qed.

(** X14.  With the reference correction enabled, a valid selection, a first
    channel group that indexes the selection and a first requested metric
    of the table, the bad-channels routine returns no result when a
    selected channel has an all-zero sensor position or an all-zero
    reference position: it raises ValueError, unless that metric is the
    line noise and the spectral estimator has raised first. *)
Theorem bad_channels_missing_geometry_raises :
  forall (P : Type) (lib : Externals P) (epochs : Epochs) (picks : list nat)
         (m : string) (ms : list string) (thresh : Q) (max_iter : nat)
         (grp : string * list nat) (groups : list (string * list nat)),
    picks_in_data epochs picks ->
    picks_valid (info epochs) picks ->
    _picks_by_type lib (pick_info lib (info epochs) picks) = grp :: groups ->
    (forall c, In c (snd grp) -> (c < length picks)%nat) ->
    In m bad_channels_catalog ->
    (exists c, In c (picked_chs (info epochs) picks) /\
               (all_zero (sensor_pos c) = true \/ all_zero (reference_pos c) = true)) ->
    exists e,
      _find_bad_channels lib epochs picks (Some (m :: ms)) thresh max_iter true = Err e /\
      ((exists msg, e = ValueError msg) \/
       (m = "line_noise" /\
        exists x : list (list Q),
          _efficient_welch lib x (sfreq (info epochs)) = Err e)).
Proof.
  intros P lib epochs picks m ms thresh mi grp groups Hp Hv Hg Hc Hm Hgeo.
  destruct (get_picked_ok epochs picks Hp) as [data [Hdata _]].
  destruct (correct_scores_raises (info epochs) picks Hv Hgeo) as [msg Hmsg].
  destruct (Hmsg P lib) as [_ Hcorr].
  destruct (take_idx_ok (concat_epochs (length picks) data) (snd grp))
    as [rows [Hrows _]].
  { intros c Hin. rewrite concat_epochs_length. exact (Hc c Hin). }
  destruct (bad_channels_metric_outcome lib epochs m rows Hm)
    as [f [Hf [[scores Hs]|[[msg' Hs]|[Hline [e [Hs He]]]]]]].
  - exists (ValueError msg). split; [|left; eexists; reflexivity].
    unfold _find_bad_channels. rewrite Hdata, Hg.
    cbv beta iota delta [bind]. simpl foldM. rewrite Hf.
    cbv beta iota delta [bind]. rewrite Hrows, Hs, Hcorr. reflexivity.
  - exists (ValueError msg'). split; [|left; eexists; reflexivity].
    unfold _find_bad_channels. rewrite Hdata, Hg.
    cbv beta iota delta [bind]. simpl foldM. rewrite Hf.
    cbv beta iota delta [bind]. rewrite Hrows, Hs. reflexivity.
  - exists e. split; [|right; split; [exact Hline|exists rows; exact He]].
    unfold _find_bad_channels. rewrite Hdata, Hg.
    cbv beta iota delta [bind]. simpl foldM. rewrite Hf.
    cbv beta iota delta [bind]. rewrite Hrows, Hs. reflexivity.
Qed.

Lemma bad_channels_missing_geometry_raises_witness :
  _find_bad_channels ref_lib epochs_without_reference [0; 1]%nat
    (Some ["variance"; "kurtosis"]) 3 1 true = Err (ValueError msg_no_reference).
Proof.
  destruct (bad_channels_missing_geometry_raises _ ref_lib epochs_without_reference
              [0; 1]%nat "variance" ["kurtosis"] 3 1 ("eeg", [0; 1]%nat) [])
    as [e [Hmsg _]].
  - intros ep p Hep Hin. simpl in Hep, Hin.
    destruct Hep as [<-|[]]; destruct Hin as [<-|[<-|[]]]; simpl; lia.
  - repeat constructor.
  - reflexivity.
  - intros c Hc. simpl in Hc. destruct Hc as [<-|[<-|[]]]; simpl; lia.
  - simpl. tauto.
  - exists (mkCh "Cz" "eeg" [0; 1; 0; 0; 0; 0]). split.
    + simpl. right. left. reflexivity.
    + right. reflexivity.
  - rewrite Hmsg. vm_compute in Hmsg. inversion Hmsg. reflexivity.
Defined.

(** What a metric of the bad-channels-in-epochs table does on any block: it
    returns one row of scores per epoch or raises ValueError, or, for the
    line noise, what the estimator has raised. *)
Lemma bad_channels_in_epochs_metric_outcome {P} (lib : Externals P) (epochs : Epochs)
      (m : string) (sel : list (list (list Q))) :
  In m bad_channels_in_epochs_catalog ->
  exists f, getitem (bad_channels_in_epochs_metrics lib epochs) m = Ok f /\
            ((exists s_epochs, f sel = Ok s_epochs /\ length s_epochs = length sel) \/
             (exists msg, f sel = Err (ValueError msg)) \/
             (m = "line_noise" /\
              exists e, f sel = Err e /\
                        _efficient_welch lib sel (sfreq (info epochs)) = Err e)).
Proof.
  intros Hm. simpl in Hm.
  destruct Hm as [<-|[<-|[<-|[<-|[<-|[]]]]]];
    eexists; (split; [reflexivity|]).
  - left. eexists. split; [reflexivity|apply length_map].
  - left. eexists. split; [reflexivity|]. unfold _deviation. now rewrite !length_map.
  - left. eexists. split; [reflexivity|apply length_map].
  - left. eexists. split; [reflexivity|apply length_map].
  - cbv beta. rewrite freqs_power_line_freqs.
    destruct (_efficient_welch lib sel (sfreq (info epochs))) as [[fs ps]|e] eqn:E.
    + destruct (reaches fs 50 && reaches fs 60);
        [left|right; left; eexists; reflexivity].
      eexists. split; [reflexivity|].
      assert (Hps : length ps = length sel).
      { unfold _efficient_welch, welch in E.
        destruct (welch_nperseg lib (shape_last sel) (sfreq (info epochs)))
          as [nperseg|]; [|discriminate].
        cbn [bind] in E.
        destruct (welch_error lib (sfreq (info epochs)) nperseg 0 (shape_last sel));
          [discriminate|].
        inversion E. simpl. apply length_map. }
      simpl. rewrite length_map2, !length_map, Hps. apply Nat.min_id.
    + right. right. split; [reflexivity|]. exists e. split; reflexivity.
Qed.

(** X15.  With the reference correction enabled, at least one epoch, a
    valid selection, a first channel group that indexes the selection and
    the picked metadata, and a first requested metric of the table, the
    bad-channels-in-epochs routine returns no mask when a selected channel
    has an all-zero sensor position or an all-zero reference position: it
    raises ValueError, unless that metric is the line noise and the
    spectral estimator has raised first. *)
Theorem bad_channels_in_epochs_missing_geometry_raises :
  forall (P : Type) (lib : Externals P) (epochs : Epochs) (picks : list nat)
         (m : string) (ms : list string) (thresh : Q) (max_iter : nat)
         (grp : string * list nat) (groups : list (string * list nat)),
    get_data epochs <> [] ->
    picks_in_data epochs picks ->
    picks_valid (info epochs) picks ->
    _picks_by_type lib (pick_info lib (info epochs) picks) = grp :: groups ->
    (forall c, In c (snd grp) ->
               (c < length picks)%nat /\
               (c < length (chs (pick_info lib (info epochs) picks)))%nat) ->
    In m bad_channels_in_epochs_catalog ->
    (exists c, In c (picked_chs (info epochs) picks) /\
               (all_zero (sensor_pos c) = true \/ all_zero (reference_pos c) = true)) ->
    exists e,
      _find_bad_channels_in_epochs lib epochs picks (Some (m :: ms)) thresh max_iter
                                   true = Err e /\
      ((exists msg, e = ValueError msg) \/
       (m = "line_noise" /\
        exists x : list (list (list Q)),
          _efficient_welch lib x (sfreq (info epochs)) = Err e)).
Proof.
  intros P lib epochs picks m ms thresh mi grp groups Hne Hp Hv Hg Hc Hm Hgeo.
  destruct (get_picked_ok epochs picks Hp) as [data [Hdata [Hlen Hrect]]].
  destruct (correct_scores_raises (info epochs) picks Hv Hgeo) as [msg Hmsg0].
  destruct (Hmsg0 P lib) as [Hmsg _].
  destruct (take_idx_ok (ch_names (pick_info lib (info epochs) picks)) (snd grp))
    as [names [Hnames _]].
  { intros c Hin. unfold ch_names. rewrite length_map. exact (proj2 (Hc c Hin)). }
  destruct (mapM_ok (fun (ep r : list (list Q)) => True)
              (fun ep => take_idx ep (snd grp)) data) as [sel [Hsel HF]].
  { intros ep Hep. destruct (take_idx_ok ep (snd grp)) as [r [Hr _]].
    - intros c Hin. rewrite Forall_forall in Hrect. rewrite (Hrect ep Hep).
      exact (proj1 (Hc c Hin)).
    - exists r. split; [exact Hr|exact I]. }
  assert (Hsl : length sel = length (get_data epochs))
    by (rewrite <- (Forall2_length HF); exact Hlen).
  destruct (bad_channels_in_epochs_metric_outcome lib epochs m sel Hm)
    as [f [Hf [[s_epochs [Hs Hsn]]|[[msg' Hs]|[Hline [e [Hs He]]]]]]].
  - exists (ValueError msg). split; [|left; eexists; reflexivity].
    unfold _find_bad_channels_in_epochs. rewrite Hdata, Hg.
    cbv beta iota delta [bind]. simpl foldM. rewrite Hnames.
    cbv beta iota delta [bind]. rewrite Hf.
    cbv beta iota delta [bind]. rewrite Hsel, Hs.
    destruct s_epochs as [|sc rest].
    { exfalso. simpl in Hsn. rewrite <- Hsn in Hsl.
      destruct (get_data epochs); [congruence|discriminate]. }
    simpl. rewrite Hmsg. reflexivity.
  - exists (ValueError msg'). split; [|left; eexists; reflexivity].
    unfold _find_bad_channels_in_epochs. rewrite Hdata, Hg.
    cbv beta iota delta [bind]. simpl foldM. rewrite Hnames.
    cbv beta iota delta [bind]. rewrite Hf.
    cbv beta iota delta [bind]. rewrite Hsel, Hs. reflexivity.
  - exists e. split; [|right; split; [exact Hline|exists sel; exact He]].
    unfold _find_bad_channels_in_epochs. rewrite Hdata, Hg.
    cbv beta iota delta [bind]. simpl foldM. rewrite Hnames.
    cbv beta iota delta [bind]. rewrite Hf.
    cbv beta iota delta [bind]. rewrite Hsel, Hs. reflexivity.
Qed.

Lemma bad_channels_in_epochs_missing_geometry_raises_witness :
  _find_bad_channels_in_epochs ref_lib epochs_without_reference [0; 1]%nat
    (Some ["amplitude"]) 3 1 true = Err (ValueError msg_no_reference).
Proof.
  destruct (bad_channels_in_epochs_missing_geometry_raises _ ref_lib
              epochs_without_reference [0; 1]%nat "amplitude" [] 3 1
              ("eeg", [0; 1]%nat) []) as [e [Hmsg _]].
  - discriminate.
  - intros ep p Hep Hin. simpl in Hep, Hin.
    destruct Hep as [<-|[]]; destruct Hin as [<-|[<-|[]]]; simpl; lia.
  - repeat constructor.
  - reflexivity.
  - intros c Hc. simpl in Hc. destruct Hc as [<-|[<-|[]]]; simpl; lia.
  - simpl. tauto.
  - exists (mkCh "Cz" "eeg" [0; 1; 0; 0; 0; 0]). split.
    + simpl. right. left. reflexivity.
    + right. reflexivity.
  - rewrite Hmsg. vm_compute in Hmsg. inversion Hmsg. reflexivity.
Defined.

(* ===================================================================== *)
(** ** Theorems: where the masks can be True                              *)
(* ===================================================================== *)

Lemma nth_set_nth {A} (i k : nat) (v d : A) (l : list A) :
  nth k (set_nth i v l) d = if (i =? k)%nat && (i <? length l)%nat then v else nth k l d.
Proof.
  revert i k. induction l as [|a l IH]; intros i k.
  - simpl. destruct i; simpl; rewrite ?andb_false_r; reflexivity.
  - destruct i as [|i]; destruct k as [|k]; simpl; try reflexivity.
    rewrite IH. reflexivity.
Qed.

Lemma set_cols_cell (cols : list nat) (row : list bool) (k : nat) :
  nth k (fold_left (fun r c => set_nth c true r) cols row) false = true ->
  nth k row false = true \/ In k cols.
Proof.
  revert row. induction cols as [|c cols IH]; intros row H; simpl in H; [now left|].
  destruct (IH _ H) as [H'|H']; [|right; now right].
  rewrite nth_set_nth in H'.
  destruct ((c =? k)%nat && (c <? length row)%nat) eqn:E; [|now left].
  apply andb_true_iff in E. destruct E as [E _]. apply Nat.eqb_eq in E.
  right. left. exact E.
Qed.

Lemma set_true_cell (m m' : mask) (i : nat) (cols : list nat) (e k : nat) :
  set_true m i cols = Ok m' ->
  cell m' e k = true ->
  cell m e k = true \/ (e = i /\ In k cols).
Proof.
  unfold set_true, cell. destruct (nth_error m i) as [row|] eqn:En; [|discriminate].
  destruct (forallb _ cols); [|discriminate].
  intros H; inversion H; subst m'. clear H.
  rewrite nth_set_nth.
  destruct ((i =? e)%nat && (i <? length m)%nat) eqn:E; [|now left].
  apply andb_true_iff in E. destruct E as [E _]. apply Nat.eqb_eq in E. subst e.
  intros Hc. apply set_cols_cell in Hc. destruct Hc as [Hc|Hc]; [|right; now split].
  left. rewrite (nth_error_nth _ _ [] En). exact Hc.
Qed.

Lemma cell_zeros (E N e k : nat) : cell (zeros E N) e k = false.
Proof.
  unfold cell, zeros.
  destruct (Nat.lt_ge_cases e E) as [He|He].
  - rewrite nth_repeat_lt by exact He.
    destruct (Nat.lt_ge_cases k N) as [Hk|Hk].
    + now rewrite nth_repeat_lt.
    + rewrite nth_overflow; [reflexivity|]. now rewrite repeat_length.
  - rewrite (nth_overflow (repeat (repeat false N) E)); [|now rewrite repeat_length].
    destruct k; reflexivity.
Qed.

(** X16.  In every mask the bad-channels-in-epochs routine returns, a True
    cell lies at a column that belongs to one of the channel groups: a
    selected channel that is in no group is never flagged. *)
Theorem bad_channels_in_epochs_flags_group_columns :
  forall (P : Type) (lib : Externals P) (epochs : Epochs) (picks : list nat)
         (use_metrics : option (list string)) (thresh : Q) (max_iter : nat)
         (eeg_ref_corr : bool) (bads : dict mask),
    _find_bad_channels_in_epochs lib epochs picks use_metrics thresh max_iter
                                 eeg_ref_corr = Ok bads ->
    forall m v e k, In (m, v) bads -> cell v e k = true ->
      exists grp,
        In grp (_picks_by_type lib (pick_info lib (info epochs) picks)) /\
        In k (snd grp).
Proof.
  intros P lib epochs picks um thresh mi corr bads H.
  change (flags_within
            (fun k => exists grp,
               In grp (_picks_by_type lib (pick_info lib (info epochs) picks)) /\
               In k (snd grp)) bads).
  unfold _find_bad_channels_in_epochs in H.
  bind_inv H data Hdata.
  revert H. apply foldM_inv.
  2:{ intros m v e k Hin Hc. apply in_map_iff in Hin. destruct Hin as [m0 [Heq _]].
      inversion Heq; subst. rewrite cell_zeros in Hc. discriminate. }
  intros s grp s' Hgrp Hs Hstep.
  bind_inv Hstep names Hnames.
  revert Hstep. apply foldM_inv; [|exact Hs].
  clear s Hs. intros s metric s1 _ Hs Hm.
  bind_inv Hm f Hf. bind_inv Hm sel Hsel. bind_inv Hm s_epochs Hscores.
  revert Hm. apply foldM_inv; [|exact Hs].
  clear s Hs. intros s ie s2 _ Hs He.
  bind_inv He scores Hsc.
  destruct (0 <? length (find_outliers lib scores thresh mi))%nat.
  - bind_inv He bad_segment Hbs. bind_inv He cols Hcols.
    bind_inv He m0 Hget. bind_inv He m' Hset.
    inversion He; subst s2.
    intros m v e k Hin Hc. apply In_setitem in Hin.
    destruct Hin as [Hin|[-> ->]]; [exact (Hs m v e k Hin Hc)|].
    destruct (set_true_cell _ _ _ _ _ _ Hset Hc) as [Hold|[_ Hk]].
    + unfold getitem in Hget. destruct (dict_get s metric) eqn:Eg; [|discriminate].
      inversion Hget; subst. apply dict_get_In in Eg. exact (Hs metric m0 e k Eg Hold).
    + exists grp. split; [exact Hgrp|].
      apply (take_idx_In _ _ _ Hcols k) in Hk. destruct Hk as [i [_ Hi]].
      eapply nth_error_In. exact Hi.
  - inversion He; subst. exact Hs.
Qed.

Lemma bad_channels_in_epochs_flags_group_columns_witness :
  exists grp,
    In grp (_picks_by_type ref_lib (pick_info ref_lib (info small_epochs) [0; 1; 2]%nat)) /\
    In 2%nat (snd grp).
Proof.
  assert (Hrun : _find_bad_channels_in_epochs ref_lib small_epochs [0; 1; 2]%nat
                   (Some ["amplitude"]) 1 1 false =
                 Ok [("amplitude", [[false; true; true]; [false; false; true]]);
                     ("deviation", zeros 2 3); ("variance", zeros 2 3);
                     ("median_gradient", zeros 2 3); ("line_noise", zeros 2 3)])
    by (vm_compute; reflexivity).
  apply (bad_channels_in_epochs_flags_group_columns _ ref_lib small_epochs
           [0; 1; 2]%nat (Some ["amplitude"]) 1 1 false _ Hrun
           "amplitude" [[false; true; true]; [false; false; true]] 1%nat 2%nat).
  - simpl. now left.
  - reflexivity.
Defined.

(* ===================================================================== *)
(** ** Theorems: the keys of the returned dictionaries                    *)
(* ===================================================================== *)

Lemma keys_setitem_iff {V} (d : dict V) (k : string) (v : V) (k' : string) :
  In k' (keys (setitem d k v)) <-> In k' (keys d) \/ k' = k.
Proof.
  induction d as [|[k0 v0] d IH]; simpl.
  - split; [intros [H|[]]; right; now symmetry|intros [[]|H]; left; now symmetry].
  - destruct (String.eqb k k0) eqn:E; simpl.
    + apply String.eqb_eq in E. subst. split; [tauto|].
      intros [H|H]; [exact H|left; now symmetry].
    + rewrite IH. tauto.
Qed.

Lemma keys_setitem_NoDup {V} (d : dict V) (k : string) (v : V) :
  NoDup (keys d) -> NoDup (keys (setitem d k v)).
Proof.
  induction d as [|[k0 v0] d IH]; simpl; intros H.
  - constructor; [intros []|constructor].
  - destruct (String.eqb k k0) eqn:E; simpl; [exact H|].
    inversion H as [|x l Hnot Hnd]; subst. constructor; [|apply IH; exact Hnd].
    fold (keys (setitem d k v)). rewrite keys_setitem_iff. intros [Hin|Heq].
    + exact (Hnot Hin).
    + subst. rewrite String.eqb_refl in E. discriminate.
Qed.

Lemma keys_dd_append {V} (d : dict (list V)) (k : string) (v : V) :
  (NoDup (keys d) -> NoDup (keys (dd_append d k v))) /\
  forall k', In k' (keys (dd_append d k v)) <-> In k' (keys d) \/ k' = k.
Proof.
  unfold dd_append. destruct (dict_get d k); split;
    try apply keys_setitem_NoDup; intros k'; apply keys_setitem_iff.
Qed.

(** A loop that appends one list per item under the key of the item. *)
Lemma foldM_dd_append_keys {V} (step : dict (list V) -> string -> result (dict (list V)))
      (l : list string) :
  (forall s a s', step s a = Ok s' -> exists x, s' = dd_append s a x) ->
  forall s s', foldM step l s = Ok s' ->
    (NoDup (keys s) -> NoDup (keys s')) /\
    forall k, In k (keys s') <-> In k (keys s) \/ In k l.
Proof.
  intros Hstep. induction l as [|a l IH]; intros s s' H; simpl in H.
  - inversion H; subst. split; [tauto|]. intros k. simpl. tauto.
  - bind_inv H s1 Hs1. destruct (Hstep s a s1 Hs1) as [x ->].
    destruct (IH _ _ H) as [Hnd Hk]. destruct (keys_dd_append s a x) as [Hnd1 Hk1].
    split; [intros Hs; apply Hnd, Hnd1, Hs|].
    intros k. rewrite Hk, Hk1. simpl. split.
    + intros [[H0|H0]|H0]; [now left|right; left; now symmetry|right; now right].
    + intros [H0|[H0|H0]]; [left; now left|left; right; now symmetry|now right].
Qed.

Lemma foldM_groups_keys {V G} (step : dict (list V) -> G -> result (dict (list V)))
      (requested : list string) (groups : list G) :
  (forall s g s', step s g = Ok s' ->
     (NoDup (keys s) -> NoDup (keys s')) /\
     forall k, In k (keys s') <-> In k (keys s) \/ In k requested) ->
  forall s s', foldM step groups s = Ok s' ->
    (NoDup (keys s) -> NoDup (keys s')) /\
    (groups <> [] -> forall k, In k (keys s') <-> In k (keys s) \/ In k requested).
Proof.
  intros Hstep. induction groups as [|g groups IH]; intros s s' H; simpl in H.
  - inversion H; subst. split; [tauto|congruence].
  - bind_inv H s1 Hs1. destruct (Hstep s g s1 Hs1) as [Hnd1 Hk1].
    destruct (IH _ _ H) as [Hnd Hk].
    split; [intros Hs; apply Hnd, Hnd1, Hs|].
    intros _ k. destruct groups as [|g' groups'].
    + simpl in H. inversion H; subst. apply Hk1.
    + rewrite (Hk ltac:(discriminate) k), Hk1. tauto.
Qed.

Lemma keys_concat_values {V} (bads : dict (list (list V))) :
  keys (map (fun kv => (fst kv, concat (snd kv))) bads) = keys bads.
Proof. unfold keys. rewrite map_map. reflexivity. Qed.

(** X17.  The dictionary that the bad-channels routine or the bad-epochs
    routine returns has no key twice, and when there is at least one channel
    group its keys are exactly the requested metrics. *)
Theorem result_keys_are_requested :
  forall (P : Type) (lib : Externals P) (epochs : Epochs) (picks : list nat)
         (use_metrics : option (list string)) (thresh : Q) (max_iter : nat)
         (eeg_ref_corr : bool),
    (forall bads,
       _find_bad_channels lib epochs picks use_metrics thresh max_iter eeg_ref_corr =
         Ok bads ->
       NoDup (keys bads) /\
       (_picks_by_type lib (pick_info lib (info epochs) picks) <> [] ->
        forall k, In k (keys bads) <->
                  In k (resolve_metrics (bad_channels_metrics lib epochs) use_metrics))) /\
    (forall bads,
       _find_bad_epochs lib epochs picks use_metrics thresh max_iter = Ok bads ->
       NoDup (keys bads) /\
       (_picks_by_type lib (pick_info lib (info epochs) picks) <> [] ->
        forall k, In k (keys bads) <->
                  In k (resolve_metrics bad_epochs_metrics use_metrics))).
Proof.
  intros P lib epochs picks um thresh mi corr. split.
  - intros bads H. unfold _find_bad_channels in H.
    bind_inv H data Hdata. bind_inv H pre Hpre. inversion H; subst bads. clear H.
    rewrite keys_concat_values.
    apply foldM_groups_keys
      with (requested := resolve_metrics (bad_channels_metrics lib epochs) um) in Hpre.
    + destruct Hpre as [Hnd Hk]. split; [apply Hnd; constructor|].
      intros Hne k. rewrite (Hk Hne k). simpl. tauto.
    + intros s g s' Hs. apply foldM_dd_append_keys in Hs; [exact Hs|].
      intros s0 a s0' Hm.
      bind_inv Hm f Hf. bind_inv Hm rows Hrows. bind_inv Hm scores0 Hsc0.
      bind_inv Hm scores Hsc. bind_inv Hm outliers Hol. bind_inv Hm bad_channels Hbc.
      inversion Hm. eexists. reflexivity.
  - intros bads H. unfold _find_bad_epochs in H.
    bind_inv H data Hdata. bind_inv H pre Hpre. inversion H; subst bads. clear H.
    rewrite keys_concat_values.
    apply foldM_groups_keys
      with (requested := resolve_metrics bad_epochs_metrics um) in Hpre.
    + destruct Hpre as [Hnd Hk]. split; [apply Hnd; constructor|].
      intros Hne k. rewrite (Hk Hne k). simpl. tauto.
    + intros s g s' Hs. apply foldM_dd_append_keys in Hs; [exact Hs|].
      intros s0 a s0' Hm.
      bind_inv Hm f Hf. bind_inv Hm sel Hsel. bind_inv Hm scores Hsc.
      inversion Hm. eexists. reflexivity.
Qed.

(** A metric requested twice still gives one key; its list then holds what
    both passes found. *)
Example repeated_metric_one_key :
  _find_bad_channels ref_lib small_epochs [0; 1; 2]%nat
    (Some ["variance"; "variance"]) 1 1 false = Ok [("variance", ["Pz"; "Pz"])].
Proof. vm_compute. reflexivity. Qed.

(* ===================================================================== *)
(** ** Theorems: combining the masks of all metrics                       *)
(* ===================================================================== *)

Lemma nth_map2_gen {A B C} (f : A -> B -> C) (a : list A) (b : list B)
      (da : A) (db : B) (dc : C) (i : nat) :
  length a = length b -> f da db = dc ->
  nth i (map2 f a b) dc = f (nth i a da) (nth i b db).
Proof.
  intros Hl Hd. destruct (Nat.lt_ge_cases i (length a)) as [Hi|Hi].
  - apply nth_map2; lia.
  - rewrite !nth_overflow; [now symmetry| lia | lia |].
    rewrite length_map2. lia.
Qed.

Lemma count_at_add (E N : nat) (a b : list (list nat)) (e k : nat) :
  has_shape E N a -> has_shape E N b ->
  count_at (map2 (map2 Nat.add) a b) e k = (count_at a e k + count_at b e k)%nat.
Proof.
  intros [Hla Hra] [Hlb Hrb]. unfold count_at.
  rewrite (nth_map2_gen (map2 Nat.add) a b [] [] [] e) by (try reflexivity; lia).
  destruct (Nat.lt_ge_cases e E) as [He|He].
  - apply nth_map2_gen; [|reflexivity].
    rewrite Forall_forall in Hra, Hrb.
    rewrite (Hra (nth e a [])) by (apply nth_In; lia).
    rewrite (Hrb (nth e b [])) by (apply nth_In; lia). reflexivity.
  - rewrite (nth_overflow a), (nth_overflow b) by lia. destruct k; reflexivity.
Qed.

Lemma add_shape (E N : nat) (a b : list (list nat)) :
  has_shape E N a -> has_shape E N b -> has_shape E N (map2 (map2 Nat.add) a b).
Proof.
  intros [Hla Hra] [Hlb Hrb]. split; [rewrite length_map2; lia|].
  apply Forall_forall. intros row Hrow. unfold map2 at 1 in Hrow.
  apply in_map_iff in Hrow. destruct Hrow as [[r1 r2] [<- Hin]].
  rewrite Forall_forall in Hra, Hrb. simpl. rewrite length_map2.
  rewrite (Hra r1 (in_combine_l _ _ _ _ Hin)), (Hrb r2 (in_combine_r _ _ _ _ Hin)).
  apply Nat.min_id.
Qed.

Lemma count_at_fold (E N : nat) (l : list (list (list nat))) (c : list (list nat))
      (e k : nat) :
  has_shape E N c -> Forall (has_shape E N) l ->
  count_at (fold_left (map2 (map2 Nat.add)) l c) e k =
  (count_at c e k + list_sum (map (fun x => count_at x e k) l))%nat.
Proof.
  intros Hc Hl. revert c Hc. induction Hl as [|x l Hx Hl IH]; intros c Hc; simpl.
  - lia.
  - rewrite IH by (apply add_shape; assumption).
    rewrite (count_at_add E N c x e k Hc Hx). lia.
Qed.

Lemma nth_map_default {A B} (f : A -> B) (l : list A) (d : A) (db : B) (i : nat) :
  f d = db -> nth i (map f l) db = f (nth i l d).
Proof. intros <-. apply map_nth. Qed.

Lemma count_at_counts_of (v : mask) (e k : nat) :
  count_at (counts_of v) e k = if cell v e k then 1%nat else O.
Proof.
  unfold count_at, counts_of, cell.
  rewrite (nth_map_default (map (fun b : bool => if b then 1%nat else O)) v [] [] e eq_refl).
  rewrite (nth_map_default (fun b : bool => if b then 1%nat else O) (nth e v []) false O k
             eq_refl).
  reflexivity.
Qed.

Lemma cell_astype_bool (c : list (list nat)) (e k : nat) :
  cell (astype_bool c) e k = negb (count_at c e k =? 0)%nat.
Proof.
  unfold cell, astype_bool, count_at.
  rewrite (nth_map_default (map (fun n => negb (n =? 0)%nat)) c [] [] e eq_refl).
  rewrite (nth_map_default (fun n => negb (n =? 0)%nat) (nth e c []) O false k eq_refl).
  reflexivity.
Qed.

Lemma list_sum_flags (l : list mask) (e k : nat) :
  negb (list_sum (map (fun x => count_at x e k) (map counts_of l)) =? 0)%nat =
  existsb (fun v => cell v e k) l.
Proof.
  induction l as [|v l IH]; [reflexivity|].
  simpl. rewrite count_at_counts_of. destruct (cell v e k); simpl; [reflexivity|exact IH].
Qed.

(** The combined mask is True at a cell exactly when the mask of some metric
    is. *)
Lemma combined_cell (E N : nat) (l : list mask) (e k : nat) :
  Forall (has_shape E N) l ->
  cell (astype_bool (sum_masks l)) e k = existsb (fun v => cell v e k) l.
Proof.
  intros Hl. rewrite cell_astype_bool. unfold sum_masks.
  destruct l as [|v l]; [destruct e, k; reflexivity|].
  simpl map. inversion Hl as [|x l0 Hv Hl']; subst.
  rewrite (count_at_fold E N).
  - rewrite <- (list_sum_flags (v :: l)). simpl. reflexivity.
  - apply counts_of_shape. exact Hv.
  - apply Forall_forall. intros c Hc. apply in_map_iff in Hc.
    destruct Hc as [v0 [<- Hv0]]. apply counts_of_shape.
    rewrite Forall_forall in Hl'. exact (Hl' v0 Hv0).
Qed.

Lemma bad_mask_to_names_In (info : Info) (bad_mask : mask) (names : list (list string)) :
  _bad_mask_to_names info bad_mask = Ok names ->
  length names = length bad_mask /\
  forall e n, (e < length bad_mask)%nat ->
    (In n (nth e names []) <->
     exists k, cell bad_mask e k = true /\ nth_error (ch_names info) k = Some n).
Proof.
  unfold _bad_mask_to_names. intros H.
  pose proof (mapM_length _ _ _ H) as Hlen. rewrite length_map in Hlen.
  split; [exact Hlen|]. intros e n He.
  pose proof (mapM_nth _ _ _ [] [] H e) as Hnth.
  rewrite length_map in Hnth. specialize (Hnth He).
  change [] with (np_where []) in Hnth at 1. rewrite map_nth in Hnth.
  rewrite (take_idx_In _ _ _ Hnth n). unfold cell. split.
  - intros [k [Hk Hn]]. exists k. split; [now apply np_where_In|exact Hn].
  - intros [k [Hk Hn]]. exists k. split; [now apply np_where_In|exact Hn].
Qed.

Lemma mapM_In_fwd {A B} (f : A -> result B) (l : list A) (r : list B) :
  mapM f l = Ok r -> forall a, In a l -> exists b, In b r /\ f a = Ok b.
Proof.
  revert r. induction l as [|a0 l IH]; intros r H a Ha; simpl in H; [destruct Ha|].
  bind_inv H b0 Hb0. bind_inv H bs Hbs. inversion H; subst r.
  destruct Ha as [<-|Ha].
  - exists b0. split; [now left|exact Hb0].
  - destruct (IH bs Hbs a Ha) as [b [Hb Hf]]. exists b. split; [now right|exact Hf].
Qed.

(** X18.  When the bad-channels-in-epochs entry operation returns both the
    per-metric result and the flat result for the same arguments, the flat
    result has one list per epoch, and a channel name is in the list of an
    epoch exactly when some metric lists it for that epoch. *)
Theorem flat_epochs_are_union_of_metrics :
  forall (P : Type) (lib : Externals P) (epochs : Epochs)
         (picks : option (list nat)) (method : string) (method_params : option P)
         (d : dict (list (list string))) (l : list (list string)),
    find_bad_channels_in_epochs lib epochs picks method method_params true =
      Ok (ByMetric d) ->
    find_bad_channels_in_epochs lib epochs picks method method_params false =
      Ok (Flat l) ->
    length l = length (get_data epochs) /\
    forall e n, (e < length (get_data epochs))%nat ->
      (In n (nth e l []) <-> exists m rows, In (m, rows) d /\ In n (nth e rows [])).
Proof.
  intros P lib epochs picks method mp d l H1 H2.
  unfold find_bad_channels_in_epochs in H1, H2.
  bind_inv H1 kw Hkw. rewrite Hkw in H2. cbv beta iota delta [bind] in H2.
  bind_inv H1 bads Hbads. rewrite Hbads in H2. cbv beta iota zeta in H1, H2.
  set (picks' := match picks with
                 | Some p => p
                 | None => pick_types lib (info epochs) false
                 end) in *.
  set (info' := pick_info lib (info epochs) picks') in *.
  assert (Hinv : exists requested,
            masks_inv (length (get_data epochs)) (length picks') requested bads).
  { destruct (String.eqb method "faster"); [|discriminate].
    destruct (kw_eeg_ref_corr kw) as [corr|]; [|discriminate].
    eexists. eapply bad_channels_in_epochs_inv. exact Hbads. }
  destruct Hinv as [requested [Hk Hv]]. clear Hbads Hkw.
  bind_inv H1 named Hnamed. inversion H1; subst d. clear H1.
  bind_inv H2 names Hnames. inversion H2; subst l. clear H2.
  destruct (bad_mask_to_names_In _ _ _ Hnames) as [Hlen Hin].
  assert (Hshapes : Forall (has_shape (length (get_data epochs)) (length picks'))
                      (values bads)).
  { apply Forall_forall. intros v Hvin. unfold values in Hvin.
    apply in_map_iff in Hvin. destruct Hvin as [[m v'] [<- Hmv]].
    exact (proj1 (Hv m v' Hmv)). }
  assert (HE : length (astype_bool (sum_masks (values bads))) = length (get_data epochs)).
  { unfold astype_bool. rewrite length_map. unfold sum_masks.
    assert (Hne : bads <> []).
    { intros ->. simpl in Hk. discriminate. }
    destruct bads as [|[m0 v0] bads']; [congruence|]. simpl map.
    inversion Hshapes as [|x l0 Hv0 Hrest]; subst.
    assert (Hfold : forall (ls : list (list (list nat))) c,
              has_shape (length (get_data epochs)) (length picks') c ->
              Forall (has_shape (length (get_data epochs)) (length picks')) ls ->
              length (fold_left (map2 (map2 Nat.add)) ls c) = length (get_data epochs)).
    { induction ls as [|x ls IHls]; intros c Hc Hls; simpl; [exact (proj1 Hc)|].
      inversion Hls; subst. apply IHls; [apply add_shape; assumption|assumption]. }
    apply Hfold; [apply counts_of_shape; exact Hv0|].
    apply Forall_forall. intros c Hc. apply in_map_iff in Hc.
    destruct Hc as [v1 [<- Hv1]]. apply counts_of_shape.
    rewrite Forall_forall in Hrest. exact (Hrest v1 Hv1). }
  split; [rewrite Hlen; exact HE|].
  intros e n He. rewrite (Hin e n) by (rewrite HE; exact He). split.
  - intros [k [Hc Hn]].
    rewrite (combined_cell _ _ _ e k Hshapes) in Hc.
    apply existsb_exists in Hc. destruct Hc as [v [Hvin Hcv]].
    unfold values in Hvin. apply in_map_iff in Hvin. destruct Hvin as [[m v'] [<- Hmv]].
    destruct (mapM_In_fwd _ _ _ Hnamed (m, v') Hmv) as [[m' rows] [Hd Hf]].
    bind_inv Hf rows' Hrows. inversion Hf; subst m' rows'. simpl in Hrows.
    exists m, rows. split; [exact Hd|].
    destruct (bad_mask_to_names_In _ _ _ Hrows) as [_ Hin'].
    apply Hin'; [rewrite (proj1 (proj1 (Hv m v' Hmv))); exact He|].
    exists k. split; [exact Hcv|exact Hn].
  - intros [m [rows [Hd Hn]]].
    destruct (mapM_In _ _ _ Hnamed (m, rows) Hd) as [[m' v] [Hmv Hf]].
    bind_inv Hf rows' Hrows. inversion Hf; subst m' rows'. simpl in Hrows.
    destruct (bad_mask_to_names_In _ _ _ Hrows) as [_ Hin'].
    apply Hin' in Hn; [|rewrite (proj1 (proj1 (Hv m v Hmv))); exact He].
    destruct Hn as [k [Hc Hname]]. exists k. split; [|exact Hname].
    rewrite (combined_cell _ _ _ e k Hshapes).
    apply existsb_exists. exists v. split; [|exact Hc].
    unfold values. apply in_map_iff. exists (m, v). split; [reflexivity|exact Hmv].
Qed.

Lemma flat_epochs_are_union_of_metrics_witness :
  find_bad_channels_in_epochs ref_lib small_epochs None "faster"
    (Some (mkKwargs (Some ["amplitude"; "variance"]) 1 1 (Some false))) false =
    Ok (Flat [["Cz"; "Pz"]; ["Pz"]]) /\
  (In "Cz" (nth 0 [["Cz"; "Pz"]; ["Pz"]] []) <->
   exists m rows,
     In (m, rows) [("amplitude", [["Cz"; "Pz"]; ["Pz"]]); ("deviation", [[]; []]);
                   ("variance", [["Cz"]; ["Pz"]]); ("median_gradient", [[]; []]);
                   ("line_noise", [[]; []])] /\
     In "Cz" (nth 0 rows [])).
Proof.
  assert (Hby : find_bad_channels_in_epochs ref_lib small_epochs None "faster"
                  (Some (mkKwargs (Some ["amplitude"; "variance"]) 1 1 (Some false))) true =
                Ok (ByMetric
                      [("amplitude", [["Cz"; "Pz"]; ["Pz"]]); ("deviation", [[]; []]);
                       ("variance", [["Cz"]; ["Pz"]]); ("median_gradient", [[]; []]);
                       ("line_noise", [[]; []])]))
    by (vm_compute; reflexivity).
  assert (Hflat : find_bad_channels_in_epochs ref_lib small_epochs None "faster"
                    (Some (mkKwargs (Some ["amplitude"; "variance"]) 1 1 (Some false)))
                    false = Ok (Flat [["Cz"; "Pz"]; ["Pz"]]))
    by (vm_compute; reflexivity).
  split; [exact Hflat|].
  destruct (flat_epochs_are_union_of_metrics _ ref_lib small_epochs None "faster"
              (Some (mkKwargs (Some ["amplitude"; "variance"]) 1 1 (Some false)))
              _ _ Hby Hflat) as [_ Hunion].
  apply (Hunion 0%nat "Cz"). simpl. lia.
Defined.

(* ===================================================================== *)
(** ** Theorems: spectral estimator, further                              *)
(* ===================================================================== *)

Lemma mapM_power_at {B S} `{NdBlock B S} (fs0 : list Q) (ps0 : B) (freqs : list Z) :
  mapM (fun f => power_at fs0 ps0 (searchsorted fs0 (inject_Z f))) freqs =
  if forallb (reaches fs0) freqs
  then Ok (map (fun f => index_last (searchsorted fs0 (inject_Z f)) ps0) freqs)
  else Err IndexError.
Proof.
  induction freqs as [|f freqs IH]; [reflexivity|].
  simpl. unfold power_at at 1. rewrite searchsorted_in_range.
  destruct (reaches fs0 f); simpl; [|reflexivity].
  rewrite IH. destruct (forallb (reaches fs0) freqs); reflexivity.
Qed.

(** X19.  For any list of target frequencies: when the estimator raises,
    the exception passes through; otherwise the summed power is returned
    exactly when the estimate reaches every target, and when some target
    lies above every bin, ValueError is raised and its message lists all
    the requested frequencies and speaks of line noise, whatever the
    list. *)
Theorem freqs_power_outcome :
  forall (P B S : Type) (blk : NdBlock B S) (lib : Externals P) (data : B)
         (sfreq0 : Q) (freqs : list Z),
    _freqs_power lib data sfreq0 freqs =
      match _efficient_welch lib data sfreq0 with
      | Err e => Err e
      | Ok (fs, ps) =>
          if forallb (reaches fs) freqs
          then Ok (sum_axis0
                     (map (fun f => index_last (searchsorted fs (inject_Z f)) ps) freqs))
          else Err (ValueError (msg_line_noise freqs))
      end.
Proof.
  intros P B S blk lib data sfreq0 freqs. unfold _freqs_power.
  destruct (_efficient_welch lib data sfreq0) as [[fs0 ps0]|e]; [|reflexivity].
  cbn [bind]. rewrite mapM_power_at.
  destruct (forallb (reaches fs0) freqs); reflexivity.
Qed.

(** X20.  The estimator raises ValueError when the float product
    [10 * sfreq] is negative and OverflowError when it is zero: [np.log2]
    then gives nan or -inf, which [int] refuses.  For a positive product it
    is the call of Welch's method with overlap zero and a segment length
    that is the number of samples or a power of two, whichever is less, and
    that is positive when the block has a sample. *)
Theorem efficient_welch_segment_bounds :
  forall (P B S : Type) (blk : NdBlock B S) (lib : Externals P) (data : B) (sfreq0 : Q),
    (float_round lib (10 * sfreq0) < 0 ->
     _efficient_welch lib data sfreq0 = Err (ValueError msg_nan_to_int)) /\
    (float_round lib (10 * sfreq0) == 0 ->
     _efficient_welch lib data sfreq0 = Err (OverflowError msg_inf_to_int)) /\
    (0 < float_round lib (10 * sfreq0) ->
     exists (e : Z) (nperseg : Q),
       _efficient_welch lib data sfreq0 = welch lib data sfreq0 nperseg 0%Z /\
       (nperseg = inject_Z (Z.of_nat (shape_last data)) \/ nperseg = 2 ^ e) /\
       nperseg <= inject_Z (Z.of_nat (shape_last data)) /\
       nperseg <= 2 ^ e /\
       ((0 < shape_last data)%nat -> 0 < nperseg)).
Proof.
  intros P B S blk lib data sfreq0. unfold _efficient_welch.
  destruct (welch_nperseg_outcome lib (shape_last data) sfreq0)
    as [[Hs ->]|[[Hs ->]|[Hs ->]]]; cbn [bind].
  - split; [reflexivity|]. split; intros H; exfalso; lra.
  - split; [intros H; exfalso; lra|]. split; [reflexivity|]. intros H; exfalso; lra.
  - split; [intros H; exfalso; lra|]. split; [intros H; exfalso; lra|]. intros _.
    set (e := int_of_float
                (float_round lib (np_log2 lib (float_round lib (10 * sfreq0)) + 1))).
    pose proof (Qpower_0_lt 2 e ltac:(reflexivity)) as Hp.
    exists e. eexists. split; [reflexivity|].
    unfold Qmin.
    destruct (Qlt_le_dec (2 ^ e) (inject_Z (Z.of_nat (shape_last data)))) as [Hlt|Hle].
    + split; [now right|]. split; [apply Qlt_le_weak; exact Hlt|].
      split; [apply Qle_refl|]. intros _. exact Hp.
    + split; [now left|]. split; [apply Qle_refl|]. split; [exact Hle|].
      intros Hn. change 0 with (inject_Z 0). rewrite <- Zlt_Qlt. lia.
Qed.

(* ===================================================================== *)
(** ** Theorems: well-formed runs of the other two routines return        *)
(* ===================================================================== *)

Lemma bind_returns {A B} (r : result A) (g : A -> B) (I : A -> Prop) :
  (exists a, r = Ok a /\ I a) -> exists b, (a <- r ;; Ok (g a)) = Ok b.
Proof. intros [a [-> _]]. simpl. eauto. Qed.

Lemma bad_epochs_metric_ok (m : string) (sel : list (list (list Q))) :
  In m bad_epochs_catalog ->
  exists f scores, getitem bad_epochs_metrics m = Ok f /\ f sel = Ok scores.
Proof.
  intros Hm. simpl in Hm.
  destruct Hm as [<-|[<-|[<-|[]]]]; eexists; eexists; split; reflexivity.
Qed.

(** X22.  The bad-epochs routine returns whenever the selection indexes
    channels of every epoch, every channel group indexes the selection and
    every requested metric is in its table; no outcome of the outlier
    selector can make it raise. *)
Theorem bad_epochs_returns :
  forall (P : Type) (lib : Externals P) (epochs : Epochs) (picks : list nat)
         (requested : list string) (thresh : Q) (max_iter : nat),
    picks_in_data epochs picks ->
    (forall grp c, In grp (_picks_by_type lib (pick_info lib (info epochs) picks)) ->
                   In c (snd grp) -> (c < length picks)%nat) ->
    (forall m, In m requested -> In m bad_epochs_catalog) ->
    exists bads,
      _find_bad_epochs lib epochs picks (Some requested) thresh max_iter = Ok bads.
Proof.
  intros P lib epochs picks requested thresh mi Hp Hgrp Hreq.
  destruct (get_picked_ok epochs picks Hp) as [data [Hdata [_ Hrect]]].
  unfold _find_bad_epochs. rewrite Hdata. cbv beta iota delta [bind]. cbv zeta.
  apply (bind_returns _ _ (fun _ => True)).
  apply (foldM_ok (fun _ : dict (list (list nat)) => True)); [|exact I].
  intros s grp Hin _.
  apply (foldM_ok (fun _ : dict (list (list nat)) => True)); [|exact I].
  intros s0 metric Hmetric _.
  destruct (mapM_ok (fun (ep r : list (list Q)) => True)
              (fun ep => take_idx ep (snd grp)) data) as [sel [Hsel _]].
  { intros ep Hep. destruct (take_idx_ok ep (snd grp)) as [r [Hr _]].
    - intros c Hc. rewrite Forall_forall in Hrect. rewrite (Hrect ep Hep).
      exact (Hgrp grp c Hin Hc).
    - exists r. split; [exact Hr|exact I]. }
  destruct (bad_epochs_metric_ok metric sel (Hreq metric Hmetric))
    as [f [scores [Hf Hs]]].
  rewrite Hf. cbv beta iota delta [bind]. rewrite Hsel, Hs.
  eexists. split; [reflexivity|exact I].
Qed.

Lemma bad_epochs_returns_witness :
  exists bads,
    _find_bad_epochs ref_lib small_epochs [0; 1; 2]%nat
      (Some ["deviation"; "amplitude"]) 3 1 = Ok bads.
Proof.
  apply bad_epochs_returns.
  - intros ep p Hep Hin. simpl in Hep, Hin.
    destruct Hep as [<-|[<-|[]]]; destruct Hin as [<-|[<-|[<-|[]]]]; simpl; lia.
  - intros grp c Hg Hc. simpl in Hg. destruct Hg as [<-|[]]. simpl in Hc.
    destruct Hc as [<-|[<-|[<-|[]]]]; simpl; lia.
  - intros m Hm. simpl in Hm. simpl. tauto.
Defined.

Lemma bad_channels_time_metric_ok {P} (lib : Externals P) (epochs : Epochs)
      (m : string) (rows : list (list Q)) :
  In m ["variance"; "correlation"; "hurst"; "kurtosis"] ->
  (m = "correlation" -> length rows <> 1%nat) ->
  exists f scores,
    getitem (bad_channels_metrics lib epochs) m = Ok f /\
    f rows = Ok (ScoreVector scores) /\ length scores = length rows.
Proof.
  intros Hm Hrows. simpl in Hm.
  destruct Hm as [<-|[<-|[<-|[<-|[]]]]].
  - eexists. eexists. split; [reflexivity|]. split; [reflexivity|]. apply length_map.
  - specialize (Hrows eq_refl). eexists.
    destruct rows as [|r0 [|r1 rows']]; [| exfalso; apply Hrows; reflexivity |];
      eexists; (split; [reflexivity|]); (split; [reflexivity|]);
      now rewrite length_map, length_seq.
  - eexists. eexists. split; [reflexivity|]. split; [reflexivity|].
    rewrite hurst_per_channel. apply length_map.
  - eexists. eexists. split; [reflexivity|]. split; [reflexivity|]. apply length_map.
Qed.

(** X23.  Without reference correction the bad-channels routine returns
    whenever the selection indexes channels of every epoch and of the
    metadata, every channel group indexes the selection, the requested
    metrics are variance, correlation, hurst or kurtosis, every channel
    group has at least two channels when correlation is requested, and the
    outlier selector returns indices of its score vector. *)
Theorem bad_channels_returns :
  forall (P : Type) (lib : Externals P) (epochs : Epochs) (picks : list nat)
         (requested : list string) (thresh : Q) (max_iter : nat),
    picks_in_data epochs picks ->
    picks_valid (info epochs) picks ->
    (forall grp c, In grp (_picks_by_type lib (pick_info lib (info epochs) picks)) ->
                   In c (snd grp) -> (c < length picks)%nat) ->
    (forall m, In m requested ->
               In m ["variance"; "correlation"; "hurst"; "kurtosis"]) ->
    (In "correlation" requested ->
     forall grp, In grp (_picks_by_type lib (pick_info lib (info epochs) picks)) ->
                 (2 <= length (snd grp))%nat) ->
    (forall scores i, In i (find_outliers lib scores thresh max_iter) ->
                      (i < length scores)%nat) ->
    exists bads,
      _find_bad_channels lib epochs picks (Some requested) thresh max_iter false =
        Ok bads.
Proof.
  intros P lib epochs picks requested thresh mi Hp Hv Hgrp Hreq Hone Hsel.
  destruct (get_picked_ok epochs picks Hp) as [data [Hdata _]].
  unfold _find_bad_channels. rewrite Hdata. cbn [bind]. cbv zeta.
  apply (bind_returns _ _ (fun _ => True)).
  apply (foldM_ok (fun _ : dict (list (list string)) => True)); [|exact I].
  intros s grp Hin _.
  apply (foldM_ok (fun _ : dict (list (list string)) => True)); [|exact I].
  intros s0 metric Hmetric _.
  destruct (take_idx_ok (concat_epochs (length picks) data) (snd grp))
    as [rows [Hrows [Hrl _]]].
  { intros c Hc. rewrite concat_epochs_length. exact (Hgrp grp c Hin Hc). }
  destruct (bad_channels_time_metric_ok lib epochs metric rows (Hreq metric Hmetric))
    as [f [scores [Hf [Hs Hsl]]]].
  { intros ->. rewrite Hrl. pose proof (Hone Hmetric grp Hin). lia. }
  rewrite Hf. cbn [bind]. rewrite Hrows. cbn [bind]. rewrite Hs.
  cbn [bind outliers_of].
  destruct (mapM_ok (fun (i : nat) (name : string) => True)
              (fun i => c <- getidx (snd grp) i ;;
                        p <- getidx picks c ;;
                        getidx (ch_names (info epochs)) p)
              (find_outliers lib scores thresh mi)) as [bad_channels [Hbc _]].
  { intros i Hi. specialize (Hsel scores i Hi). rewrite Hsl, Hrl in Hsel.
    unfold getidx at 1.
    destruct (nth_error (snd grp) i) as [c|] eqn:Ec;
      [|apply nth_error_None in Ec; lia].
    cbn [bind].
    pose proof (Hgrp grp c Hin (nth_error_In _ _ Ec)) as Hc.
    unfold getidx at 1.
    destruct (nth_error picks c) as [p|] eqn:Ep;
      [|apply nth_error_None in Ep; lia].
    cbn [bind].
    unfold picks_valid in Hv. rewrite Forall_forall in Hv.
    pose proof (Hv p (nth_error_In _ _ Ep)) as Hpv.
    unfold getidx.
    destruct (nth_error (ch_names (info epochs)) p) as [name|] eqn:En.
    - exists name. split; [reflexivity|exact I].
    - apply nth_error_None in En. unfold ch_names in En. rewrite length_map in En. lia. }
  rewrite Hbc. eexists. split; [reflexivity|exact I].
Qed.

Lemma bad_channels_returns_witness :
  exists bads,
    _find_bad_channels ref_lib small_epochs [2; 0]%nat
      (Some ["correlation"; "hurst"]) (1 # 2) 1 false = Ok bads.
Proof.
  apply bad_channels_returns.
  - intros ep p Hep Hin. simpl in Hep, Hin.
    destruct Hep as [<-|[<-|[]]]; destruct Hin as [<-|[<-|[]]]; simpl; lia.
  - repeat constructor.
  - intros grp c Hg Hc. simpl in Hg. destruct Hg as [<-|[]]. simpl in Hc.
    destruct Hc as [<-|[<-|[]]]; simpl; lia.
  - intros m Hm. simpl in Hm. simpl. tauto.
  - intros _ grp Hg. simpl in Hg. destruct Hg as [<-|[]]. simpl. lia.
  - intros scores i Hi. simpl in Hi. eapply select_outliers_in_range. exact Hi.
Defined.

(** X24.  The correlation of a channel group of one channel is numpy's 0-d
    masked constant, not a vector.  With a valid selection, a first channel
    group of a single channel and correlation requested first, the
    bad-channels routine raises TypeError: from the outlier selector
    without the reference correction, and with it, when every selected
    channel has its positions, from the fit of the corrector. *)
Theorem single_channel_correlation_raises :
  forall (P : Type) (lib : Externals P) (epochs : Epochs) (picks : list nat)
         (ms : list string) (thresh : Q) (max_iter : nat)
         (grp : string * list nat) (groups : list (string * list nat)) (c : nat),
    picks_in_data epochs picks ->
    _picks_by_type lib (pick_info lib (info epochs) picks) = grp :: groups ->
    snd grp = [c] ->
    (c < length picks)%nat ->
    _find_bad_channels lib epochs picks (Some ("correlation" :: ms)) thresh max_iter false =
      Err (TypeError msg_len_unsized) /\
    (picks_valid (info epochs) picks ->
     (forall ch, In ch (picked_chs (info epochs) picks) ->
                 all_zero (sensor_pos ch) = false /\ all_zero (reference_pos ch) = false) ->
     _find_bad_channels lib epochs picks (Some ("correlation" :: ms)) thresh max_iter true =
       Err (TypeError msg_polyfit_0d)).
Proof.
  intros P lib epochs picks ms thresh mi grp groups c Hp Hg Hc Hlt.
  destruct (get_picked_ok epochs picks Hp) as [data [Hdata _]].
  destruct (take_idx_ok (concat_epochs (length picks) data) (snd grp))
    as [rows [Hrows [Hrl _]]].
  { intros c' Hin. rewrite Hc in Hin. destruct Hin as [<-|[]].
    rewrite concat_epochs_length. exact Hlt. }
  rewrite Hc in Hrl. destruct rows as [|r [|r' rows']]; try discriminate.
  assert (Hne : picks <> []) by (intros ->; simpl in Hlt; lia).
  split.
  - unfold _find_bad_channels. rewrite Hdata, Hg.
    cbv beta iota delta [bind]. simpl foldM.
    cbv beta iota delta [bind]. rewrite Hrows. reflexivity.
  - intros Hv Hgeo. unfold _find_bad_channels. rewrite Hdata, Hg.
    cbv beta iota delta [bind]. simpl foldM.
    cbv beta iota delta [bind]. rewrite Hrows.
    cbn [mean_offdiag_corr correct_scores].
    rewrite (reference_angles_ok lib (info epochs) picks Hne Hv Hgeo). reflexivity.
Qed.

Lemma single_channel_correlation_raises_witness :
  _find_bad_channels ref_lib small_epochs [2]%nat (Some ["correlation"; "hurst"])
    (1 # 2) 1 false = Err (TypeError msg_len_unsized) /\
  _find_bad_channels ref_lib small_epochs [2]%nat (Some ["correlation"; "hurst"])
    (1 # 2) 1 true = Err (TypeError msg_polyfit_0d).
Proof.
  destruct (single_channel_correlation_raises _ ref_lib small_epochs [2]%nat ["hurst"]
              (1 # 2) 1 ("eeg", [0]%nat) [] 0%nat) as [H1 H2].
  - intros ep p Hep Hin. simpl in Hep, Hin.
    destruct Hep as [<-|[<-|[]]]; destruct Hin as [<-|[]]; simpl; lia.
  - reflexivity.
  - reflexivity.
  - simpl. lia.
  - split; [exact H1|]. apply H2.
    + repeat constructor.
    + intros ch Hch. simpl in Hch. destruct Hch as [<-|[]]. split; reflexivity.
Defined.

(* ===================================================================== *)
(** ** Theorems: the metrics a run scores                                 *)
(* ===================================================================== *)

Lemma foldM_ext {A St} (f g : St -> A -> result St) (l : list A) (s : St) :
  (forall s0 a, In a l -> f s0 a = g s0 a) -> foldM f l s = foldM g l s.
Proof.
  revert s. induction l as [|a l IH]; intros s H; [reflexivity|].
  simpl. rewrite (H s a (or_introl eq_refl)).
  destruct (g s a) as [s1|e]; [|reflexivity]. simpl.
  apply IH. intros s0 a0 Hin. apply H. now right.
Qed.

Lemma dict_get_setitem_eq {V} (d : dict V) (k : string) (v : V) :
  dict_get (setitem d k v) k = Some v.
Proof.
  induction d as [|[k' v'] d IH]; simpl.
  - now rewrite String.eqb_refl.
  - destruct (String.eqb k k') eqn:E; simpl; rewrite E; [reflexivity|exact IH].
Qed.

Lemma dict_get_setitem_neq {V} (d : dict V) (k k' : string) (v : V) :
  k' <> k -> dict_get (setitem d k v) k' = dict_get d k'.
Proof.
  intros Hne. induction d as [|[k0 v0] d IH]; simpl.
  - apply String.eqb_neq in Hne. now rewrite Hne.
  - destruct (String.eqb k k0) eqn:E; simpl.
    + apply String.eqb_eq in E. subst k0.
      apply String.eqb_neq in Hne. now rewrite Hne.
    + destruct (String.eqb k' k0); [reflexivity|exact IH].
Qed.

Lemma dict_get_dd_append_eq {V} (d : dict (list V)) (k : string) (v : V) :
  dict_get (dd_append d k v) k = Some (entries d k ++ [v]).
Proof.
  unfold dd_append, entries. destruct (dict_get d k); apply dict_get_setitem_eq.
Qed.

Lemma dict_get_dd_append_neq {V} (d : dict (list V)) (k k' : string) (v : V) :
  k' <> k -> dict_get (dd_append d k v) k' = dict_get d k'.
Proof.
  intros Hne. unfold dd_append. destruct (dict_get d k); now apply dict_get_setitem_neq.
Qed.

(** The loop over the metrics appends one list under every metric and
    leaves the other keys alone. *)
Lemma foldM_metrics_append {V} (step : string -> result V) (l : list string)
      (b b' : dict (list V)) :
  NoDup l ->
  foldM (fun b m => v <- step m ;; Ok (dd_append b m v)) l b = Ok b' ->
  (forall m, In m l ->
     exists v, step m = Ok v /\ dict_get b' m = Some (entries b m ++ [v])) /\
  (forall m, ~ In m l -> dict_get b' m = dict_get b m).
Proof.
  revert b. induction l as [|a l IH]; intros b Hnd H; simpl in H.
  - inversion H; subst. split; [intros m []|reflexivity].
  - inversion Hnd as [|? ? Ha Hnd']; subst.
    bind_inv H d1 Hd1. bind_inv Hd1 v Hv. inversion Hd1; subst d1.
    destruct (IH _ Hnd' H) as [Hin Hout]. split.
    + intros m [<-|Hm].
      * exists v. split; [exact Hv|]. rewrite (Hout a Ha). apply dict_get_dd_append_eq.
      * destruct (Hin m Hm) as [v' [Hv' Hg]]. exists v'. split; [exact Hv'|].
        rewrite Hg. unfold entries at 1.
        rewrite dict_get_dd_append_neq by (intros ->; contradiction). reflexivity.
    + intros m Hm. rewrite Hout by (intros Hc; apply Hm; now right).
      apply dict_get_dd_append_neq. intros ->. apply Hm. now left.
Qed.

(** The loops over the groups and the metrics: under every metric one list
    per group, in the order of the groups. *)
Lemma foldM_groups_append {G V} (step : G -> string -> result V) (l : list string)
      (gs : list G) (b b' : dict (list V)) :
  NoDup l ->
  foldM (fun b g => foldM (fun b m => v <- step g m ;; Ok (dd_append b m v)) l b) gs b
    = Ok b' ->
  forall m, In m l ->
    exists vs, mapM (fun g => step g m) gs = Ok vs /\
               entries b' m = entries b m ++ vs /\
               (gs <> [] -> dict_get b' m = Some (entries b m ++ vs)).
Proof.
  intros Hnd. revert b. induction gs as [|g gs IH]; intros b H m Hm; simpl in H.
  - inversion H; subst. exists []. split; [reflexivity|].
    split; [now rewrite app_nil_r|congruence].
  - bind_inv H d1 Hd1.
    destruct (foldM_metrics_append (step g) l b d1 Hnd Hd1) as [Hin _].
    destruct (Hin m Hm) as [v [Hv Hg]].
    destruct (IH d1 H m Hm) as [vs [Hvs [He Hd]]].
    assert (He1 : entries d1 m = entries b m ++ [v]) by (unfold entries at 1; now rewrite Hg).
    exists (v :: vs). split; [simpl; rewrite Hv; simpl; rewrite Hvs; reflexivity|].
    rewrite He1, <- app_assoc in He. simpl in He. split; [exact He|].
    intros _. destruct gs as [|g' gs'].
    + simpl in H. inversion H; subst b'. simpl in Hvs. inversion Hvs; subst vs. exact Hg.
    + rewrite Hd by discriminate. rewrite He1, <- app_assoc. reflexivity.
Qed.

Lemma dict_get_concat_values {V} (d : dict (list (list V))) (m : string) :
  dict_get (map (fun kv => (fst kv, concat (snd kv))) d) m =
  option_map (@concat V) (dict_get d m).
Proof.
  induction d as [|[k v] d IH]; simpl; [reflexivity|].
  destruct (String.eqb m k); [reflexivity|exact IH].
Qed.

Lemma bind_assoc {A B C} (r : result A) (f : A -> result B) (g : B -> result C) :
  bind (bind r f) g = bind r (fun a => bind (f a) g).
Proof. destruct r; reflexivity. Qed.

(** With a request free of repetitions, the entry of a requested metric in
    the result of the bad-channels routine is what that metric marks,
    group after group. *)
Lemma find_bad_channels_entries {P} (lib : Externals P) (epochs : Epochs)
      (picks : list nat) (use_metrics : option (list string)) (thresh : Q)
      (max_iter : nat) (eeg_ref_corr : bool) (bads : dict (list string)) :
  NoDup (resolve_metrics (bad_channels_metrics lib epochs) use_metrics) ->
  _find_bad_channels lib epochs picks use_metrics thresh max_iter eeg_ref_corr = Ok bads ->
  exists data,
    get_picked epochs picks = Ok data /\
    forall m, In m (resolve_metrics (bad_channels_metrics lib epochs) use_metrics) ->
      exists per_group,
        mapM (fun grp : string * list nat =>
                channels_marked_by lib epochs picks (concat_epochs (length picks) data)
                                   thresh max_iter eeg_ref_corr (snd grp) m)
             (_picks_by_type lib (pick_info lib (info epochs) picks)) = Ok per_group /\
        (_picks_by_type lib (pick_info lib (info epochs) picks) <> [] ->
         dict_get bads m = Some (concat per_group)).
Proof.
  intros Hnd H. unfold _find_bad_channels in H.
  bind_inv H data Hdata. bind_inv H pre Hpre. inversion H; subst bads. clear H.
  exists data. split; [exact Hdata|]. intros m Hm.
  rewrite (foldM_ext _
             (fun bads (grp : string * list nat) =>
                foldM (fun bads metric =>
                         v <- channels_marked_by lib epochs picks
                                (concat_epochs (length picks) data) thresh max_iter
                                eeg_ref_corr (snd grp) metric ;;
                         Ok (dd_append bads metric v))
                      (resolve_metrics (bad_channels_metrics lib epochs) use_metrics) bads))
    in Hpre.
  2:{ intros s0 grp _. apply foldM_ext. intros s1 metric _.
      unfold channels_marked_by.
      destruct (getitem (bad_channels_metrics lib epochs) metric) as [f|e];
        [|reflexivity]; cbn [bind].
      destruct (take_idx _ (snd grp)) as [rows|e]; [|reflexivity]; cbn [bind].
      destruct (f rows) as [sc|e]; [|reflexivity]; cbn [bind].
      destruct (if eeg_ref_corr then _ else _) as [sc'|e]; [|reflexivity]; cbn [bind].
      destruct (outliers_of lib sc' thresh max_iter) as [o|e]; [|reflexivity].
      reflexivity. }
  destruct (foldM_groups_append
              (fun grp : string * list nat =>
                 channels_marked_by lib epochs picks (concat_epochs (length picks) data)
                                    thresh max_iter eeg_ref_corr (snd grp))
              _ _ [] pre Hnd Hpre m Hm) as [vs [Hvs [_ Hd]]].
  exists vs. split; [exact Hvs|]. intros Hne.
  rewrite dict_get_concat_values, (Hd Hne). reflexivity.
Qed.

Lemma find_bad_epochs_entries {P} (lib : Externals P) (epochs : Epochs)
      (picks : list nat) (use_metrics : option (list string)) (thresh : Q)
      (max_iter : nat) (bads : dict (list nat)) :
  NoDup (resolve_metrics bad_epochs_metrics use_metrics) ->
  _find_bad_epochs lib epochs picks use_metrics thresh max_iter = Ok bads ->
  exists data,
    get_picked epochs picks = Ok data /\
    forall m, In m (resolve_metrics bad_epochs_metrics use_metrics) ->
      exists per_group,
        mapM (fun grp : string * list nat =>
                epochs_marked_by lib data thresh max_iter (snd grp) m)
             (_picks_by_type lib (pick_info lib (info epochs) picks)) = Ok per_group /\
        (_picks_by_type lib (pick_info lib (info epochs) picks) <> [] ->
         dict_get bads m = Some (concat per_group)).
Proof.
  intros Hnd H. unfold _find_bad_epochs in H.
  bind_inv H data Hdata. bind_inv H pre Hpre. inversion H; subst bads. clear H.
  exists data. split; [exact Hdata|]. intros m Hm.
  rewrite (foldM_ext _
             (fun bads (grp : string * list nat) =>
                foldM (fun bads metric =>
                         v <- epochs_marked_by lib data thresh max_iter (snd grp) metric ;;
                         Ok (dd_append bads metric v))
                      (resolve_metrics bad_epochs_metrics use_metrics) bads))
    in Hpre.
  2:{ intros s0 grp _. apply foldM_ext. intros s1 metric _.
      unfold epochs_marked_by.
      destruct (getitem bad_epochs_metrics metric) as [f|e]; [|reflexivity]; cbn [bind].
      destruct (mapM _ data) as [sel|e]; [|reflexivity]; cbn [bind].
      destruct (f sel) as [sc|e]; reflexivity. }
  destruct (foldM_groups_append
              (fun grp : string * list nat =>
                 epochs_marked_by lib data thresh max_iter (snd grp))
              _ _ [] pre Hnd Hpre m Hm) as [vs [Hvs [_ Hd]]].
  exists vs. split; [exact Hvs|]. intros Hne.
  rewrite dict_get_concat_values, (Hd Hne). reflexivity.
Qed.

Lemma setitem_same {V} (d : dict V) (k : string) (v : V) :
  dict_get d k = Some v -> setitem d k v = d.
Proof.
  induction d as [|[k' v'] d IH]; simpl; [discriminate|].
  destruct (String.eqb k k') eqn:E.
  - intros H. inversion H; subst. reflexivity.
  - intros H. f_equal. exact (IH H).
Qed.

Lemma setitem_setitem {V} (d : dict V) (k : string) (v v' : V) :
  setitem (setitem d k v) k v' = setitem d k v'.
Proof.
  induction d as [|[k' v0] d IH]; simpl.
  - now rewrite String.eqb_refl.
  - destruct (String.eqb k k') eqn:E; simpl; rewrite E; [reflexivity|now rewrite IH].
Qed.

Lemma getitem_Some {V} (d : dict V) (k : string) (v : V) :
  dict_get d k = Some v -> getitem d k = Ok v.
Proof. unfold getitem. now intros ->. Qed.

Section MaskLoops.

Context {P : Type}.
Variable lib : Externals P.
Variables (epochs : Epochs) (picks : list nat) (thresh : Q) (max_iter : nat)
          (eeg_ref_corr : bool).

(** The innermost loop changes the mask of the metric it scores as
    [flag_epochs] does, and no other. *)
Lemma foldM_epochs_mask (names : list string) (chs : list nat) (metric : string)
      (ies : list (nat * list Q)) (d d' : dict mask) (M : mask) :
  dict_get d metric = Some M ->
  foldM (fun bads (ie : nat * list Q) =>
           let i_epochs := fst ie in
           scores <- (if eeg_ref_corr
                      then _distance_correction lib (info epochs) picks (snd ie)
                      else Ok (snd ie)) ;;
           let outliers := find_outliers lib scores thresh max_iter in
           if (0 <? length outliers)%nat then
             bad_segment <- take_idx names outliers ;;
             cols <- take_idx chs outliers ;;
             m <- getitem bads metric ;;
             m' <- set_true m i_epochs cols ;;
             Ok (setitem bads metric m')
           else Ok bads) ies d = Ok d' ->
  exists M',
    foldM (fun m (ie : nat * list Q) =>
             scores <- (if eeg_ref_corr
                        then _distance_correction lib (info epochs) picks (snd ie)
                        else Ok (snd ie)) ;;
             let outliers := find_outliers lib scores thresh max_iter in
             if (0 <? length outliers)%nat then
               bad_segment <- take_idx names outliers ;;
               cols <- take_idx chs outliers ;;
               set_true m (fst ie) cols
             else Ok m) ies M = Ok M' /\
    d' = setitem d metric M'.
Proof.
  revert d M. induction ies as [|ie ies IH]; intros d M Hd H; simpl in H.
  - inversion H; subst. exists M. split; [reflexivity|].
    symmetry. now apply setitem_same.
  - bind_inv H d1 Hd1. cbv zeta in Hd1. bind_inv Hd1 scores Hsc.
    simpl foldM. rewrite Hsc. cbn [bind]. cbv zeta.
    destruct (0 <? length (find_outliers lib scores thresh max_iter))%nat.
    + bind_inv Hd1 seg Hseg. bind_inv Hd1 cols Hcols. bind_inv Hd1 m0 Hm0.
      bind_inv Hd1 m' Hm'. inversion Hd1; subst d1.
      rewrite (getitem_Some _ _ _ Hd) in Hm0. inversion Hm0; subst m0.
      rewrite Hseg, Hcols. cbn [bind]. rewrite Hm'. cbn [bind].
      destruct (IH (setitem d metric m') m' (dict_get_setitem_eq _ _ _) H)
        as [M' [HM' ->]].
      exists M'. split; [exact HM'|apply setitem_setitem].
    + inversion Hd1; subst d1. exact (IH d M Hd H).
Qed.

(** The loop over the metrics, for one channel group. *)
Lemma foldM_metrics_masks (data : list (list (list Q))) (names : list string)
      (chs : list nat) (l : list string) (d d' : dict mask) :
  NoDup l ->
  (forall m, In m l -> In m (keys d)) ->
  foldM (fun bads metric =>
           f <- getitem (bad_channels_in_epochs_metrics lib epochs) metric ;;
           sel <- mapM (fun ep => take_idx ep chs) data ;;
           s_epochs <- f sel ;;
           foldM (fun bads (ie : nat * list Q) =>
                    let i_epochs := fst ie in
                    scores <- (if eeg_ref_corr
                               then _distance_correction lib (info epochs) picks (snd ie)
                               else Ok (snd ie)) ;;
                    let outliers := find_outliers lib scores thresh max_iter in
                    if (0 <? length outliers)%nat then
                      bad_segment <- take_idx names outliers ;;
                      cols <- take_idx chs outliers ;;
                      m <- getitem bads metric ;;
                      m' <- set_true m i_epochs cols ;;
                      Ok (setitem bads metric m')
                    else Ok bads)
                 (combine (seq 0 (length s_epochs)) s_epochs) bads) l d = Ok d' ->
  keys d' = keys d /\
  (forall m M, In m l -> dict_get d m = Some M ->
     exists M',
       (f <- getitem (bad_channels_in_epochs_metrics lib epochs) m ;;
        sel <- mapM (fun ep => take_idx ep chs) data ;;
        s_epochs <- f sel ;;
        flag_epochs lib epochs picks thresh max_iter eeg_ref_corr names chs s_epochs M)
       = Ok M' /\
       dict_get d' m = Some M') /\
  (forall m, ~ In m l -> dict_get d' m = dict_get d m).
Proof.
  revert d. induction l as [|a l IH]; intros d Hnd Hkeys H; simpl in H.
  - inversion H; subst. split; [reflexivity|]. split; [intros m M []|reflexivity].
  - inversion Hnd as [|? ? Ha Hnd']; subst.
    bind_inv H d1 Hd1. bind_inv Hd1 f Hf. bind_inv Hd1 sel Hsel. bind_inv Hd1 s_epochs Hs.
    destruct (dict_get_of_key d a (Hkeys a (or_introl eq_refl))) as [Ma HMa].
    destruct (foldM_epochs_mask names chs a _ d d1 Ma HMa Hd1) as [Ma' [HMa' ->]].
    assert (Hk1 : keys (setitem d a Ma') = keys d)
      by (apply keys_setitem; apply Hkeys; now left).
    destruct (IH (setitem d a Ma') Hnd') as [Hk [Hin Hout]].
    { intros m Hm. rewrite Hk1. apply Hkeys. now right. }
    { exact H. }
    split; [now rewrite Hk, Hk1|]. split.
    + intros m M [<-|Hm] HM.
      * rewrite HMa in HM. inversion HM; subst M.
        exists Ma'. split.
        -- rewrite Hf. cbn [bind]. rewrite Hsel. cbn [bind]. rewrite Hs. cbn [bind].
           exact HMa'.
        -- rewrite (Hout a Ha). apply dict_get_setitem_eq.
      * apply (Hin m M Hm). rewrite dict_get_setitem_neq; [exact HM|].
        intros ->. contradiction.
    + intros m Hm. rewrite Hout by (intros Hc; apply Hm; now right).
      apply dict_get_setitem_neq. intros ->. apply Hm. now left.
Qed.

(** The loop over the channel groups: the mask of a requested metric is
    changed group after group as [flag_group] changes it. *)
Lemma foldM_groups_masks (data : list (list (list Q))) (l : list string)
      (gs : list (string * list nat)) (d d' : dict mask) :
  NoDup l ->
  (forall m, In m l -> In m (keys d)) ->
  foldM (fun bads (grp : string * list nat) =>
    let chs := snd grp in
    names <- take_idx (ch_names (pick_info lib (info epochs) picks)) chs ;;
    foldM (fun bads metric =>
      f <- getitem (bad_channels_in_epochs_metrics lib epochs) metric ;;
      sel <- mapM (fun ep => take_idx ep chs) data ;;
      s_epochs <- f sel ;;
      foldM (fun bads (ie : nat * list Q) =>
        let i_epochs := fst ie in
        scores <- (if eeg_ref_corr
                   then _distance_correction lib (info epochs) picks (snd ie)
                   else Ok (snd ie)) ;;
        let outliers := find_outliers lib scores thresh max_iter in
        if (0 <? length outliers)%nat then
          bad_segment <- take_idx names outliers ;;
          cols <- take_idx chs outliers ;;
          m <- getitem bads metric ;;
          m' <- set_true m i_epochs cols ;;
          Ok (setitem bads metric m')
        else Ok bads)
        (combine (seq 0 (length s_epochs)) s_epochs) bads)
      l bads) gs d = Ok d' ->
  forall m M, In m l -> dict_get d m = Some M ->
    exists M',
      foldM (fun M (grp : string * list nat) =>
               flag_group lib epochs picks data thresh max_iter eeg_ref_corr (snd grp) m M)
            gs M = Ok M' /\
      dict_get d' m = Some M'.
Proof.
  intros Hnd. revert d. induction gs as [|g gs IH]; intros d Hkeys H m M Hm HM; simpl in H.
  - inversion H; subst. exists M. split; [reflexivity|exact HM].
  - bind_inv H d1 Hd1. cbv zeta in Hd1. bind_inv Hd1 names Hnames.
    destruct (foldM_metrics_masks data names (snd g) l d d1 Hnd Hkeys Hd1)
      as [Hk [Hin _]].
    destruct (Hin m M Hm HM) as [M1 [HM1 Hd1m]].
    destruct (IH d1) with (m := m) (M := M1) as [M' [HM' Hd']].
    { intros m0 Hm0. rewrite Hk. exact (Hkeys m0 Hm0). }
    { exact H. }
    { exact Hm. }
    { exact Hd1m. }
    exists M'. split; [|exact Hd'].
    simpl foldM. unfold flag_group at 1. rewrite Hnames. cbn [bind].
    rewrite HM1. cbn [bind]. exact HM'.
Qed.

End MaskLoops.

Lemma dict_get_init_masks (ks : list string) (E N : nat) (m : string) :
  In m ks -> dict_get (map (fun k => (k, zeros E N)) ks) m = Some (zeros E N).
Proof.
  induction ks as [|k ks IH]; simpl; [intros []|].
  destruct (String.eqb m k) eqn:Eq; [reflexivity|].
  intros [H|H]; [|exact (IH H)]. apply String.eqb_neq in Eq. congruence.
Qed.

Lemma keys_init_masks (ks : list string) (E N : nat) :
  keys (map (fun k => (k, zeros E N)) ks) = ks.
Proof. unfold keys. rewrite map_map. simpl. apply map_id. Qed.

(** With a request free of repetitions that names metrics of the table, the
    mask of a requested metric in the result of the bad-channels-in-epochs
    routine is the all-False mask flagged by that metric alone, group after
    group. *)
Lemma find_bad_channels_in_epochs_masks {P} (lib : Externals P) (epochs : Epochs)
      (picks : list nat) (use_metrics : option (list string)) (thresh : Q)
      (max_iter : nat) (eeg_ref_corr : bool) (bads : dict mask) :
  NoDup (resolve_metrics (bad_channels_in_epochs_metrics lib epochs) use_metrics) ->
  (forall m, In m (resolve_metrics (bad_channels_in_epochs_metrics lib epochs) use_metrics) ->
             In m bad_channels_in_epochs_catalog) ->
  _find_bad_channels_in_epochs lib epochs picks use_metrics thresh max_iter eeg_ref_corr
    = Ok bads ->
  exists data,
    get_picked epochs picks = Ok data /\
    forall m, In m (resolve_metrics (bad_channels_in_epochs_metrics lib epochs) use_metrics) ->
      exists M,
        foldM (fun M (grp : string * list nat) =>
                 flag_group lib epochs picks data thresh max_iter eeg_ref_corr
                            (snd grp) m M)
              (_picks_by_type lib (pick_info lib (info epochs) picks))
              (zeros (length data) (length picks)) = Ok M /\
        dict_get bads m = Some M.
Proof.
  intros Hnd Hsub H. unfold _find_bad_channels_in_epochs in H.
  bind_inv H data Hdata. exists data. split; [exact Hdata|]. intros m Hm.
  cbv zeta in H.
  apply (foldM_groups_masks lib epochs picks thresh max_iter eeg_ref_corr data _ _ _ _ Hnd)
    with (m := m) (M := zeros (length data) (length picks)) in H.
  - exact H.
  - intros m0 Hm0. rewrite keys_init_masks. exact (Hsub m0 Hm0).
  - exact Hm.
  - apply dict_get_init_masks. exact (Hsub m Hm).
Qed.

(** The keys of what the two dictionary routines return, for at least one
    channel group: the requested metrics. *)
Lemma bad_channels_keys {P} (lib : Externals P) (epochs : Epochs) (picks : list nat)
      (use_metrics : option (list string)) (thresh : Q) (max_iter : nat)
      (eeg_ref_corr : bool) (bads : dict (list string)) :
  _find_bad_channels lib epochs picks use_metrics thresh max_iter eeg_ref_corr = Ok bads ->
  _picks_by_type lib (pick_info lib (info epochs) picks) <> [] ->
  forall k, In k (keys bads) <->
            In k (resolve_metrics (bad_channels_metrics lib epochs) use_metrics).
Proof.
  intros H Hne. unfold _find_bad_channels in H.
  bind_inv H data Hdata. bind_inv H pre Hpre. inversion H; subst bads. clear H.
  rewrite keys_concat_values.
  apply foldM_groups_keys
    with (requested := resolve_metrics (bad_channels_metrics lib epochs) use_metrics)
    in Hpre.
  - destruct Hpre as [_ Hk]. intros k. rewrite (Hk Hne k). simpl. tauto.
  - intros s g s' Hs. apply foldM_dd_append_keys in Hs; [exact Hs|].
    intros s0 a s0' Hm.
    bind_inv Hm f Hf. bind_inv Hm rows Hrows. bind_inv Hm scores0 Hsc0.
    bind_inv Hm scores Hsc. bind_inv Hm outliers Hol. bind_inv Hm bad_channels Hbc.
    inversion Hm. eexists. reflexivity.
Qed.

Lemma bad_epochs_keys {P} (lib : Externals P) (epochs : Epochs) (picks : list nat)
      (use_metrics : option (list string)) (thresh : Q) (max_iter : nat)
      (bads : dict (list nat)) :
  _find_bad_epochs lib epochs picks use_metrics thresh max_iter = Ok bads ->
  _picks_by_type lib (pick_info lib (info epochs) picks) <> [] ->
  forall k, In k (keys bads) <-> In k (resolve_metrics bad_epochs_metrics use_metrics).
Proof.
  intros H Hne. unfold _find_bad_epochs in H.
  bind_inv H data Hdata. bind_inv H pre Hpre. inversion H; subst bads. clear H.
  rewrite keys_concat_values.
  apply foldM_groups_keys
    with (requested := resolve_metrics bad_epochs_metrics use_metrics) in Hpre.
  - destruct Hpre as [_ Hk]. intros k. rewrite (Hk Hne k). simpl. tauto.
  - intros s g s' Hs. apply foldM_dd_append_keys in Hs; [exact Hs|].
    intros s0 a s0' Hm.
    bind_inv Hm f Hf. bind_inv Hm sel Hsel. bind_inv Hm scores Hsc.
    inversion Hm. eexists. reflexivity.
Qed.

Lemma bad_channels_catalog_NoDup : NoDup bad_channels_catalog.
Proof.
  unfold bad_channels_catalog.
  repeat (constructor; [simpl; intuition discriminate|]). constructor.
Qed.

Lemma bad_epochs_catalog_NoDup : NoDup bad_epochs_catalog.
Proof.
  unfold bad_epochs_catalog.
  repeat (constructor; [simpl; intuition discriminate|]). constructor.
Qed.

(** C8.  With [use_metrics] left at None each routine scores the metrics of
    its own table and no other: variance, correlation, hurst, kurtosis and
    line_noise for bad channels; amplitude, deviation and variance for bad
    epochs; amplitude, deviation, variance, median_gradient and line_noise
    for bad channels in epochs.  For at least one channel group, a returning
    run of the bad-channels or of the bad-epochs routine has exactly these
    keys, and under each of them what that metric marks, group after group.
    A returning run of the bad-channels-in-epochs routine has under each of
    them the all-False mask flagged by that metric, group after group. *)
Theorem default_metric_catalogs :
  forall (P : Type) (lib : Externals P) (epochs : Epochs) (picks : list nat)
         (thresh : Q) (max_iter : nat) (eeg_ref_corr : bool),
    (resolve_metrics (bad_channels_metrics lib epochs) None =
       ["variance"; "correlation"; "hurst"; "kurtosis"; "line_noise"] /\
     forall bads,
       _find_bad_channels lib epochs picks None thresh max_iter eeg_ref_corr = Ok bads ->
       _picks_by_type lib (pick_info lib (info epochs) picks) <> [] ->
       (forall k, In k (keys bads) <->
                  In k ["variance"; "correlation"; "hurst"; "kurtosis"; "line_noise"]) /\
       exists data,
         get_picked epochs picks = Ok data /\
         forall m, In m ["variance"; "correlation"; "hurst"; "kurtosis"; "line_noise"] ->
           exists per_group,
             mapM (fun grp : string * list nat =>
                     channels_marked_by lib epochs picks
                       (concat_epochs (length picks) data) thresh max_iter eeg_ref_corr
                       (snd grp) m)
                  (_picks_by_type lib (pick_info lib (info epochs) picks)) = Ok per_group /\
             dict_get bads m = Some (concat per_group)) /\
    (Permutation (resolve_metrics bad_epochs_metrics None)
       ["amplitude"; "variance"; "deviation"] /\
     forall bads,
       _find_bad_epochs lib epochs picks None thresh max_iter = Ok bads ->
       _picks_by_type lib (pick_info lib (info epochs) picks) <> [] ->
       (forall k, In k (keys bads) <-> In k ["amplitude"; "variance"; "deviation"]) /\
       exists data,
         get_picked epochs picks = Ok data /\
         forall m, In m ["amplitude"; "variance"; "deviation"] ->
           exists per_group,
             mapM (fun grp : string * list nat =>
                     epochs_marked_by lib data thresh max_iter (snd grp) m)
                  (_picks_by_type lib (pick_info lib (info epochs) picks)) = Ok per_group /\
             dict_get bads m = Some (concat per_group)) /\
    (Permutation (resolve_metrics (bad_channels_in_epochs_metrics lib epochs) None)
       ["amplitude"; "variance"; "deviation"; "median_gradient"; "line_noise"] /\
     forall bads,
       _find_bad_channels_in_epochs lib epochs picks None thresh max_iter eeg_ref_corr =
         Ok bads ->
       exists data,
         get_picked epochs picks = Ok data /\
         forall m,
           In m ["amplitude"; "variance"; "deviation"; "median_gradient"; "line_noise"] ->
           exists M,
             foldM (fun M (grp : string * list nat) =>
                      flag_group lib epochs picks data thresh max_iter eeg_ref_corr
                                 (snd grp) m M)
                   (_picks_by_type lib (pick_info lib (info epochs) picks))
                   (zeros (length data) (length picks)) = Ok M /\
             dict_get bads m = Some M).
Proof.
  intros P lib epochs picks thresh max_iter corr.
  split; [|split].
  - split; [reflexivity|]. intros bads H Hne.
    split; [exact (bad_channels_keys lib epochs picks None thresh max_iter corr bads H Hne)|].
    destruct (find_bad_channels_entries lib epochs picks None thresh max_iter corr bads
                bad_channels_catalog_NoDup H) as [data [Hdata Hm]].
    exists data. split; [exact Hdata|]. intros m Hin.
    destruct (Hm m Hin) as [per_group [Hpg Hd]].
    exists per_group. split; [exact Hpg|exact (Hd Hne)].
  - split.
    { unfold resolve_metrics, bad_epochs_metrics, keys. simpl.
      apply perm_skip. apply perm_swap. }
    intros bads H Hne.
    assert (Hperm : forall k, In k ["amplitude"; "variance"; "deviation"] <->
                              In k (resolve_metrics bad_epochs_metrics None)).
    { intros k. simpl. tauto. }
    split.
    { intros k. rewrite Hperm.
      exact (bad_epochs_keys lib epochs picks None thresh max_iter bads H Hne k). }
    destruct (find_bad_epochs_entries lib epochs picks None thresh max_iter bads
                bad_epochs_catalog_NoDup H) as [data [Hdata Hm]].
    exists data. split; [exact Hdata|]. intros m Hin.
    destruct (Hm m (proj1 (Hperm m) Hin)) as [per_group [Hpg Hd]].
    exists per_group. split; [exact Hpg|exact (Hd Hne)].
  - split.
    { unfold resolve_metrics, bad_channels_in_epochs_metrics, keys. simpl.
      apply perm_skip. apply perm_swap. }
    intros bads H.
    destruct (find_bad_channels_in_epochs_masks lib epochs picks None thresh max_iter
                corr bads catalog_NoDup (fun m Hm => Hm) H) as [data [Hdata Hm]].
    exists data. split; [exact Hdata|]. intros m Hin. apply Hm.
    simpl in Hin. simpl. tauto.
Qed.

Lemma default_metric_catalogs_witness :
  (exists bads,
     _find_bad_channels ref_lib fast_epochs [0; 1; 2]%nat None (1 # 2) 1 false = Ok bads /\
     forall k, In k (keys bads) <->
               In k ["variance"; "correlation"; "hurst"; "kurtosis"; "line_noise"]) /\
  (exists bads,
     _find_bad_epochs ref_lib fast_epochs [0; 1; 2]%nat None (1 # 2) 1 = Ok bads /\
     forall k, In k (keys bads) <-> In k ["amplitude"; "variance"; "deviation"]) /\
  (exists bads data,
     _find_bad_channels_in_epochs ref_lib fast_epochs [0; 1; 2]%nat None 1 1 false =
       Ok bads /\
     get_picked fast_epochs [0; 1; 2]%nat = Ok data /\
     exists M,
       foldM (fun M (grp : string * list nat) =>
                flag_group ref_lib fast_epochs [0; 1; 2]%nat data 1 1 false
                           (snd grp) "line_noise" M)
             (_picks_by_type ref_lib (pick_info ref_lib (info fast_epochs) [0; 1; 2]%nat))
             (zeros (length data) 3) = Ok M /\
       dict_get bads "line_noise" = Some M).
Proof.
  split; [|split].
  - destruct (default_metric_catalogs _ ref_lib fast_epochs [0; 1; 2]%nat (1 # 2) 1%nat
                false) as [[_ H] _].
    assert (E : _find_bad_channels ref_lib fast_epochs [0; 1; 2]%nat None (1 # 2) 1 false =
                Ok [("variance", ["Fz"; "Cz"; "Pz"]); ("correlation", ["Fz"; "Cz"; "Pz"]);
                    ("hurst", ["Fz"; "Cz"; "Pz"]); ("kurtosis", ["Cz"; "Pz"]);
                    ("line_noise", ["Fz"; "Cz"; "Pz"])])
      by (vm_compute; reflexivity).
    eexists. split; [exact E|].
    exact (proj1 (H _ E ltac:(discriminate))).
  - destruct (default_metric_catalogs _ ref_lib fast_epochs [0; 1; 2]%nat (1 # 2) 1%nat
                false) as [_ [[_ H] _]].
    assert (E : _find_bad_epochs ref_lib fast_epochs [0; 1; 2]%nat None (1 # 2) 1 =
                Ok [("amplitude", [0; 1]%nat); ("deviation", [0; 1]%nat);
                    ("variance", [0; 1]%nat)])
      by (vm_compute; reflexivity).
    eexists. split; [exact E|].
    exact (proj1 (H _ E ltac:(discriminate))).
  - destruct (default_metric_catalogs _ ref_lib fast_epochs [0; 1; 2]%nat 1 1%nat
                false) as [_ [_ [_ H]]].
    assert (E : _find_bad_channels_in_epochs ref_lib fast_epochs [0; 1; 2]%nat None 1 1
                  false =
                Ok [("amplitude", [[false; true; true]; [false; false; true]]);
                    ("deviation", [[false; true; true]; [false; true; true]]);
                    ("variance", [[false; true; false]; [false; false; true]]);
                    ("median_gradient", [[false; true; true]; [false; false; true]]);
                    ("line_noise", [[false; true; false]; [false; false; true]])])
      by (vm_compute; reflexivity).
    destruct (H _ E) as [data [Hdata Hm]].
    eexists. exists data. split; [exact E|]. split; [exact Hdata|].
    apply Hm. simpl. tauto.
Defined.

(** The default run on the recording at 200 Hz with a threshold of one
    half: every metric of the table is a key and has marked channels. *)
Example default_run_scores_every_metric :
  _find_bad_channels ref_lib fast_epochs [0; 1; 2]%nat None (1 # 2) 1 false =
    Ok [("variance", ["Fz"; "Cz"; "Pz"]); ("correlation", ["Fz"; "Cz"; "Pz"]);
        ("hurst", ["Fz"; "Cz"; "Pz"]); ("kurtosis", ["Cz"; "Pz"]);
        ("line_noise", ["Fz"; "Cz"; "Pz"])].
Proof. vm_compute. reflexivity. Qed.
